(** * DeepSlate: the response extractor, the level assigner and the
      step-correlation resolver

    A shallow embedding of three pieces of the TypeScript sources:

    - [extractJson] (src/types.ts, lines 256-329),
    - the levelling pass of [ConceptGraph]
      (src/components/StepAnalysis.tsx, lines 475-515),
    - [handleGraphNodeClick] (src/types.ts, lines 1282-1323).

    Part III has further properties of the three, and covers code around
    them: what [analyzeProblem] and
    [askFollowUpQuestion] do with the result of [extractJson], the routing
    of [fileToGenerativePart], [cleanMarkdownForSpeech], [handleMarkRevision],
    the experience awarded by [handleAnalyze], [UserInsights] and the
    resizing of the panels (all in src/types.ts), and [FlashcardDeck],
    [QuizMessage] and the rows of [StepAnalysis]
    (src/components/StepAnalysis.tsx).

    Conventions of the embedding.

    - A JavaScript string is the list of its UTF-16 code units ([jsstring]).
    - A plain object used as a dictionary ([Record<string, T>]) is the
      finite map of its own properties, with the members of
      [Object.prototype] behind them: a key without own property reads as
      the member of that name when there is one, and as [undefined]
      otherwise; an assignment of a number under [__proto__] stores nothing.
    - A statement that raises a [TypeError] (a method call on [undefined])
      makes the enclosing computation end in [TypeError].
    - [JSON.parse] is the built-in of the language; it is modelled as a
      recursive-descent parser of the JSON grammar returning [None] where
      the built-in raises a [SyntaxError].
    - A Number that is only counted with is an integer; the experience and
      the level of a user are whole numbers rounded to binary64 as the
      arithmetic rounds them; the widths of the panels, which are computed
      with, are binary64 floating-point numbers.
    - Values have the types that src/types.ts declares for them. *)

From Stdlib Require Import ZArith NArith List String Ascii Lia Bool Floats.
From stdpp Require Import base gmap sets list strings.

Open Scope Z_scope.

(* ===================================================================== *)
(** * Part I: definitions                                                *)
(* ===================================================================== *)

(** ** JavaScript strings *)

(** A string is a sequence of UTF-16 code units. *)
Definition jsstring := list N.

(** The code units of an ASCII literal. *)
Definition js (s : string) : jsstring :=
  map N_of_ascii (list_ascii_of_string s).

(** As [js], with every apostrophe standing for a double quote, so that JSON
    text can be written down legibly: [jq "{'a': 1}"] is the text
    [{"a": 1}]. *)
Definition jq (s : string) : jsstring :=
  map (λ c : N, if (c =? 39)%N then 34%N else c) (js s).

(** ** The levelling pass of ConceptGraph *)

Module Levels.

(** Of a node only [id] is read by the pass; of an edge only [from] and [to]
    (copied into [source] and [target] of the link objects). *)
Record ReasoningNode := { id : jsstring }.
Record ReasoningEdge := { from : jsstring; to : jsstring }.

(** What a run of the pass ends with. [OutOfFuel] belongs to the model only:
    the [while] loop is unrolled a bounded number of times, and
    [bfs_enough_fuel] shows that the bound is never reached. *)
Inductive outcome (A : Type) : Type :=
  | Done (a : A)
  | TypeError
  | OutOfFuel.
Arguments Done {A} a.
Arguments TypeError {A}.
Arguments OutOfFuel {A}.

(** *** Plain objects as dictionaries

    [levels], [incomingCount] and [adj] are object literals: behind their
    own properties stand the members of [Object.prototype]. *)

(** The name under which an object reads and replaces its prototype. *)
Definition proto : jsstring := js "__proto__".

(** The names of the members of [Object.prototype]. Each member is a
    function, but [__proto__], which reads as the prototype, an object. *)
Definition Object_prototype : list jsstring :=
  [js "constructor"; js "__defineGetter__"; js "__defineSetter__";
   js "hasOwnProperty"; js "__lookupGetter__"; js "__lookupSetter__";
   js "isPrototypeOf"; js "propertyIsEnumerable"; js "toString";
   js "valueOf"; proto; js "toLocaleString"].

(** [o[k] = v] for a number or a string [v]: [o] gets or updates an own
    property (the inherited functions are writable, so that a key naming one
    of them is written like any other), except under [__proto__], whose
    setter ignores a value that is not an object. *)
Definition store {A : Type} (k : jsstring) (v : A) (o : gmap jsstring A)
  : gmap jsstring A :=
  if decide (k = proto) then o else <[k := v]> o.

(** What [incomingCount] holds under a key: a number, or the string that [+]
    makes of a member of [Object.prototype] and [1]. *)
Inductive count : Type :=
  | Count (n : Z)
  | Joined.

#[global] Instance count_eq_dec : EqDecision count.
Proof. solve_decision. Defined.

(** [(incomingCount[k] || 0) + 1]. A key that is not an own property reads
    as [undefined], or as the inherited member when it names one: an object
    or a function, which is truthy and which [+] turns into a string; so is
    a string that is stored already. *)
Definition increment (o : gmap jsstring count) (k : jsstring) : count :=
  match o !! k with
  | Some (Count n) => Count (n + 1)
  | Some Joined => Joined
  | None => if bool_decide (k ∈ Object_prototype) then Joined else Count 1
  end.

(** The two dictionaries built before the traversal.

    In [adj] the key [__proto__] stands for the prototype of the object:
    [adj["__proto__"] = []] makes the new array the prototype, and
    [adj["__proto__"]] reads it back. Under any other key that is not its
    own, [adj] reads [undefined] or something inherited: a function,
    [Object.prototype], or the length, an element (a string) or a method of
    the array that has become the prototype. None of these has a method
    [push] or [forEach], so that the call raises a [TypeError] as it does on
    [undefined]: the lookup is [None]. *)
Record tables := {
  incomingCount : gmap jsstring count;
  adj : gmap jsstring (list jsstring)
}.

Definition no_tables : tables := {| incomingCount := ∅; adj := ∅ |}.

(** [nodes.forEach(n => { incomingCount[n.id] = 0; adj[n.id] = []; })] *)
Definition init_node (t : tables) (n : ReasoningNode) : tables :=
  {| incomingCount := store (id n) (Count 0) (incomingCount t);
     adj := <[id n := []]> (adj t) |}.

Definition init_tables (nodes : list ReasoningNode) : tables :=
  foldl init_node no_tables nodes.

(** The body of [links.forEach]:
    [incomingCount[l.target] = (incomingCount[l.target] || 0) + 1;
     adj[l.source].push(l.target);]
    When [adj[l.source]] is [undefined] the call of [push] raises. *)
Definition add_link (t : tables) (l : ReasoningEdge) : option tables :=
  match adj t !! from l with
  | None => None
  | Some out =>
      Some {| incomingCount :=
                store (to l) (increment (incomingCount t) (to l))
                  (incomingCount t);
              adj := <[from l := out ++ [to l]]> (adj t) |}
  end.

Fixpoint add_links (t : tables) (links : list ReasoningEdge) : option tables :=
  match links with
  | [] => Some t
  | l :: rest =>
      match add_link t l with
      | None => None
      | Some t' => add_links t' rest
      end
  end.

(** [nodes.filter(n => incomingCount[n.id] === 0)
         .forEach(r => queue.push({id: r.id, depth: 0}))]
    For a node named [__proto__] the test reads the prototype, which is not
    [0]. *)
Definition roots (t : tables) (nodes : list ReasoningNode)
  : list (jsstring * Z) :=
  (λ r, (id r, 0)) <$>
    filter (λ n, incomingCount t !! id n = Some (Count 0)) nodes.

(** [if (queue.length === 0 && nodes.length > 0)
       queue.push({id: nodes[0].id, depth: 0});] *)
Definition seed_queue (t : tables) (nodes : list ReasoningNode)
  : list (jsstring * Z) :=
  match roots t nodes, nodes with
  | [], n0 :: _ => [(id n0, 0)]
  | q, _ => q
  end.

(** The state of the [while] loop. [assigned] is a history variable: the
    ids for which [levels[id] = depth] (line 503) has been executed, in
    order of execution, with or without effect on [levels]. Nothing reads
    it. *)
Record bfs_state := {
  queue : list (jsstring * Z);
  visited : gset jsstring;
  levels : gmap jsstring Z;
  assigned : list jsstring
}.

(** The loop, unrolled at most [fuel] times. *)
Fixpoint bfs (fuel : nat) (adjacency : gmap jsstring (list jsstring))
    (st : bfs_state) : outcome bfs_state :=
  match queue st with
  | [] => Done st
  | (i, depth) :: q =>
      match fuel with
      | O => OutOfFuel
      | S fuel' =>
          if decide (i ∈ visited st) then
            bfs fuel' adjacency
              {| queue := q; visited := visited st;
                 levels := levels st; assigned := assigned st |}
          else
            match adjacency !! i with
            | None => TypeError
            | Some children =>
                bfs fuel' adjacency
                  {| queue := q ++ ((λ child, (child, depth + 1)) <$> children);
                     visited := {[i]} ∪ visited st;
                     levels := store i depth (levels st);
                     assigned := assigned st ++ [i] |}
            end
      end
  end.

(** The number of children still to be pushed: the lengths of the adjacency
    lists of the ids not yet visited. *)
Definition pending (adjacency : gmap jsstring (list jsstring))
    (seen : gset jsstring) : nat :=
  sum_list ((λ kv : jsstring * list jsstring, length kv.2) <$>
            map_to_list (filter (λ kv, kv.1 ∉ seen) adjacency)).

(** Every turn of the loop removes a queue entry, and an entry is a seed or a
    child pushed when its parent was visited: the loop runs at most
    [loop_bound] times. *)
Definition loop_bound (adjacency : gmap jsstring (list jsstring))
    (st : bfs_state) : nat :=
  (length (queue st) + pending adjacency (visited st))%nat.

Definition initial_state (q : list (jsstring * Z)) : bfs_state :=
  {| queue := q; visited := ∅; levels := ∅; assigned := [] |}.

(** What [n.level] is set to: a level, or a member of [Object.prototype]
    (an object or a function). *)
Inductive level : Type :=
  | Level (d : Z)
  | Member.

(** [n.level = levels[n.id] || 0]: the level stored under the id; without
    one, the inherited member when the id names one, and otherwise [0]. *)
Definition level_of (lv : gmap jsstring Z) (n : ReasoningNode) : level :=
  match lv !! id n with
  | Some d => Level d
  | None => if bool_decide (id n ∈ Object_prototype) then Member else Level 0
  end.

(** The traversal from the tables on: seeding, the loop, and the final
    state. *)
Definition traverse (t : tables) (nodes : list ReasoningNode)
  : outcome bfs_state :=
  let st := initial_state (seed_queue t nodes) in
  bfs (loop_bound (adj t) st) (adj t) st.

(** Lines 479-505: both dictionaries, the queue and the loop. *)
Definition run_levels (nodes : list ReasoningNode)
    (edges : list ReasoningEdge) : outcome bfs_state :=
  match add_links (init_tables nodes) edges with
  | None => TypeError
  | Some t => traverse t nodes
  end.

(** Lines 479-515: the level written into every node. *)
Definition assign_levels (nodes : list ReasoningNode)
    (edges : list ReasoningEdge) : outcome (list (ReasoningNode * level)) :=
  match run_levels nodes edges with
  | Done st => Done ((λ n, (n, level_of (levels st) n)) <$> nodes)
  | TypeError => TypeError
  | OutOfFuel => OutOfFuel
  end.

(** An edge is dangling when one of its endpoints is not the id of a node. *)
Definition dangling (nodes : list ReasoningNode) (e : ReasoningEdge) : Prop :=
  from e ∉ (id <$> nodes) ∨ to e ∉ (id <$> nodes).

(** No edge is dangling. *)
Definition closed_graph (nodes : list ReasoningNode)
    (edges : list ReasoningEdge) : Prop :=
  ∀ e, e ∈ edges → from e ∈ (id <$> nodes) ∧ to e ∈ (id <$> nodes).

Definition in_degree (edges : list ReasoningEdge) (k : jsstring) : nat :=
  length (filter (λ e, to e = k) edges).

Definition out_degree (edges : list ReasoningEdge) (k : jsstring) : nat :=
  length (filter (λ e, from e = k) edges).

(** One step along an edge. *)
Definition edge_step (edges : list ReasoningEdge) (a b : jsstring) : Prop :=
  ∃ e, e ∈ edges ∧ from e = a ∧ to e = b.

(** The graph is one directed cycle through all its nodes: ids are distinct,
    no edge dangles, every node has exactly one incoming and one outgoing
    edge, and every node is reached from every other. *)
Definition single_cycle (nodes : list ReasoningNode)
    (edges : list ReasoningEdge) : Prop :=
  nodes ≠ [] ∧
  NoDup (id <$> nodes) ∧
  closed_graph nodes edges ∧
  (∀ k, k ∈ (id <$> nodes) → in_degree edges k = 1%nat ∧ out_degree edges k = 1%nat) ∧
  (∀ a b, a ∈ (id <$> nodes) → b ∈ (id <$> nodes) → rtc (edge_step edges) a b).

Definition node (s : string) : ReasoningNode := {| id := js s |}.
Definition edge (a b : string) : ReasoningEdge := {| from := js a; to := js b |}.

(** One step from an id to one of its children. *)
Definition adj_step (adjacency : gmap jsstring (list jsstring)) (a b : jsstring) : Prop :=
  ∃ children, adjacency !! a = Some children ∧ b ∈ children.

(** Invariant of the loop, for the seeds the queue started with. *)
Record bfs_inv (adjacency : gmap jsstring (list jsstring))
    (seeds : list jsstring) (st : bfs_state) : Prop := {
  inv_visited : ∀ k, k ∈ visited st ↔ k ∈ assigned st;
  inv_once : NoDup (assigned st);
  inv_levels : ∀ k, is_Some (levels st !! k) ↔ k ∈ visited st ∧ k ≠ proto;
  inv_level_nonneg : ∀ k d, levels st !! k = Some d → 0 ≤ d;
  inv_depth_nonneg : ∀ k d, (k, d) ∈ queue st → 0 ≤ d;
  inv_visited_nodes : ∀ k, k ∈ visited st → is_Some (adjacency !! k);
  inv_children : ∀ v children c,
    v ∈ visited st → adjacency !! v = Some children → c ∈ children →
    c ∈ visited st ∨ c ∈ (queue st).*1;
  inv_seeds : ∀ s, s ∈ seeds → s ∈ visited st ∨ s ∈ (queue st).*1;
  inv_reached : ∀ k, k ∈ visited st ∨ k ∈ (queue st).*1 →
    ∃ s, s ∈ seeds ∧ rtc (adj_step adjacency) s k
}.

(** A node that the queue is seeded with for having no incoming edge. *)
Definition root (edges : list ReasoningEdge) (n : ReasoningNode) : Prop :=
  in_degree edges (id n) = O ∧ id n ≠ proto.

#[global] Instance root_dec edges n : Decision (root edges n).
Proof. unfold root. apply _. Defined.

(** The seeds in terms of the edges: the nodes without incoming edge, but
    for one named [__proto__], in input order; the first node when there is
    none. *)
Definition seeds_of (nodes : list ReasoningNode) (edges : list ReasoningEdge)
  : list (jsstring * Z) :=
  match filter (root edges) nodes, nodes with
  | [], n0 :: _ => [(id n0, 0)]
  | rs, _ => (λ r, (id r, 0)) <$> rs
  end.

(** A dangling edge on which the pass raises: its source is not a node, or
    its target is not a node and its source is reached from a seed. *)
Definition fatal_dangling (nodes : list ReasoningNode)
    (edges : list ReasoningEdge) : Prop :=
  (∃ e, e ∈ edges ∧ from e ∉ (id <$> nodes)) ∨
  (∃ e s, e ∈ edges ∧ (to e ∉ (id <$> nodes)) ∧
          s ∈ (seeds_of nodes edges).*1 ∧ rtc (edge_step edges) s (from e)).

(** A cycle through a node named [__proto__]. *)
Definition proto_cycle_nodes : list ReasoningNode := [node "a"; node "__proto__"].
Definition proto_cycle_edges : list ReasoningEdge :=
  [edge "a" "__proto__"; edge "__proto__" "a"].

(** A cycle through three nodes. *)
Definition triangle_nodes : list ReasoningNode := [node "n1"; node "n2"; node "n3"].
Definition triangle_edges : list ReasoningEdge :=
  [edge "n1" "n2"; edge "n2" "n3"; edge "n3" "n1"].

End Levels.

(** ** The step-correlation resolver: handleGraphNodeClick *)

Module Resolver.

(** Of a step only [step_id] is read. *)
Record StudentStepAnalysis := { step_id : jsstring }.

(** The Number values that occur: integers, and [Infinity] for a digit run
    beyond the range of binary64. *)
Inductive number : Type :=
  | Finite (z : Z)
  | Infinity.

Definition number_eqb (a b : number) : bool :=
  match a, b with
  | Finite x, Finite y => x =? y
  | Infinity, Infinity => true
  | _, _ => false
  end.

(** [\d] *)
Definition is_digit (c : N) : bool := ((48 <=? c) && (c <=? 57))%N.

Fixpoint digit_run (s : jsstring) : jsstring :=
  match s with
  | c :: r => if is_digit c then c :: digit_run r else []
  | [] => []
  end.

(** [str.match(/\d+/)]: the leftmost, longest run of digits. *)
Fixpoint first_digits (s : jsstring) : option jsstring :=
  match s with
  | [] => None
  | c :: r => if is_digit c then Some (c :: digit_run r) else first_digits r
  end.

Definition decimal_value (ds : jsstring) : Z :=
  foldl (λ acc c, 10 * acc + (Z.of_N c - 48)) 0 ds.

(** The binary64 value nearest to a non-negative integer, ties to even.
    Integers below [2^53] are exact. (For more than 20 significant digits
    ECMAScript leaves the precision of [parseInt] to the engine; this is the
    correctly rounded conversion.) *)
Definition to_binary64 (z : Z) : number :=
  if z <? 2 ^ 53 then Finite z
  else
    let e := Z.log2 z - 52 in
    let q := z / 2 ^ e in
    let r := z mod 2 ^ e in
    let half := 2 ^ (e - 1) in
    let q' := if (half <? r) || ((r =? half) && Z.odd q) then q + 1 else q in
    let v := q' * 2 ^ e in
    if 2 ^ 1024 <=? v then Infinity else Finite v.

(** [parseInt(digits, 10)] on a non-empty run of digits. *)
Definition parseInt10 (ds : jsstring) : number := to_binary64 (decimal_value ds).

(** [const getNum = (str) => { const match = str.match(/\d+/);
      return match ? parseInt(match[0], 10) : -1; }] *)
Definition getNum (str : jsstring) : number :=
  match first_digits str with
  | Some ds => parseInt10 ds
  | None => Finite (-1)
  end.

(** [Array.prototype.findIndex], with [-1] for no element. *)
Fixpoint findIndex_from {A : Type} (i : Z) (p : A → bool) (l : list A) : Z :=
  match l with
  | [] => -1
  | x :: r => if p x then i else findIndex_from (i + 1) p r
  end.

Definition findIndex {A : Type} (p : A → bool) (l : list A) : Z :=
  findIndex_from 0 p l.

(** [s => getNum(s.step_id) === nodeIdNum] *)
Definition same_number (nid : jsstring) (s : StudentStepAnalysis) : bool :=
  number_eqb (getNum (step_id s)) (getNum nid).

(** [s => s.step_id === node.id] *)
Definition same_id (nid : jsstring) (s : StudentStepAnalysis) : bool :=
  bool_decide (step_id s = nid).

(** Rule 1: [findIndex(s => getNum(s.step_id) === nodeIdNum)]. *)
Definition by_number (steps : list StudentStepAnalysis) (nid : jsstring) : Z :=
  findIndex (same_number nid) steps.

(** Rule 2: [findIndex(s => s.step_id === node.id)]. *)
Definition by_exact_id (steps : list StudentStepAnalysis) (nid : jsstring) : Z :=
  findIndex (same_id nid) steps.

(** Rule 3: [nodeIdNum > 0 && nodeIdNum <= student_analysis.length], then
    [nodeIdNum - 1]; otherwise the index stays [-1]. *)
Definition by_position (steps : list StudentStepAnalysis) (nid : jsstring) : Z :=
  match getNum nid with
  | Finite n => if (0 <? n) && (n <=? Z.of_nat (length steps)) then n - 1 else -1
  | Infinity => -1
  end.

(** Lines 1295-1313: the value of [index] after the three rules. *)
Definition resolve_index (steps : list StudentStepAnalysis) (nid : jsstring) : Z :=
  let index := by_number steps nid in
  let index := if index =? -1 then by_exact_id steps nid else index in
  let index := if index =? -1 then by_position steps nid else index in
  index.

(** The handler, as the value it passes to [setFocusedStepIndex]; [None] is
    [null]. The first argument is [result?.parsedData?.student_analysis]
    ([None] when it is missing), the second is [node.id] ([None] when the
    node or its id is missing, as for the empty object sent by a click on
    the background). *)
Definition handleGraphNodeClick (student_analysis : option (list StudentStepAnalysis))
    (node_id : option jsstring) : option Z :=
  match node_id with
  | None | Some [] => None
  | Some nid =>
      match student_analysis with
      | None => None
      | Some steps =>
          let index := resolve_index steps nid in
          if index =? -1 then None else Some index
      end
  end.



Definition step (s : string) : StudentStepAnalysis := {| step_id := js s |}.

(** [i] is the first index of [l] whose element satisfies [p]. *)
Definition first_index {A : Type} (p : A → bool) (l : list A) (i : nat) : Prop :=
  (∃ x, l !! i = Some x ∧ p x = true) ∧
  (∀ j y, (j < i)%nat → l !! j = Some y → p y = false).

(** The string has no digit: [/\d+/] does not match. *)
Definition no_digits (s : jsstring) : Prop := first_digits s = None.


(** The step list of the prompt: step1, step2, step3. *)
Definition three_steps : list StudentStepAnalysis :=
  [step "step1"; step "step2"; step "step3"].

End Resolver.

(** ** JSON.parse *)

Module Json.

(** A parsed value. A number is kept as its literal (equal literals denote
    the same Number); an object is kept as its members in source order. Two
    results that are equal here are deep-equal values. *)
#[warnings="-register-all"] Inductive json : Type :=
  | JNull
  | JBool (b : bool)
  | JNumber (literal : jsstring)
  | JString (s : jsstring)
  | JArray (items : list json)
  | JObject (members : list (jsstring * json)).

Definition quote : N := 34.
Definition backslash : N := 92.
Definition lbrace : N := 123.
Definition rbrace : N := 125.
Definition lbracket : N := 91.
Definition rbracket : N := 93.
Definition colon : N := 58.
Definition comma : N := 44.

(** JSON white space: tab, line feed, carriage return, space. *)
Definition json_ws (c : N) : bool :=
  ((c =? 9) || (c =? 10) || (c =? 13) || (c =? 32))%N.

Fixpoint skip_ws (s : jsstring) : jsstring :=
  match s with
  | c :: r => if json_ws c then skip_ws r else s
  | [] => []
  end.

(** [after_prefix p s] is what follows [p] in [s], when [s] starts with [p]. *)
Fixpoint after_prefix (p s : jsstring) : option jsstring :=
  match p, s with
  | [], _ => Some s
  | a :: p', b :: s' => if (a =? b)%N then after_prefix p' s' else None
  | _ :: _, [] => None
  end.

Definition hex_value (c : N) : option N :=
  if ((48 <=? c) && (c <=? 57))%N then Some (c - 48)%N
  else if ((65 <=? c) && (c <=? 70))%N then Some (c - 55)%N
  else if ((97 <=? c) && (c <=? 102))%N then Some (c - 87)%N
  else None.

(** The character named by a one-letter escape. *)
Definition simple_escape (e : N) : option N :=
  if (e =? 34)%N then Some 34%N
  else if (e =? 92)%N then Some 92%N
  else if (e =? 47)%N then Some 47%N
  else if (e =? 98)%N then Some 8%N
  else if (e =? 102)%N then Some 12%N
  else if (e =? 110)%N then Some 10%N
  else if (e =? 114)%N then Some 13%N
  else if (e =? 116)%N then Some 9%N
  else None.

(** The rest of a string literal, after its opening quote: the characters
    denoted, and the text after the closing quote. *)
Fixpoint parse_string (s : jsstring) : option (jsstring * jsstring) :=
  match s with
  | [] => None
  | c :: r =>
      if (c =? quote)%N then Some ([], r)
      else if (c =? backslash)%N then
        match r with
        | [] => None
        | e :: r1 =>
            match simple_escape e with
            | Some x =>
                match parse_string r1 with
                | Some (str, rest) => Some (x :: str, rest)
                | None => None
                end
            | None =>
                if (e =? 117)%N then
                  match r1 with
                  | h1 :: h2 :: h3 :: h4 :: r2 =>
                      match hex_value h1, hex_value h2, hex_value h3, hex_value h4 with
                      | Some a, Some b, Some c', Some d =>
                          match parse_string r2 with
                          | Some (str, rest) =>
                              Some ((((a * 16 + b) * 16 + c') * 16 + d)%N :: str, rest)
                          | None => None
                          end
                      | _, _, _, _ => None
                      end
                  | _ => None
                  end
                else None
            end
        end
      else if (c <? 32)%N then None
      else
        match parse_string r with
        | Some (str, rest) => Some (c :: str, rest)
        | None => None
        end
  end.

Definition json_digit (c : N) : bool := ((48 <=? c) && (c <=? 57))%N.

(** The longest run of digits at the head, and what follows it. *)
Fixpoint span_digits (s : jsstring) : jsstring * jsstring :=
  match s with
  | c :: r =>
      if json_digit c then let '(ds, rest) := span_digits r in (c :: ds, rest)
      else ([], s)
  | [] => ([], [])
  end.

(** [0], or a non-zero digit followed by digits. *)
Definition parse_int_part (s : jsstring) : option (jsstring * jsstring) :=
  match s with
  | c :: r =>
      if (c =? 48)%N then Some ([c], r)
      else if json_digit c then
        let '(ds, rest) := span_digits r in Some (c :: ds, rest)
      else None
  | [] => None
  end.

(** An optional fraction: a dot and at least one digit. *)
Definition parse_frac (s : jsstring) : option (jsstring * jsstring) :=
  match s with
  | c :: r =>
      if (c =? 46)%N then
        match span_digits r with
        | ([], _) => None
        | (ds, rest) => Some (c :: ds, rest)
        end
      else Some ([], s)
  | [] => Some ([], [])
  end.

(** An optional exponent: [e] or [E], an optional sign, at least one digit. *)
Definition parse_exp (s : jsstring) : option (jsstring * jsstring) :=
  match s with
  | c :: r =>
      if ((c =? 101) || (c =? 69))%N then
        let '(sign, r1) :=
          match r with
          | c2 :: r2 => if ((c2 =? 43) || (c2 =? 45))%N then ([c2], r2) else ([], r)
          | [] => ([], r)
          end in
        match span_digits r1 with
        | ([], _) => None
        | (ds, rest) => Some (c :: sign ++ ds, rest)
        end
      else Some ([], s)
  | [] => Some ([], [])
  end.

(** A number literal and what follows it. *)
Definition parse_number (s : jsstring) : option (jsstring * jsstring) :=
  let '(sign, s1) :=
    match s with
    | c :: r => if (c =? 45)%N then ([c], r) else ([], s)
    | [] => ([], s)
    end in
  '(i, s2) ← parse_int_part s1;
  '(f, s3) ← parse_frac s2;
  '(e, s4) ← parse_exp s3;
  Some (sign ++ i ++ f ++ e, s4).

(** A value at the head of [s] (no white space before it), and what follows
    it. [fuel] bounds the depth of the calls; [parse_fuel_enough] shows that
    the length of the text is enough. *)
Fixpoint parse_value (fuel : nat) (s : jsstring) {struct fuel}
  : option (json * jsstring) :=
  match fuel with
  | O => None
  | S f =>
      match s with
      | [] => None
      | c :: r =>
          if (c =? lbrace)%N then
            match skip_ws r with
            | c' :: r' =>
                if (c' =? rbrace)%N then Some (JObject [], r')
                else
                  match parse_members f (c' :: r') with
                  | Some (ms, rest) => Some (JObject ms, rest)
                  | None => None
                  end
            | [] => None
            end
          else if (c =? lbracket)%N then
            match skip_ws r with
            | c' :: r' =>
                if (c' =? rbracket)%N then Some (JArray [], r')
                else
                  match parse_elements f (c' :: r') with
                  | Some (vs, rest) => Some (JArray vs, rest)
                  | None => None
                  end
            | [] => None
            end
          else if (c =? quote)%N then
            match parse_string r with
            | Some (str, rest) => Some (JString str, rest)
            | None => None
            end
          else
            match after_prefix (js "true") s with
            | Some rest => Some (JBool true, rest)
            | None =>
            match after_prefix (js "false") s with
            | Some rest => Some (JBool false, rest)
            | None =>
            match after_prefix (js "null") s with
            | Some rest => Some (JNull, rest)
            | None =>
            match parse_number s with
            | Some (lit, rest) => Some (JNumber lit, rest)
            | None => None
            end end end end
      end
  end

(** The members of an object from the quote of a key on, up to and
    including the closing brace. *)
with parse_members (fuel : nat) (s : jsstring) {struct fuel}
  : option (list (jsstring * json) * jsstring) :=
  match fuel with
  | O => None
  | S f =>
      match s with
      | [] => None
      | c :: r =>
          if (c =? quote)%N then
            match parse_string r with
            | None => None
            | Some (k, r1) =>
                match skip_ws r1 with
                | [] => None
                | c2 :: r2 =>
                    if (c2 =? colon)%N then
                      match parse_value f (skip_ws r2) with
                      | None => None
                      | Some (v, r3) =>
                          match skip_ws r3 with
                          | [] => None
                          | c4 :: r4 =>
                              if (c4 =? comma)%N then
                                match parse_members f (skip_ws r4) with
                                | Some (ms, r5) => Some ((k, v) :: ms, r5)
                                | None => None
                                end
                              else if (c4 =? rbrace)%N then Some ([(k, v)], r4)
                              else None
                          end
                      end
                    else None
                end
            end
          else None
      end
  end

(** The elements of an array from the first one on, up to and including the
    closing bracket. *)
with parse_elements (fuel : nat) (s : jsstring) {struct fuel}
  : option (list json * jsstring) :=
  match fuel with
  | O => None
  | S f =>
      match parse_value f s with
      | None => None
      | Some (v, r1) =>
          match skip_ws r1 with
          | [] => None
          | c :: r2 =>
              if (c =? comma)%N then
                match parse_elements f (skip_ws r2) with
                | Some (vs, r3) => Some (v :: vs, r3)
                | None => None
                end
              else if (c =? rbracket)%N then Some ([v], r2)
              else None
          end
      end
  end.

(** [JSON.parse(text)]: one value with white space around it; [None] stands
    for the [SyntaxError]. *)
Definition JSON_parse (text : jsstring) : option json :=
  match parse_value (S (length text)) (skip_ws text) with
  | Some (v, rest) =>
      match skip_ws rest with
      | [] => Some v
      | _ :: _ => None
      end
  | None => None
  end.

End Json.

(** ** extractJson *)

Module Extractor.

Import Json.

(** [\s] of regular expressions, which is also what [trim] removes. *)
Definition is_space (c : N) : bool :=
  (((9 <=? c) && (c <=? 13)) || (c =? 32) || (c =? 160) || (c =? 5760)
   || ((8192 <=? c) && (c <=? 8202)) || (c =? 8232) || (c =? 8233)
   || (c =? 8239) || (c =? 8287) || (c =? 12288) || (c =? 65279))%N.

Fixpoint drop_spaces (s : jsstring) : jsstring :=
  match s with
  | c :: r => if is_space c then drop_spaces r else s
  | [] => []
  end.

(** [.trim()] *)
Definition trim (s : jsstring) : jsstring :=
  rev (drop_spaces (rev (drop_spaces s))).

(** Three backticks, and three backticks followed by [json]. *)
Definition fence : jsstring := js "```".
Definition fence_json : jsstring := js "```json".

(** [s.replace(/<marker>\s*/g, '')]: scanning from the left, every
    occurrence of the marker is deleted together with the white space after
    it, and the scan goes on behind what was deleted. [fuel] bounds the
    number of steps; the length of the text is enough ([delete_all_fuel]). *)
Fixpoint delete_all (fuel : nat) (marker s : jsstring) : jsstring :=
  match fuel with
  | O => []
  | S f =>
      match s with
      | [] => []
      | c :: r =>
          match after_prefix marker s with
          | Some rest => delete_all f marker (drop_spaces rest)
          | None => c :: delete_all f marker r
          end
      end
  end.

Definition delete_marker (marker s : jsstring) : jsstring :=
  delete_all (length s) marker s.

(** [text.replace(/```json\s*/g, '').replace(/```\s*/g, '').trim()] *)
Definition clean (text : jsstring) : jsstring :=
  trim (delete_marker fence (delete_marker fence_json text)).

(** [s.indexOf(c)]; [None] stands for [-1]. *)
Fixpoint indexOf (c : N) (s : jsstring) : option nat :=
  match s with
  | [] => None
  | x :: r => if (x =? c)%N then Some O else S <$> indexOf c r
  end.

(** [s.substring(i, j)] for [i <= j]. *)
Definition substring (i j : nat) (s : jsstring) : jsstring :=
  take (j - i) (drop i s).

(** The variables of the scanning loop. *)
Record scan_state := {
  braceCount : Z;
  inString : bool;
  escaped : bool
}.

Definition scan_start : scan_state :=
  {| braceCount := 0; inString := false; escaped := false |}.

(** One turn of the loop body on the character [c]: the variables after it,
    and whether the loop is left ([endIndex = i; break]). *)
Definition scan_char (st : scan_state) (c : N) : scan_state * bool :=
  if inString st then
    if escaped st then
      ({| braceCount := braceCount st; inString := true; escaped := false |}, false)
    else if (c =? backslash)%N then
      ({| braceCount := braceCount st; inString := true; escaped := true |}, false)
    else if (c =? quote)%N then
      ({| braceCount := braceCount st; inString := false; escaped := escaped st |}, false)
    else (st, false)
  else
    if (c =? lbrace)%N then
      ({| braceCount := braceCount st + 1; inString := false; escaped := escaped st |}, false)
    else if (c =? rbrace)%N then
      ({| braceCount := braceCount st - 1; inString := false; escaped := escaped st |},
       braceCount st - 1 =? 0)
    else if (c =? quote)%N then
      ({| braceCount := braceCount st; inString := true; escaped := escaped st |}, false)
    else (st, false).

(** The loop from index [i] on, over the characters [s] that remain:
    [endIndex], or [None] for [-1]. *)
Fixpoint scan_from (st : scan_state) (i : nat) (s : jsstring) : option nat :=
  match s with
  | [] => None
  | c :: r =>
      let '(st', stop) := scan_char st c in
      if stop then Some i else scan_from st' (S i) r
  end.

(** Lines 279-307. *)
Definition find_end (cleanText : jsstring) (startIndex : nat) : option nat :=
  scan_from scan_start startIndex (drop startIndex cleanText).

(** The index of the last occurrence of [c]. *)
Fixpoint lastIndexOf (c : N) (s : jsstring) : option nat :=
  match s with
  | [] => None
  | x :: r =>
      match lastIndexOf c r with
      | Some j => Some (S j)
      | None => if (x =? c)%N then Some O else None
      end
  end.

(** [s.match(/\{[\s\S]*\}/)]: from the first opening brace to the last
    closing brace behind it. *)
Definition match_braces (s : jsstring) : option jsstring :=
  match indexOf lbrace s with
  | None => None
  | Some i =>
      match lastIndexOf rbrace (drop (S i) s) with
      | None => None
      | Some j => Some (substring i (i + j + 2) s)
      end
  end.

(** The four parse attempts, each as the value it would return. *)
Definition attempt_strict (text : jsstring) : option json := JSON_parse text.

Definition attempt_cleaned (text : jsstring) : option json :=
  JSON_parse (clean text).

Definition attempt_scan (text : jsstring) : option json :=
  let cleanText := clean text in
  match indexOf lbrace cleanText with
  | None => None
  | Some startIndex =>
      match find_end cleanText startIndex with
      | None => None
      | Some endIndex =>
          JSON_parse (substring startIndex (endIndex + 1) cleanText)
      end
  end.

Definition attempt_regex (text : jsstring) : option json :=
  match match_braces (clean text) with
  | None => None
  | Some m => JSON_parse m
  end.

(** [extractJson]; the result [null] is [JNull]. *)
Definition extractJson (text : jsstring) : json :=
  match JSON_parse text with
  | Some v => v
  | None =>
      let cleanText := clean text in
      match JSON_parse cleanText with
      | Some v => v
      | None =>
          match indexOf lbrace cleanText with
          | None => JNull
          | Some startIndex =>
              let endIndex := find_end cleanText startIndex in
              let candidate :=
                match endIndex with
                | Some e => JSON_parse (substring startIndex (e + 1) cleanText)
                | None => None
                end in
              match candidate with
              | Some v => v
              | None =>
                  match match_braces cleanText with
                  | Some m =>
                      match JSON_parse m with
                      | Some v => v
                      | None => JNull
                      end
                  | None => JNull
                  end
              end
          end
      end
  end.

(** *** Notions used to state the properties of the extractor *)

(** [p] occurs in [s] as a run of consecutive characters. *)
Definition occurs (p s : jsstring) : Prop := ∃ a b, s = a ++ p ++ b.

(** [obj] is the text of a JSON object with value [v]: it runs from an
    opening brace to a closing brace and [JSON.parse] accepts it. *)
Definition object_text (obj : jsstring) (v : json) : Prop :=
  head obj = Some lbrace ∧ last obj = Some rbrace ∧ JSON_parse obj = Some v.

(** The loop body run over all of [s] without leaving the loop: the
    variables afterwards; [None] when the loop is left inside [s]. *)
Fixpoint scan_over (st : scan_state) (s : jsstring) : option scan_state :=
  match s with
  | [] => Some st
  | c :: r =>
      let '(st', stop) := scan_char st c in
      if stop then None else scan_over st' r
  end.

(** The variables outside and inside a string literal at brace depth [d]. *)
Definition outside (d : Z) : scan_state :=
  {| braceCount := d; inString := false; escaped := false |}.

Definition inside (d : Z) : scan_state :=
  {| braceCount := d; inString := true; escaped := false |}.

(** The first attempt that succeeds. *)
Fixpoint first_success (attempts : list (option json)) : option json :=
  match attempts with
  | [] => None
  | Some v :: _ => Some v
  | None :: rest => first_success rest
  end.

(** A character that the scanning loop ignores outside a string. *)
Definition plain (c : N) : bool :=
  negb (c =? quote)%N && negb (c =? lbrace)%N && negb (c =? rbrace)%N.

(** A character of a number literal. *)
Definition number_char (c : N) : bool :=
  json_digit c || (c =? 43)%N || (c =? 45)%N || (c =? 46)%N || (c =? 69)%N || (c =? 101)%N.

(** Outside a string and at depth at least 1, the text [k] is scanned
    without leaving the loop and leaves the variables as they were. *)
Definition scan_ok (k : jsstring) : Prop :=
  ∀ d, 1 ≤ d → scan_over (outside d) k = Some (outside d).

(** An object with braces inside a string value. *)
Definition braces_in_string : jsstring := jq "{'a': 'x{y}z'}".



End Extractor.

(** ** The levels as distances *)

Module Depths.

Import Levels.

(** [d] is the length of a shortest walk along [step] from one of [seeds] to
    [k]. *)
Definition distance (step : relation jsstring) (seeds : list jsstring)
    (k : jsstring) (d : Z) : Prop :=
  0 ≤ d ∧
  (∃ s, s ∈ seeds ∧ nsteps step (Z.to_nat d) s k) ∧
  (∀ s n, s ∈ seeds → nsteps step n s k → d ≤ Z.of_nat n).

(** Invariant of the loop about depths. [depths] is a ghost dictionary: the
    depth with which each visited id was taken from the queue, of which
    [levels] has all entries but that of [__proto__]. The queue holds the
    entries of depth [front] before those of depth [front + 1], no depth
    exceeds [front], every depth is the length of a walk from a seed, and what
    a visited id points to is visited or waits in the queue, at most one
    deeper. *)
Record bfs_dist (adjacency : gmap jsstring (list jsstring))
    (seeds : list jsstring) (depths : gmap jsstring Z) (st : bfs_state)
  : Prop := {
  dist_own : ∀ k, levels st !! k = if decide (k = proto) then None else depths !! k;
  dist_levels : ∀ k, is_Some (depths !! k) ↔ k ∈ visited st;
  dist_front : ∃ front q1 q2,
    0 ≤ front ∧ queue st = q1 ++ q2 ∧
    Forall (λ e : jsstring * Z, e.2 = front) q1 ∧
    Forall (λ e : jsstring * Z, e.2 = front + 1) q2 ∧
    ∀ k d, depths !! k = Some d → d ≤ front;
  dist_queue : ∀ k d, (k, d) ∈ queue st →
    0 ≤ d ∧ ∃ s, s ∈ seeds ∧ nsteps (adj_step adjacency) (Z.to_nat d) s k;
  dist_level : ∀ k d, depths !! k = Some d →
    0 ≤ d ∧ ∃ s, s ∈ seeds ∧ nsteps (adj_step adjacency) (Z.to_nat d) s k;
  dist_seed : ∀ s, s ∈ seeds →
    (∃ d, depths !! s = Some d ∧ d ≤ 0) ∨ (s, 0) ∈ queue st;
  dist_child : ∀ v dv children c,
    depths !! v = Some dv → adjacency !! v = Some children → c ∈ children →
    (∃ dc, depths !! c = Some dc ∧ dc ≤ dv + 1) ∨
    (∃ d', (c, d') ∈ queue st ∧ d' ≤ dv + 1)
}.

(** [Math.max(...Object.values(levels), 1)] *)
Definition maxLevel (lv : gmap jsstring Z) : Z :=
  foldr Z.max 1 (map_to_list lv).*2.

(** No walk of one or more edges leads from an id back to it. *)
Definition acyclic (edges : list ReasoningEdge) : Prop :=
  ∀ k, ¬ tc (edge_step edges) k k.

(** The number of entries of all adjacency lists. *)
Definition entries (m : gmap jsstring (list jsstring)) : nat :=
  sum_list ((λ kv : jsstring * list jsstring, length kv.2) <$> map_to_list m).

(** A graph with two walks of different lengths to the same node, and a node
    that no seed reaches. *)
Definition shortcut_nodes : list ReasoningNode :=
  [node "a"; node "b"; node "c"; node "d"; node "e"].
Definition shortcut_edges : list ReasoningEdge :=
  [edge "a" "b"; edge "b" "c"; edge "a" "c"; edge "c" "d"; edge "e" "e"].

(** An acyclic graph with two roots. *)
Definition forest_nodes : list ReasoningNode :=
  [node "given"; node "law"; node "force"; node "answer"].
Definition forest_edges : list ReasoningEdge :=
  [edge "given" "force"; edge "law" "force"; edge "force" "answer";
   edge "given" "answer"].

(** The place of a node of that graph in an order along the edges. *)
Definition forest_rank (k : jsstring) : nat :=
  if bool_decide (k = js "answer") then 2
  else if bool_decide (k = js "force") then 1 else 0.

End Depths.

(** ** The callers of extractJson: analyzeProblem and askFollowUpQuestion *)

Module Service.

Import Json Extractor.

(** The digits of a number literal without sign, dot and exponent, and the
    power of ten they are to be multiplied with. *)
Definition literal_parts (lit : jsstring) : jsstring * Z :=
  let unsigned :=
    match lit with
    | c :: r => if (c =? 45)%N then r else lit
    | [] => []
    end in
  let '(int_part, s2) := span_digits unsigned in
  let '(frac_part, s3) :=
    match s2 with
    | c :: r => if (c =? 46)%N then span_digits r else ([], s2)
    | [] => ([], [])
    end in
  let exponent :=
    match s3 with
    | c :: r =>
        if ((c =? 101) || (c =? 69))%N then
          match r with
          | c2 :: r2 =>
              if (c2 =? 45)%N then - Resolver.decimal_value (span_digits r2).1
              else if (c2 =? 43)%N then Resolver.decimal_value (span_digits r2).1
              else Resolver.decimal_value (span_digits r).1
          | [] => 0
          end
        else 0
    | [] => 0
    end in
  (int_part ++ frac_part, exponent - Z.of_nat (length frac_part)).

(** The Number of the literal is [0] or [-0]: all its digits are zero, or its
    value is at most [2^-1075], half the least positive binary64, and is
    rounded to zero. *)
Definition zero_literal (lit : jsstring) : bool :=
  let '(digits, e) := literal_parts lit in
  let m := Resolver.decimal_value digits in
  (m =? 0) || ((e <? 0) && (m * 2 ^ 1075 <=? 10 ^ (- e))).

(** [ToBoolean] on a parsed value. *)
Definition truthy (v : json) : bool :=
  match v with
  | JNull => false
  | JBool b => b
  | JNumber lit => negb (zero_literal lit)
  | JString s => negb (bool_decide (s = []))
  | JArray _ | JObject _ => true
  end.

(** The member of an object that a key names: of members with the same key
    [JSON.parse] keeps the last. *)
Fixpoint member (key : jsstring) (members : list (jsstring * json)) : option json :=
  match members with
  | [] => None
  | (k, v) :: rest =>
      match member key rest with
      | Some v' => Some v'
      | None => if bool_decide (k = key) then Some v else None
      end
  end.

(** [json.quiz] and [json.text] on a parsed value that is neither [null] nor
    [undefined]; [None] is [undefined]. Arrays, strings, numbers and
    booleans have no property of these names. *)
Definition property (key : jsstring) (v : json) : option json :=
  match v with
  | JObject members => member key members
  | _ => None
  end.

Definition truthy_property (key : jsstring) (v : json) : bool :=
  match property key v with
  | Some x => truthy x
  | None => false
  end.

(** Lines 448-466 of [analyzeProblem], from the text of the response on
    ([None] when [response.text] is [undefined]): the error thrown, or the
    fields [parsedData] and [rawText] of the result. *)
Inductive analysis : Type :=
  | AnalysisError (message : jsstring)
  | Analysis (parsedData : json) (rawText : jsstring).

Definition analyzeProblem_result (response_text : option jsstring) : analysis :=
  let text := default [] response_text in
  let parsedData := extractJson text in
  if truthy parsedData then Analysis parsedData text
  else AnalysisError (js "Failed to parse analysis response.").

(** What [askFollowUpQuestion] returns. The content is a parsed value (a
    string is [JString]) or [JSON.stringify] of one; the built-in is not
    evaluated. *)
Inductive reply_type : Type := TypeText | TypeQuiz.

Inductive reply_content : Type :=
  | Content (v : json)
  | Stringified (v : json).

Record reply := { type : reply_type; content : reply_content }.

(** Lines 515-547, from the response on: [None] when the request raised (the
    [catch] branch), otherwise [response.text]. *)
Definition askFollowUpQuestion_reply (response : option (option jsstring)) : reply :=
  match response with
  | None =>
      {| type := TypeText;
         content := Content (JString (js "Sorry, I couldn't process that follow-up question.")) |}
  | Some response_text =>
      let text := default [] response_text in
      let json := extractJson text in
      if truthy json && truthy_property (js "quiz") json then
        {| type := TypeQuiz; content := Content (default JNull (property (js "quiz") json)) |}
      else if truthy json && truthy_property (js "text") json then
        {| type := TypeText; content := Content (default JNull (property (js "text") json)) |}
      else
        {| type := TypeText;
           content := match json with
                      | JString _ => Content json
                      | _ => Stringified json
                      end |}
  end.

(** [fileToGenerativePart], by the type of the file alone: the part is sent
    with the type of the file, or the file is drawn on a canvas and sent as
    JPEG, or the function throws. *)
Definition SUPPORTED_MIME_TYPES : list jsstring :=
  [js "image/png"; js "image/jpeg"; js "image/webp"; js "image/heic"; js "image/heif";
   js "application/pdf";
   js "application/vnd.openxmlformats-officedocument.presentationml.presentation";
   js "application/vnd.ms-powerpoint"].

Inductive part_route : Type :=
  | Inline (mimeType : jsstring)
  | Redrawn (mimeType : jsstring)
  | Unsupported.

Definition startsWith (p s : jsstring) : bool :=
  match after_prefix p s with
  | Some _ => true
  | None => false
  end.

Definition fileToGenerativePart_route (file_type : jsstring) : part_route :=
  if bool_decide (file_type ∈ SUPPORTED_MIME_TYPES) then Inline file_type
  else if startsWith (js "image/") file_type then Redrawn (js "image/jpeg")
  else Unsupported.

(** [s.split(',')] *)
Fixpoint split (sep : N) (s : jsstring) : list jsstring :=
  match s with
  | [] => [[]]
  | c :: r =>
      if (c =? sep)%N then [] :: split sep r
      else
        match split sep r with
        | piece :: pieces => (c :: piece) :: pieces
        | [] => [[c]]
        end
  end.

(** [dataUrl.split(',')[1]]; [None] is [undefined]. *)
Definition base64_of_data_url (dataUrl : jsstring) : option jsstring :=
  split comma dataUrl !! 1%nat.

End Service.

(** ** cleanMarkdownForSpeech *)

Module Speech.

Import Json.

(** [s.replace(/<pattern>/g, replacement)] for a pattern without
    metacharacters and a replacement without [$]: scanning from the left,
    every occurrence is replaced and the scan goes on behind it. [fuel]
    bounds the number of steps; the length of the text is enough
    ([replace_all_fuel]). *)
Fixpoint replace_all (fuel : nat) (pattern replacement s : jsstring) : jsstring :=
  match fuel with
  | O => []
  | S f =>
      match s with
      | [] => []
      | c :: r =>
          match after_prefix pattern s with
          | Some rest => replacement ++ replace_all f pattern replacement rest
          | None => c :: replace_all f pattern replacement r
          end
      end
  end.

Definition replace (pattern replacement s : jsstring) : jsstring :=
  replace_all (length s) pattern replacement s.

Definition dollar : N := 36.
Definition underscore : N := 95.

(** Lines 977-988; [None] is [null] or [undefined]. *)
Definition cleanMarkdownForSpeech (text : option jsstring) : jsstring :=
  match text with
  | None | Some [] => []
  | Some t =>
      replace (js "sqrt") (js "square root")
        (replace (js "frac") (js "fraction")
          (replace [underscore] (js " ")
            (replace [backslash] (js " ")
              (replace [dollar] []
                (replace [dollar; dollar] []
                  (replace (js "**") [] t))))))
  end.

End Speech.

(** ** The state of the application: revision list, experience, insights *)

Module Session.

Import Resolver.

(** A node of either graph, with what [UserInsights] reads of it. *)
Record GraphNode := { label : jsstring; type : jsstring }.

(** Of the parsed response, the nodes of its two graphs; [None] where the
    graph is missing. *)
Record DeepSlateResponse := {
  reasoning_graph : option (list GraphNode);
  misconception_graph : option (list GraphNode)
}.

Record AnalysisResult := {
  id : jsstring;
  parsedData : option DeepSlateResponse
}.

Record User := {
  name : jsstring;
  avatar : jsstring;
  xp : number;
  level : number;
  unlockedNodes : list jsstring;
  history : list AnalysisResult;
  revisionList : list AnalysisResult
}.

(** [handleMarkRevision]: the user after the call, for the current [user]
    and [result] ([None] is [null]). *)
Definition handleMarkRevision (user : option User) (result : option AnalysisResult)
  : option User :=
  match user, result with
  | Some u, Some r =>
      if existsb (λ item, bool_decide (id item = id r)) (revisionList u) then Some u
      else Some {| name := name u; avatar := avatar u; xp := xp u; level := level u;
                   unlockedNodes := unlockedNodes u; history := history u;
                   revisionList := r :: revisionList u |}
  | _, _ => user
  end.

(** *** The Numbers of the session

    The experience and the level are whole numbers, or [Infinity]; what is
    computed with them is rounded to binary64. *)

(** The binary64 number nearest to a whole number. (Nothing that is rounded
    below falls under the range of binary64: [-Infinity] does not arise.) *)
Definition binary64 (z : Z) : number :=
  if 0 <=? z then to_binary64 z
  else match to_binary64 (- z) with
       | Finite v => Finite (- v)
       | Infinity => Infinity
       end.

(** The quotient [n / d] of whole numbers [0 < n] and [0 < d], rounded to
    binary64 (to the nearest, ties to even; the quotients that occur are in
    the normal range): [(m, e)] stands for [m * 2^e], where [m] has 53 bits,
    or is [2^53] when the rounding carries. Before it is rounded the
    quotient lies between [2^k] and [2^(k+1)], for the [k] of the
    definition. *)
Definition nearest (n d : Z) : Z * Z :=
  let k := Z.log2 n - Z.log2 d
           - (if n * 2 ^ Z.log2 d <? d * 2 ^ Z.log2 n then 1 else 0) in
  let e := k - 52 in
  let num := if 0 <=? e then n else n * 2 ^ (- e) in
  let den := if 0 <=? e then d * 2 ^ e else d in
  let q := num / den in
  let r := num mod den in
  let m := if (den <? 2 * r) || ((2 * r =? den) && Z.odd q) then q + 1 else q in
  (m, e).

(** The whole numbers next to [m * 2^e], below and above. *)
Definition floor_scaled (m e : Z) : Z :=
  if 0 <=? e then m * 2 ^ e else m / 2 ^ (- e).

Definition ceil_scaled (m e : Z) : Z :=
  if 0 <=? e then m * 2 ^ e else - ((- m) / 2 ^ (- e)).

(** [Math.floor(a / 100)] for a whole number [a]. *)
Definition floor_hundredth (a : Z) : Z :=
  if a =? 0 then 0
  else if 0 <? a then let '(m, e) := nearest a 100 in floor_scaled m e
  else let '(m, e) := nearest (- a) 100 in - ceil_scaled m e.

(** Lines 1200-1206 of [handleAnalyze]: the user after an analysis [data]
    has arrived.
    [const newXP = (user.xp || 0) + 50;
     const newLevel = Math.floor(newXP / 100) + 1;] *)
Definition award (u : User) (data : AnalysisResult) : User :=
  let newXP :=
    match (if number_eqb (xp u) (Finite 0) then Finite 0 else xp u) with
    | Finite z => binary64 (z + 50)
    | Infinity => Infinity
    end in
  let newLevel :=
    match newXP with
    | Finite a => binary64 (floor_hundredth a + 1)
    | Infinity => Infinity
    end in
  {| name := name u; avatar := avatar u; xp := newXP; level := newLevel;
     unlockedNodes := unlockedNodes u; history := data :: history u;
     revisionList := revisionList u |}.

(** [h.parsedData?.misconception_graph?.nodes || []] *)
Definition misconception_nodes (h : AnalysisResult) : list GraphNode :=
  match parsedData h with
  | Some d => default [] (misconception_graph d)
  | None => []
  end.

(** [h.parsedData?.reasoning_graph?.nodes || []] *)
Definition reasoning_nodes (h : AnalysisResult) : list GraphNode :=
  match parsedData h with
  | Some d => default [] (reasoning_graph d)
  | None => []
  end.

(** [n => n.type === 'misconception'] *)
Definition is_misconception (n : GraphNode) : bool :=
  bool_decide (type n = js "misconception").

(** [h => !h.parsedData?.misconception_graph?.nodes.some(...)] *)
Definition without_misconception (h : AnalysisResult) : bool :=
  negb (existsb is_misconception (misconception_nodes h)).

Definition misconceptions (history : list AnalysisResult) : list jsstring :=
  take 3 (label <$> List.filter is_misconception (history ≫= misconception_nodes)).

Definition strengths (history : list AnalysisResult) : list jsstring :=
  take 3 (label <$> (List.filter without_misconception history ≫= reasoning_nodes)).

(** What [UserInsights] shows: [None] when it renders nothing, otherwise the
    strengths and the places to improve. *)
Definition UserInsights (history : list AnalysisResult)
  : option (list jsstring * list jsstring) :=
  match history with
  | [] => None
  | _ :: _ =>
      let displayWeaknesses :=
        match misconceptions history with
        | [] => [js "Chain Rule"; js "Edge Cases"]
        | ms => ms
        end in
      let displayStrengths :=
        match strengths history with
        | [] => [js "Logic Setup"; js "Basic Arithmetic"]
        | ss => ss
        end in
      Some (displayStrengths, displayWeaknesses)
  end.

End Session.

(** ** FlashcardDeck *)

Module Deck.

Record Flashcard := { front : jsstring; back : jsstring; concept : jsstring }.

(** [(prev + 1) % cards.length] *)
Definition handleNext (cards : list Flashcard) (prev : Z) : Z :=
  Z.rem (prev + 1) (Z.of_nat (length cards)).

(** [(prev - 1 + cards.length) % cards.length] *)
Definition handlePrev (cards : list Flashcard) (prev : Z) : Z :=
  Z.rem (prev - 1 + Z.of_nat (length cards)) (Z.of_nat (length cards)).

(** [cards[currentIndex]]; [None] is [undefined]. *)
Definition currentCard (cards : list Flashcard) (currentIndex : Z) : option Flashcard :=
  if currentIndex <? 0 then None else cards !! Z.to_nat currentIndex.

End Deck.

(** ** QuizMessage *)

Module Quiz.

Record QuizQuestion := { id : jsstring; question : jsstring; options : list jsstring }.

(** The state of the component. *)
Record quiz_state := { selections : gmap jsstring jsstring; submitted : bool }.

Definition quiz_start : quiz_state := {| selections := ∅; submitted := false |}.

(** [handleSelect] *)
Definition handleSelect (st : quiz_state) (qId option : jsstring) : quiz_state :=
  if submitted st then st
  else {| selections := <[qId := option]> (selections st); submitted := submitted st |}.

(** [q => selections[q.id]] as a condition: a string that is not empty. *)
Definition answered (st : quiz_state) (q : QuizQuestion) : bool :=
  match selections st !! id q with
  | Some (_ :: _) => true
  | _ => false
  end.

(** [content.questions.length > 0 && content.questions.every(...)] *)
Definition allAnswered (questions : list QuizQuestion) (st : quiz_state) : bool :=
  (0 <? Z.of_nat (length questions)) && forallb (answered st) questions.

End Quiz.

(** ** The rows of StepAnalysis *)

Module Table.

Import Resolver.

(** [steps.map((step, idx) => ... focusedStepIndex === idx ...)]: for every
    row whether it is shown as focused; [None] when the component renders
    nothing. *)
Definition focused_rows (steps : list StudentStepAnalysis) (focusedStepIndex : option Z)
  : option (list bool) :=
  match steps with
  | [] => None
  | _ :: _ =>
      Some (imap (λ idx _, bool_decide (focusedStepIndex = Some (Z.of_nat idx))) steps)
  end.

End Table.

(** ** The widths of the three panels *)

Module Panels.

(** [a > b] on Numbers. *)
Definition gt (a b : float) : bool := PrimFloat.ltb b a.

(** [newWidths[i]] where it is an operand of [+] or [-]: reading behind the
    end gives [undefined], and the sum or difference is then [NaN]. *)
Definition width_at (newWidths : list float) (i : nat) : float :=
  default PrimFloat.nan (newWidths !! i).

(** [newWidths[i] += d; newWidths[j] -= d] *)
Definition shift (newWidths : list float) (i j : nat) (d : float) : list float :=
  let widths1 := <[i := PrimFloat.add (width_at newWidths i) d]> newWidths in
  <[j := PrimFloat.sub (width_at widths1 j) d]> widths1.

(** [handleMouseMove] with the update it passes to [setWidths]: the widths
    after the event, from [isResizing.current] ([None] is [null]),
    [e.movementX], [window.innerWidth] and the widths before. *)
Definition handleMouseMove (isResizing : option Z) (movementX totalWidth : float)
    (prev : list float) : list float :=
  match isResizing with
  | None => prev
  | Some index =>
      let deltaPercentage :=
        PrimFloat.mul (PrimFloat.div movementX totalWidth) 100%float in
      if index =? 0 then
        if gt (PrimFloat.add (width_at prev 0) deltaPercentage) 10%float &&
           gt (PrimFloat.sub (width_at prev 1) deltaPercentage) 10%float
        then shift prev 0 1 deltaPercentage else prev
      else if index =? 1 then
        if gt (PrimFloat.add (width_at prev 1) deltaPercentage) 10%float &&
           gt (PrimFloat.sub (width_at prev 2) deltaPercentage) 10%float
        then shift prev 1 2 deltaPercentage else prev
      else prev
  end.

(** [useState([35, 30, 35])] *)
Definition initial_widths : list float := [35%float; 30%float; 35%float].

(** Every panel is wider than ten percent. *)
Definition wide (widths : list float) : Prop :=
  length widths = 3%nat ∧ ∀ w, w ∈ widths → gt w 10%float = true.

End Panels.

(** ** Proof scripts *)

(** Equations between concatenations. *)
Ltac solve_app := repeat (simpl; rewrite <- ?app_assoc); done.

(** Comparisons of characters as equations. *)
Ltac chars :=
  repeat match goal with
  | H : (_ =? _)%N = true |- _ => apply N.eqb_eq in H
  | H : (_ =? _)%N = false |- _ => apply N.eqb_neq in H
  | H : (_ <? _)%N = true |- _ => apply N.ltb_lt in H
  | H : (_ <? _)%N = false |- _ => apply N.ltb_ge in H
  | H : (_ <=? _)%N = true |- _ => apply N.leb_le in H
  | H : (_ <=? _)%N = false |- _ => apply N.leb_gt in H
  | H : _ && _ = true |- _ => apply andb_true_iff in H as [? ?]
  | H : _ || _ = false |- _ => apply orb_false_iff in H as [? ?]
  | H : _ || _ = true |- _ => apply orb_true_iff in H as [?|?]
  | H : _ && _ = false |- _ => apply andb_false_iff in H as [?|?]
  end.

(* ===================================================================== *)
(** * Part II: properties                                                *)
(* ===================================================================== *)

Import Levels Resolver Json Extractor.

(** ** The levelling pass *)

Section LevelsProofs.

Implicit Types (adjacency : gmap jsstring (list jsstring)) (seen : gset jsstring).
Implicit Types (nodes : list ReasoningNode) (edges : list ReasoningEdge) (t : tables).

Lemma sum_list_perm (l k : list nat) : l ≡ₚ k → sum_list l = sum_list k.
Proof. induction 1; simpl; lia. Qed.

(** Reading after an assignment. *)
Lemma lookup_store {A} (k k' : jsstring) (v : A) (o : gmap jsstring A) :
  store k v o !! k' = if decide (k' = k ∧ k ≠ proto) then Some v else o !! k'.
Proof.
  unfold store. destruct (decide (k = proto)) as [->|Hk].
  - rewrite decide_False; [done|]. by intros [_ ?].
  - destruct (decide (k' = k)) as [->|Hne].
    + by rewrite lookup_insert_eq, decide_True.
    + rewrite lookup_insert_ne by done. rewrite decide_False; [done|]. by intros [? _].
Qed.

Lemma lookup_store_proto {A} (k : jsstring) (v : A) (o : gmap jsstring A) :
  store k v o !! proto = o !! proto.
Proof.
  rewrite lookup_store. rewrite decide_False; [done|]. intros [<- ?]. done.
Qed.

Lemma pending_visit adjacency seen i children :
  i ∉ seen → adjacency !! i = Some children →
  (pending adjacency ({[i]} ∪ seen) + length children = pending adjacency seen)%nat.
Proof.
  intros Hi Hc. unfold pending.
  set (m := filter (λ kv : jsstring * list jsstring, kv.1 ∉ seen) adjacency).
  assert (Hm : m !! i = Some children).
  { unfold m. apply map_lookup_filter_Some. done. }
  assert (Hd : filter (λ kv : jsstring * list jsstring, kv.1 ∉ {[i]} ∪ seen) adjacency
               = delete i m).
  { apply map_eq. intros k. apply option_eq. intros x. unfold m.
    rewrite lookup_delete_Some, !map_lookup_filter_Some. simpl.
    rewrite elem_of_union, elem_of_singleton. split.
    - intros [Hk Hn]. split; [intros ->; apply Hn; by left|].
      split; [done|]. intros ?. apply Hn. by right.
    - intros (Hne & Hk & Hn). split; [done|]. intros [->|?]; done. }
  rewrite Hd.
  pose proof (map_to_list_delete m i children Hm) as Hp.
  rewrite <- (sum_list_perm _ _ (fmap_Permutation _ _ _ Hp)). simpl. apply Nat.add_comm.
Qed.

Lemma bfs_enough_fuel adjacency fuel st :
  (loop_bound adjacency st ≤ fuel)%nat → bfs fuel adjacency st ≠ OutOfFuel.
Proof.
  revert st. induction fuel as [|fuel IH]; intros st Hb.
  - unfold loop_bound in Hb. destruct st as [[|[i d] q] vis lv asg]; simpl in *; [done|lia].
  - destruct st as [[|[i d] q] vis lv asg]; simpl; [done|].
    unfold loop_bound in Hb. simpl in Hb.
    destruct (decide (i ∈ vis)).
    + apply IH. unfold loop_bound. simpl. lia.
    + destruct (adjacency !! i) as [children|] eqn:Hc; [|done].
      apply IH. unfold loop_bound. simpl.
      rewrite length_app, length_fmap.
      pose proof (pending_visit adjacency vis i children n Hc). lia.
Qed.

Lemma bfs_inv_initial adjacency (q : list (jsstring * Z)) :
  (∀ k d, (k, d) ∈ q → d = 0) →
  bfs_inv adjacency q.*1 (initial_state q).
Proof.
  intros Hq. split; simpl.
  - intros k. split; [intros Hk; by apply not_elem_of_empty in Hk | by inversion 1].
  - constructor.
  - intros k. rewrite lookup_empty. split; [by intros [? ?]|].
    intros [Hk _]. by apply not_elem_of_empty in Hk.
  - intros k d. by rewrite lookup_empty.
  - intros k d Hk. apply Hq in Hk. lia.
  - intros k Hk. by apply not_elem_of_empty in Hk.
  - intros v ch c Hv. by apply not_elem_of_empty in Hv.
  - intros s Hs. by right.
  - intros k [Hk|Hk]; [by apply not_elem_of_empty in Hk|].
    exists k. split; [done | apply rtc_refl].
Qed.

Lemma bfs_inv_skip adjacency seeds i d q vis lv asg :
  i ∈ vis →
  bfs_inv adjacency seeds {| queue := (i, d) :: q; visited := vis; levels := lv; assigned := asg |} →
  bfs_inv adjacency seeds {| queue := q; visited := vis; levels := lv; assigned := asg |}.
Proof.
  intros Hi [H1 H2 H3 H4 H5 H7 H8 H9 H10]. simpl in *. split; simpl; auto.
  - intros k d' Hk. apply (H5 k d'). by right.
  - intros v ch c Hv Hch Hc. destruct (H8 v ch c Hv Hch Hc) as [?|Hin]; [by left|].
    apply elem_of_cons in Hin as [->|?]; [by left | by right].
  - intros s Hs. destruct (H9 s Hs) as [?|Hin]; [by left|].
    apply elem_of_cons in Hin as [->|?]; [by left | by right].
  - intros k [Hk|Hk]; apply H10; [by left | right; by right].
Qed.

Lemma bfs_inv_visit adjacency seeds i d q vis lv asg children :
  i ∉ vis → adjacency !! i = Some children →
  bfs_inv adjacency seeds {| queue := (i, d) :: q; visited := vis; levels := lv; assigned := asg |} →
  bfs_inv adjacency seeds
    {| queue := q ++ ((λ child, (child, d + 1)) <$> children);
       visited := {[i]} ∪ vis; levels := store i d lv; assigned := asg ++ [i] |}.
Proof.
  intros Hi Hch [H1 H2 H3 H4 H5 H7 H8 H9 H10]. simpl in *. split; simpl.
  - intros k. rewrite elem_of_app, elem_of_union, elem_of_singleton, list_elem_of_singleton.
    rewrite H1. tauto.
  - apply NoDup_app. split; [done|]. split; [|apply NoDup_singleton].
    intros x Hx Hx'. apply list_elem_of_singleton in Hx' as ->. apply Hi, H1, Hx.
  - intros k. rewrite lookup_store, elem_of_union, elem_of_singleton.
    case_decide as Hk.
    + destruct Hk as [-> Hp]. split; [by auto | by eauto].
    + rewrite H3. split; [tauto|]. intros [[->|Hv] Hp]; [|done].
      destruct Hk. done.
  - intros k d'. rewrite lookup_store. case_decide as Hk.
    + destruct Hk as [-> _]. intros [= <-]. apply (H5 i d). by left.
    + apply H4.
  - intros k d' [Hk|Hk]%elem_of_app.
    + apply (H5 k d'). by right.
    + apply list_elem_of_fmap in Hk as (c & [= -> ->] & Hc).
      assert (0 ≤ d) by (apply (H5 i d); by left). lia.
  - intros k [->%elem_of_singleton|Hk]%elem_of_union; [by eauto | by apply H7].
  - intros v ch c Hv Hvc Hc. rewrite fmap_app, elem_of_app, elem_of_union, elem_of_singleton.
    apply elem_of_union in Hv as [->%elem_of_singleton|Hv].
    + right. right. rewrite Hch in Hvc. injection Hvc as <-.
      rewrite <- list_fmap_compose. apply list_elem_of_fmap. by exists c.
    + destruct (H8 v ch c Hv Hvc Hc) as [?|Hin]; [by left; right|].
      apply elem_of_cons in Hin as [->|?]; [by left; left | by right; left].
  - intros s Hs. rewrite fmap_app, elem_of_app, elem_of_union, elem_of_singleton.
    destruct (H9 s Hs) as [?|Hin]; [by left; right|].
    apply elem_of_cons in Hin as [->|?]; [by left; left | by right; left].
  - intros k. rewrite fmap_app, elem_of_app, elem_of_union, elem_of_singleton.
    intros [[->|Hk]|[Hk|Hk]].
    + apply H10. right. by left.
    + apply H10. by left.
    + apply H10. right. by right.
    + rewrite <- list_fmap_compose in Hk. apply list_elem_of_fmap in Hk as (c & -> & Hc).
      destruct (H10 i) as (s & Hs & Hsi); [right; by left|].
      exists s. split; [done|]. eapply rtc_r; [exact Hsi|]. by exists children.
Qed.

(** When the loop ends, the queue is empty and the invariant holds. *)
Lemma bfs_Done_inv adjacency seeds fuel st st' :
  bfs_inv adjacency seeds st → bfs fuel adjacency st = Done st' →
  queue st' = [] ∧ bfs_inv adjacency seeds st'.
Proof.
  revert st. induction fuel as [|fuel IH]; intros st Hinv.
  - destruct st as [[|[i d] q] vis lv asg]; simpl; [|done]. by intros [= <-].
  - destruct st as [[|[i d] q] vis lv asg]; simpl; [by intros [= <-]|].
    destruct (decide (i ∈ vis)) as [Hi|Hi].
    + apply IH. by eapply bfs_inv_skip.
    + destruct (adjacency !! i) as [children|] eqn:Hch; [|done].
      apply IH. by eapply bfs_inv_visit.
Qed.

(** When the loop raises, an id without adjacency list was taken from the
    queue, and that id is reached from a seed. *)
Lemma bfs_TypeError_inv adjacency seeds fuel st :
  bfs_inv adjacency seeds st → bfs fuel adjacency st = TypeError →
  ∃ s k, s ∈ seeds ∧ rtc (adj_step adjacency) s k ∧ adjacency !! k = None.
Proof.
  revert st. induction fuel as [|fuel IH]; intros st Hinv.
  - by destruct st as [[|[i d] q] vis lv asg].
  - destruct st as [[|[i d] q] vis lv asg]; simpl; [done|].
    destruct (decide (i ∈ vis)) as [Hi|Hi].
    + apply IH. by eapply bfs_inv_skip.
    + destruct (adjacency !! i) as [children|] eqn:Hch.
      * apply IH. by eapply bfs_inv_visit.
      * intros _. destruct (inv_reached _ _ _ Hinv i) as (s & Hs & Hsi); [right; by left|].
        by exists s, i.
Qed.

(** At the end of the loop exactly the ids reached from a seed are visited. *)
Lemma bfs_inv_final adjacency seeds st k :
  bfs_inv adjacency seeds st → queue st = [] →
  k ∈ visited st ↔ ∃ s, s ∈ seeds ∧ rtc (adj_step adjacency) s k.
Proof.
  intros Hinv Hq. split.
  - intros Hk. apply (inv_reached _ _ _ Hinv). by left.
  - intros (s & Hs & Hsk).
    assert (Hsv : s ∈ visited st).
    { destruct (inv_seeds _ _ _ Hinv s Hs) as [?|Hin]; [done|].
      rewrite Hq in Hin. by inversion Hin. }
    clear Hs. induction Hsk as [|a b c (ch & Hch & Hb) _ IH]; [done|].
    apply IH. destruct (inv_children _ _ _ Hinv a ch b Hsv Hch Hb) as [?|Hin]; [done|].
    rewrite Hq in Hin. by inversion Hin.
Qed.

(** The loop raises exactly when an id without adjacency list is reached
    from a seed; otherwise it ends. *)
Lemma bfs_TypeError_iff adjacency seeds fuel st :
  bfs_inv adjacency seeds st → (loop_bound adjacency st ≤ fuel)%nat →
  bfs fuel adjacency st = TypeError ↔
  ∃ s k, s ∈ seeds ∧ rtc (adj_step adjacency) s k ∧ adjacency !! k = None.
Proof.
  intros Hinv Hb. split; [by apply bfs_TypeError_inv|].
  intros (s & k & Hs & Hsk & Hk).
  destruct (bfs fuel adjacency st) as [st'| |] eqn:Hrun; [|done|].
  - destruct (bfs_Done_inv _ _ _ _ _ Hinv Hrun) as [Hq Hinv'].
    assert (Hv : k ∈ visited st') by (apply (bfs_inv_final adjacency seeds st' k Hinv' Hq); eauto).
    destruct (inv_visited_nodes _ _ _ Hinv' k Hv) as [? ?]. congruence.
  - by destruct (bfs_enough_fuel adjacency fuel st Hb).
Qed.

Lemma bfs_Done adjacency seeds fuel st :
  bfs_inv adjacency seeds st → (loop_bound adjacency st ≤ fuel)%nat →
  (∀ s k, s ∈ seeds → rtc (adj_step adjacency) s k → is_Some (adjacency !! k)) →
  ∃ st', bfs fuel adjacency st = Done st' ∧ queue st' = [] ∧
         bfs_inv adjacency seeds st'.
Proof.
  intros Hinv Hb Hsafe.
  destruct (bfs fuel adjacency st) as [st'| |] eqn:Hrun.
  - exists st'. split; [done|]. by eapply bfs_Done_inv.
  - destruct (bfs_TypeError_inv _ _ _ _ Hinv Hrun) as (s & k & Hs & Hsk & Hk).
    destruct (Hsafe s k Hs Hsk) as [? ?]. congruence.
  - by destruct (bfs_enough_fuel adjacency fuel st Hb).
Qed.

(** *** The two dictionaries *)

Lemma init_tables_from t nodes k :
  adj (foldl init_node t nodes) !! k =
    (if decide (k ∈ id <$> nodes) then Some [] else adj t !! k) ∧
  incomingCount (foldl init_node t nodes) !! k =
    (if decide (k ∈ id <$> nodes ∧ k ≠ proto) then Some (Count 0)
     else incomingCount t !! k).
Proof.
  revert t. induction nodes as [|n nodes IH]; intros t.
  - split; [done|]. cbn [foldl]. case_decide as H; [|done].
    destruct H as [H _]. by apply elem_of_nil in H.
  - cbn [foldl]. destruct (IH (init_node t n)) as [-> ->]. rewrite fmap_cons. split.
    + destruct (decide (k ∈ id <$> nodes)) as [Hk|Hk].
      * by rewrite decide_True by (by right).
      * destruct (decide (k = id n)) as [->|Hne]; simpl.
        -- rewrite lookup_insert_eq, decide_True by (by left). done.
        -- rewrite lookup_insert_ne by done.
           rewrite decide_False by (by intros [?|?]%elem_of_cons). done.
    + simpl. rewrite lookup_store.
      destruct (decide (k ∈ id <$> nodes ∧ k ≠ proto)) as [[Hk Hp]|Hk].
      * rewrite decide_True; [done|]. split; [by right|done].
      * destruct (decide (k = id n ∧ id n ≠ proto)) as [[-> Hp]|Hn].
        -- rewrite decide_True; [done|]. split; [by left|done].
        -- rewrite decide_False; [done|]. intros [[->|?]%elem_of_cons Hp]; tauto.
Qed.

Lemma init_tables_adj nodes k :
  adj (init_tables nodes) !! k = if decide (k ∈ id <$> nodes) then Some [] else None.
Proof.
  unfold init_tables. destruct (init_tables_from no_tables nodes k) as [-> _].
  simpl. by rewrite lookup_empty.
Qed.

Lemma init_tables_incoming nodes k :
  incomingCount (init_tables nodes) !! k =
    if decide (k ∈ id <$> nodes ∧ k ≠ proto) then Some (Count 0) else None.
Proof.
  unfold init_tables. destruct (init_tables_from no_tables nodes k) as [_ ->].
  simpl. by rewrite lookup_empty.
Qed.

(** The links are added when, and only when, every source has an adjacency
    list. *)
Lemma add_links_Some edges t :
  (∀ e, e ∈ edges → is_Some (adj t !! from e)) → is_Some (add_links t edges).
Proof.
  revert t. induction edges as [|e edges IH]; intros t Hsrc; simpl; [by eauto|].
  unfold add_link. destruct (Hsrc e) as [out Hout]; [by left|]. rewrite Hout.
  apply IH. intros e' He'. simpl.
  destruct (decide (from e = from e')) as [->|Hne].
  - rewrite lookup_insert_eq. eauto.
  - rewrite lookup_insert_ne by done. apply Hsrc. by right.
Qed.

Lemma add_links_None edges t e :
  e ∈ edges → adj t !! from e = None → add_links t edges = None.
Proof.
  revert t. induction edges as [|e0 edges IH]; intros t He Hnone; [by inversion He|].
  simpl. unfold add_link. destruct (adj t !! from e0) as [out|] eqn:Hout; [|done].
  apply elem_of_cons in He as [->|He]; [congruence|].
  apply IH; [done|]. simpl. rewrite lookup_insert_ne; [done|]. congruence.
Qed.

(** What the dictionaries hold once all links are added: the adjacency
    lists in the order of the edges; a count grown by the number of edges
    to its key; and nothing under [__proto__] in [incomingCount]. *)
Lemma add_links_spec edges t t' k :
  add_links t edges = Some t' →
  adj t' !! k = (λ out, out ++ (to <$> filter (λ e, from e = k) edges)) <$> adj t !! k ∧
  (k ≠ proto → ∀ c, incomingCount t !! k = Some (Count c) →
        incomingCount t' !! k = Some (Count (c + Z.of_nat (in_degree edges k)))) ∧
  (incomingCount t !! proto = None → incomingCount t' !! proto = None).
Proof.
  revert t. induction edges as [|e edges IH]; intros t; simpl.
  - intros [= <-]. split_and!.
    + destruct (adj t !! k); simpl; [by rewrite app_nil_r | done].
    + intros _ c ->. unfold in_degree. simpl. do 2 f_equal. lia.
    + done.
  - unfold add_link. destruct (adj t !! from e) as [out|] eqn:Hout; [|done].
    intros Hrest. destruct (IH _ Hrest) as (-> & Hcount & Hproto). simpl. clear IH Hrest.
    simpl in Hcount, Hproto. split_and!.
    + unfold in_degree. rewrite !filter_cons.
      destruct (decide (from e = k)) as [<-|Hne].
      * rewrite lookup_insert_eq, Hout. simpl. by rewrite <- app_assoc.
      * rewrite lookup_insert_ne by done. done.
    + intros Hp c Hc. unfold in_degree. rewrite filter_cons.
      fold (in_degree edges k).
      destruct (decide (to e = k)) as [Heq|Hne].
      * rewrite (Hcount Hp (c + 1)).
        -- do 2 f_equal. unfold in_degree. cbn [length]. lia.
        -- rewrite lookup_store, decide_True by (by rewrite Heq).
           unfold increment. rewrite Heq, Hc. done.
      * rewrite (Hcount Hp c); [done|].
        rewrite lookup_store, decide_False; [done|]. intros [-> _]. done.
    + intros Hnone. apply Hproto. by rewrite lookup_store_proto.
Qed.

(** *** The pass as a whole *)

(** The dictionaries when every source is a node. *)
Lemma known_sources_tables nodes edges :
  (∀ e, e ∈ edges → from e ∈ id <$> nodes) →
  ∃ t, add_links (init_tables nodes) edges = Some t ∧
    (∀ k, adj t !! k =
       if decide (k ∈ id <$> nodes)
       then Some (to <$> filter (λ e, from e = k) edges) else None) ∧
    (∀ k, k ∈ id <$> nodes →
       incomingCount t !! k =
         if decide (k = proto) then None
         else Some (Count (Z.of_nat (in_degree edges k)))).
Proof.
  intros Hsrc.
  destruct (add_links_Some edges (init_tables nodes)) as [t Ht].
  { intros e He. rewrite init_tables_adj, decide_True by (by apply Hsrc). eauto. }
  exists t. split; [done|]. split.
  - intros k. destruct (add_links_spec edges _ t k Ht) as [-> _].
    rewrite init_tables_adj. by case_decide.
  - intros k Hk. destruct (add_links_spec edges _ t k Ht) as (_ & Hcount & Hproto).
    destruct (decide (k = proto)) as [->|Hp].
    + apply Hproto. rewrite init_tables_incoming, decide_False; [done|]. by intros [_ ?].
    + rewrite (Hcount Hp 0); [done|].
      by rewrite init_tables_incoming, decide_True.
Qed.

Lemma seed_queue_seeds_of nodes edges t :
  (∀ k, k ∈ id <$> nodes →
     incomingCount t !! k =
       if decide (k = proto) then None
       else Some (Count (Z.of_nat (in_degree edges k)))) →
  seed_queue t nodes = seeds_of nodes edges.
Proof.
  intros Hin. unfold seed_queue, seeds_of, roots.
  assert (Hf : ∀ l : list ReasoningNode, (∀ n, n ∈ l → n ∈ nodes) →
    filter (λ n, incomingCount t !! id n = Some (Count 0)) l =
    filter (root edges) l).
  { induction l as [|n l IH]; intros Hl; [done|].
    rewrite !filter_cons, IH by (intros m Hm; apply Hl; by right).
    assert (Hn : incomingCount t !! id n = Some (Count 0) ↔ root edges n).
    { rewrite Hin by (apply list_elem_of_fmap; exists n; split; [done|]; apply Hl; by left).
      unfold root. case_decide as Hp.
      - split; [done | tauto].
      - split; [intros [= ?]; split; [lia|done] | intros [-> _]; done]. }
    destruct (decide (root edges n)) as [Hr|Hr].
    - by rewrite decide_True by (by apply Hn).
    - by rewrite decide_False by (by rewrite Hn). }
  rewrite Hf by done.
  destruct (filter _ nodes); [|done]. by destruct nodes.
Qed.

Lemma seeds_of_spec nodes edges k d :
  (k, d) ∈ seeds_of nodes edges → d = 0 ∧ k ∈ id <$> nodes.
Proof.
  unfold seeds_of.
  assert (Hr : (k, d) ∈ (λ r, (id r, 0)) <$> filter (root edges) nodes →
               d = 0 ∧ k ∈ id <$> nodes).
  { intros (n & [= -> ->] & Hn%list_elem_of_filter)%list_elem_of_fmap.
    split; [done|]. apply list_elem_of_fmap. exists n. tauto. }
  destruct (filter _ nodes) as [|r rs] eqn:Hf; [|exact Hr].
  destruct nodes as [|n0 nodes]; [exact Hr|].
  intros Hk%list_elem_of_singleton. injection Hk as -> ->.
  split; [done|]. simpl. by left.
Qed.

Lemma seeds_of_nodes nodes edges s :
  s ∈ (seeds_of nodes edges).*1 → s ∈ id <$> nodes.
Proof.
  intros ([k d] & -> & Hkd)%list_elem_of_fmap. by apply (seeds_of_spec nodes edges k d).
Qed.

Lemma known_sources_steps nodes edges t :
  (∀ e, e ∈ edges → from e ∈ id <$> nodes) →
  (∀ k, adj t !! k =
     if decide (k ∈ id <$> nodes)
     then Some (to <$> filter (λ e, from e = k) edges) else None) →
  ∀ a b, adj_step (adj t) a b ↔ edge_step edges a b.
Proof.
  intros Hsrc Hadj a b. unfold adj_step, edge_step. split.
  - intros (ch & Hch & Hb). rewrite Hadj in Hch. case_decide; [|done].
    injection Hch as <-.
    apply list_elem_of_fmap in Hb as (e & -> & [Hfrom He]%list_elem_of_filter).
    by exists e.
  - intros (e & He & <- & <-).
    eexists. rewrite Hadj, decide_True by (by apply Hsrc). split; [done|].
    apply list_elem_of_fmap. exists e. split; [done|].
    by apply list_elem_of_filter.
Qed.

Lemma rtc_steps nodes edges t a b :
  (∀ a b, adj_step (adj t) a b ↔ edge_step edges a b) →
  rtc (adj_step (adj t)) a b ↔ rtc (edge_step edges) a b.
Proof.
  intros Hstep. split; apply rtc_subrel; intros x y; apply Hstep.
Qed.

(** The pass from the dictionaries on, when every source is a node. *)
Lemma run_levels_known_sources nodes edges :
  (∀ e, e ∈ edges → from e ∈ id <$> nodes) →
  ∃ t,
    add_links (init_tables nodes) edges = Some t ∧
    seed_queue t nodes = seeds_of nodes edges ∧
    (∀ k, is_Some (adj t !! k) ↔ k ∈ id <$> nodes) ∧
    (∀ a b, rtc (adj_step (adj t)) a b ↔ rtc (edge_step edges) a b) ∧
    (∀ a b, adj_step (adj t) a b ↔ edge_step edges a b) ∧
    bfs_inv (adj t) (seeds_of nodes edges).*1 (initial_state (seeds_of nodes edges)) ∧
    run_levels nodes edges =
      bfs (loop_bound (adj t) (initial_state (seeds_of nodes edges))) (adj t)
          (initial_state (seeds_of nodes edges)).
Proof.
  intros Hsrc.
  destruct (known_sources_tables nodes edges Hsrc) as (t & Ht & Hadj & Hin).
  pose proof (known_sources_steps nodes edges t Hsrc Hadj) as Hstep.
  exists t. split_and!.
  - done.
  - by apply seed_queue_seeds_of.
  - intros k. rewrite Hadj. case_decide; split; eauto; try done.
  - intros a b. by apply (rtc_steps nodes).
  - done.
  - apply bfs_inv_initial. intros k d Hk. by apply (seeds_of_spec nodes edges k d).
  - unfold run_levels, traverse. by rewrite Ht, (seed_queue_seeds_of nodes edges t Hin).
Qed.

(** The pass raises exactly on a fatal dangling edge. *)
Lemma run_levels_TypeError_iff nodes edges :
  run_levels nodes edges = TypeError ↔ fatal_dangling nodes edges.
Proof.
  destruct (decide (Forall (λ e, from e ∈ id <$> nodes) edges)) as [Hsrc|Hsrc].
  - rewrite Forall_forall in Hsrc.
    destruct (run_levels_known_sources nodes edges Hsrc)
      as (t & _ & _ & Hdom & Hrtc & Hstep & Hinv & ->).
    rewrite (bfs_TypeError_iff _ _ _ _ Hinv) by done. split.
    + intros (s & k & Hs & Hsk & Hk). right.
      apply rtc_inv_r in Hsk as [->|(k' & Hsk' & Hk'k)].
      * exfalso. apply seeds_of_nodes, Hdom in Hs as [? ?]. congruence.
      * apply Hstep in Hk'k as (e & He & <- & <-). exists e, s. split_and!; [done| |done|].
        -- intros Hin. apply Hdom in Hin as [? ?]. congruence.
        -- by apply Hrtc.
    + intros [(e & He & Hfrom)|(e & s & He & Hto & Hs & Hse)].
      * by destruct (Hfrom (Hsrc e He)).
      * exists s, (to e). split_and!; [done| |].
        -- eapply rtc_r; [by apply Hrtc|]. apply Hstep. by exists e.
        -- destruct (adj t !! to e) eqn:Hk; [|done]. exfalso. apply Hto, Hdom. eauto.
  - apply not_Forall_Exists in Hsrc; [|apply _].
    apply Exists_exists in Hsrc as (e & He & Hfrom).
    split; [intros _; left; by exists e|]. intros _. unfold run_levels.
    rewrite (add_links_None edges (init_tables nodes) e); [done..|].
    rewrite init_tables_adj. by rewrite decide_False.
Qed.

(** How a node comes by its level. *)
Lemma level_of_Level (lv : gmap jsstring Z) n d :
  level_of lv n = Level d ↔
  lv !! id n = Some d ∨ (lv !! id n = None ∧ (id n ∉ Object_prototype) ∧ d = 0).
Proof.
  unfold level_of. destruct (lv !! id n) as [d'|].
  - split; [intros [= ->]; by left | intros [[= ->]|[? _]]; done].
  - case_bool_decide as Hm.
    + split; [done | intros [?|(_ & ? & _)]; done].
    + split; [intros [= <-]; by right | intros [?|(_ & _ & ->)]; done].
Qed.

Lemma level_of_Member (lv : gmap jsstring Z) n :
  level_of lv n = Member ↔ lv !! id n = None ∧ id n ∈ Object_prototype.
Proof.
  unfold level_of. destruct (lv !! id n) as [d'|].
  - split; [done | by intros [? _]].
  - case_bool_decide as Hm; [by split | split; [done | by intros [_ ?]]].
Qed.

Lemma proto_member : proto ∈ Object_prototype.
Proof. unfold Object_prototype. do 10 right. left. Qed.

(** Without a fatal dangling edge: the queue is seeded with the nodes
    without incoming edge (but for one named [__proto__]), or with the first
    node when there is none, at depth 0; the pass ends; every level is
    non-negative; exactly the ids reached from a seed are visited, each of
    them is assigned once and has a level unless it is [__proto__]; a node
    ends with a member of [Object.prototype] for its level exactly when its
    id is [__proto__], or names another member and is not visited; the other
    nodes that are not visited keep level 0. *)
Lemma levels_without_fatal_edge nodes edges :
  ¬ fatal_dangling nodes edges →
  ∃ t st,
    add_links (init_tables nodes) edges = Some t ∧
    seed_queue t nodes = seeds_of nodes edges ∧
    run_levels nodes edges = Done st ∧
    assign_levels nodes edges =
      Done ((λ n, (n, level_of (levels st) n)) <$> nodes) ∧
    (∀ n d, level_of (levels st) n = Level d → 0 ≤ d) ∧
    (∀ k, k ∈ visited st ↔
          ∃ s, s ∈ (seeds_of nodes edges).*1 ∧ rtc (edge_step edges) s k) ∧
    (∀ k, k ∈ visited st → k ∈ id <$> nodes) ∧
    (∀ k, k ∈ visited st ↔ k ∈ assigned st) ∧
    NoDup (assigned st) ∧
    (∀ k, is_Some (levels st !! k) ↔ k ∈ visited st ∧ k ≠ proto) ∧
    (∀ n, level_of (levels st) n = Member ↔
          id n ∈ Object_prototype ∧ (id n = proto ∨ id n ∉ visited st)) ∧
    (∀ n, id n ∉ visited st → id n ∉ Object_prototype →
          level_of (levels st) n = Level 0).
Proof.
  intros Hsafe.
  assert (Hsrc : ∀ e, e ∈ edges → from e ∈ id <$> nodes).
  { intros e He. destruct (decide (from e ∈ id <$> nodes)); [done|].
    exfalso. apply Hsafe. left. by exists e. }
  destruct (run_levels_known_sources nodes edges Hsrc)
    as (t & Ht & Hseed & Hdom & Hrtc & Hstep & Hinv & Hrun).
  destruct (bfs_Done (adj t) _ _ _ Hinv (le_n _)) as (st & Hst & Hq & Hinv').
  { intros s k Hs Hsk.
    apply rtc_inv_r in Hsk as [->|(k' & Hsk' & Hk'k)].
    - apply Hdom. by eapply seeds_of_nodes.
    - apply Hstep in Hk'k as (e & He & <- & <-). apply Hdom.
      destruct (decide (to e ∈ id <$> nodes)); [done|].
      exfalso. apply Hsafe. right. exists e, s. split_and!; [done..|]. by apply Hrtc. }
  rewrite Hst in Hrun. exists t, st. split_and!.
  - done.
  - done.
  - done.
  - unfold assign_levels. by rewrite Hrun.
  - intros n d [Hd|(_ & _ & ->)]%level_of_Level; [|done].
    by apply (inv_level_nonneg _ _ _ Hinv' (id n)).
  - intros k. rewrite (bfs_inv_final _ _ _ k Hinv' Hq).
    split; intros (s & Hs & Hsk); exists s; (split; [done|]); by apply Hrtc.
  - intros k Hk. by apply Hdom, (inv_visited_nodes _ _ _ Hinv').
  - apply (inv_visited _ _ _ Hinv').
  - apply (inv_once _ _ _ Hinv').
  - apply (inv_levels _ _ _ Hinv').
  - intros n. rewrite level_of_Member, eq_None_not_Some, (inv_levels _ _ _ Hinv' (id n)).
    destruct (decide (id n = proto)); destruct (decide (id n ∈ visited st)); tauto.
  - intros n Hn Hm. apply level_of_Level. right. split_and!; [|done..].
    destruct (levels st !! id n) as [d|] eqn:Hd; [|done].
    exfalso. apply Hn, (inv_levels _ _ _ Hinv'). eauto.
Qed.

Lemma closed_graph_not_fatal nodes edges :
  closed_graph nodes edges → ¬ fatal_dangling nodes edges.
Proof.
  intros Hcl [(e & He & Hfrom)|(e & s & He & Hto & _)];
    destruct (Hcl e He) as [? ?]; done.
Qed.

Lemma filter_none {A} (P : A → Prop) `{∀ x, Decision (P x)} (l : list A) :
  (∀ x, x ∈ l → ¬ P x) → filter P l = [].
Proof.
  induction l as [|x l IH]; intros Hl; [done|].
  rewrite filter_cons, decide_False by (apply Hl; by left).
  apply IH. intros y Hy. apply Hl. by right.
Qed.

Lemma single_cycle_seeds nodes edges :
  single_cycle nodes edges →
  ∃ n0 rest, nodes = n0 :: rest ∧ seeds_of nodes edges = [(id n0, 0)].
Proof.
  intros (Hne & _ & _ & Hdeg & _).
  destruct nodes as [|n0 rest]; [done|]. exists n0, rest. split; [done|].
  unfold seeds_of. rewrite filter_none; [done|].
  intros n Hn [Hz _]. destruct (Hdeg (id n)) as [Hin _]; [|lia].
  apply list_elem_of_fmap. by exists n.
Qed.

(** On a single cycle the pass ends, and the assignment [levels[id] =
    depth] is executed once for every node: the ids assigned are the ids of
    the nodes, each once. The assignment leaves a level behind for every
    node but one named [__proto__]. *)
Lemma single_cycle_run nodes edges :
  single_cycle nodes edges →
  ∃ st,
    run_levels nodes edges = Done st ∧
    assigned st ≡ₚ id <$> nodes ∧
    (∀ n, n ∈ nodes → is_Some (levels st !! id n) ↔ id n ≠ proto).
Proof.
  intros Hcyc.
  destruct (single_cycle_seeds nodes edges Hcyc) as (n0 & rest & Hnodes & Hseeds).
  destruct Hcyc as (_ & Hnd & Hcl & _ & Hconn).
  destruct (levels_without_fatal_edge nodes edges (closed_graph_not_fatal _ _ Hcl))
    as (t & st & _ & _ & Hrun & _ & _ & Hreach & Hsub & Hasg & Honce & Hlv & _).
  assert (Hall : ∀ k, k ∈ visited st ↔ k ∈ id <$> nodes).
  { intros k. split; [apply Hsub|]. intros Hk. apply Hreach.
    exists (id n0). rewrite Hseeds. split; [by left|].
    apply Hconn; [|done]. rewrite Hnodes. by left. }
  exists st. split_and!.
  - done.
  - apply NoDup_Permutation; [done..|]. intros k. rewrite <- Hasg. apply Hall.
  - intros n Hn. rewrite Hlv, Hall.
    assert (id n ∈ id <$> nodes) by (apply list_elem_of_fmap; by exists n). tauto.
Qed.

End LevelsProofs.

Lemma triangle_single_cycle : single_cycle triangle_nodes triangle_edges.
Proof.
  assert (H12 : edge_step triangle_edges (js "n1") (js "n2")).
  { exists (edge "n1" "n2"). split; [|done]. apply list_elem_of_In. simpl. tauto. }
  assert (H23 : edge_step triangle_edges (js "n2") (js "n3")).
  { exists (edge "n2" "n3"). split; [|done]. apply list_elem_of_In. simpl. tauto. }
  assert (H31 : edge_step triangle_edges (js "n3") (js "n1")).
  { exists (edge "n3" "n1"). split; [|done]. apply list_elem_of_In. simpl. tauto. }
  split_and!.
  - done.
  - refine (bool_decide_unpack _ _). vm_compute. exact I.
  - intros e He. apply list_elem_of_In in He. simpl in He.
    destruct He as [<-|[<-|[<-|[]]]]; split; apply list_elem_of_In; simpl; tauto.
  - intros k Hk. apply list_elem_of_In in Hk. simpl in Hk.
    destruct Hk as [<-|[<-|[<-|[]]]]; split; vm_compute; reflexivity.
  - intros a b Ha Hb. apply list_elem_of_In in Ha, Hb. simpl in Ha, Hb.
    destruct Ha as [<-|[<-|[<-|[]]]]; destruct Hb as [<-|[<-|[<-|[]]]];
      eauto using rtc_refl, rtc_once, rtc_l.
Defined.

Lemma proto_cycle_single_cycle : single_cycle proto_cycle_nodes proto_cycle_edges.
Proof.
  assert (H12 : edge_step proto_cycle_edges (js "a") proto).
  { exists (edge "a" "__proto__"). split; [|done]. apply list_elem_of_In. simpl. tauto. }
  assert (H21 : edge_step proto_cycle_edges proto (js "a")).
  { exists (edge "__proto__" "a"). split; [|done]. apply list_elem_of_In. simpl. tauto. }
  split_and!.
  - done.
  - refine (bool_decide_unpack _ _). vm_compute. exact I.
  - intros e He. apply list_elem_of_In in He. simpl in He.
    destruct He as [<-|[<-|[]]]; split; apply list_elem_of_In; simpl; tauto.
  - intros k Hk. apply list_elem_of_In in Hk. simpl in Hk.
    destruct Hk as [<-|[<-|[]]]; split; vm_compute; reflexivity.
  - intros a b Ha Hb. apply list_elem_of_In in Ha, Hb. simpl in Ha, Hb.
    destruct Ha as [<-|[<-|[]]]; destruct Hb as [<-|[<-|[]]];
      eauto using rtc_refl, rtc_once, rtc_l.
Qed.

(** C7: on a single cycle the pass ends and [levels[id] = depth] is executed
    once for every node, but a node named [__proto__] gets no level by it:
    in the cycle of [a] and [__proto__] the assignment is executed for both,
    [levels] ends with the level of [a] alone, and the node [__proto__] ends
    with [Object.prototype] where its level should be. On every single
    cycle each node but one of that name has a level in [levels]. *)
Theorem single_cycle_assigned_once :
  (∀ nodes edges, single_cycle nodes edges →
     ∃ st, run_levels nodes edges = Done st ∧
           assigned st ≡ₚ id <$> nodes ∧
           (∀ n, n ∈ nodes → is_Some (levels st !! id n) ↔ id n ≠ proto)) ∧
  single_cycle proto_cycle_nodes proto_cycle_edges ∧
  (∃ st, run_levels proto_cycle_nodes proto_cycle_edges = Done st ∧
         assigned st = [js "a"; proto] ∧
         levels st !! js "a" = Some 0 ∧ levels st !! proto = None) ∧
  assign_levels proto_cycle_nodes proto_cycle_edges
    = Done [(node "a", Level 0); (node "__proto__", Member)].
Proof.
  split_and!.
  - exact single_cycle_run.
  - exact proto_cycle_single_cycle.
  - eexists. split; [vm_compute; reflexivity|]. split_and!; vm_compute; reflexivity.
  - vm_compute. reflexivity.
Qed.

Lemma single_cycle_assigned_once_witness :
  ∃ st, run_levels triangle_nodes triangle_edges = Done st ∧
        assigned st ≡ₚ id <$> triangle_nodes ∧
        (∀ n, n ∈ triangle_nodes → is_Some (levels st !! id n) ↔ id n ≠ proto).
Proof. exact (proj1 single_cycle_assigned_once _ _ triangle_single_cycle). Defined.

(** The end-to-end scenario: levels [{a: 0, b: 1}]. *)
Example levels_a_b :
  assign_levels [node "a"; node "b"] [edge "a" "b"]
    = Done [(node "a", Level 0); (node "b", Level 1)].
Proof. vm_compute. reflexivity. Qed.

(** A dangling edge whose source is a node that is never reached does no
    harm. *)
Example levels_unreached_dangling :
  dangling [node "a"; node "b"; node "c"] (edge "c" "x") ∧
  assign_levels [node "a"; node "b"; node "c"]
    [edge "b" "c"; edge "c" "b"; edge "c" "x"]
    = Done [(node "a", Level 0); (node "b", Level 0); (node "c", Level 0)].
Proof.
  split; [|vm_compute; reflexivity].
  right. intros H. apply list_elem_of_In in H. simpl in H.
  destruct H as [H|[H|[H|[]]]]; discriminate H.
Qed.

(** C3: the pass does fail on dangling edges. It raises exactly when some
    edge has a source that is not a node, or a target that is not a node
    and a source that is reached from a seed; with the single node [a] and
    the edge from [x] to [a], [adj[l.source].push] raises while the links
    are added. *)
Theorem dangling_edge_raises :
  (∀ nodes edges,
     run_levels nodes edges = TypeError ↔ fatal_dangling nodes edges) ∧
  dangling [node "a"] (edge "x" "a") ∧
  assign_levels [node "a"] [edge "x" "a"] = TypeError.
Proof.
  split_and!; [exact run_levels_TypeError_iff | | vm_compute; reflexivity].
  left. intros H. apply list_elem_of_In in H. simpl in H. destruct H as [H|[]].
  discriminate H.
Qed.

(** C6: on every graph without fatal dangling edge the queue is seeded as
    described (a node named [__proto__] is no root) and the pass ends; a
    level that is a number is not negative, and a node that is not visited
    and whose id names no member of [Object.prototype] has level 0; a node
    ends with such a member instead of a number exactly when its id is
    [__proto__], or names another member and is not visited. With the nodes
    [a], [b] and the edges from [a] to [b] and from [b] to [c], the queue is
    seeded with [a] and the loop raises at [adj[id].forEach] when [c] is
    taken from the queue: no node gets a level. *)
Theorem levels_unless_dangling :
  (∀ nodes edges, ¬ fatal_dangling nodes edges →
     ∃ t st,
       add_links (init_tables nodes) edges = Some t ∧
       seed_queue t nodes = seeds_of nodes edges ∧
       run_levels nodes edges = Done st ∧
       assign_levels nodes edges =
         Done ((λ n, (n, level_of (levels st) n)) <$> nodes) ∧
       (∀ n d, level_of (levels st) n = Level d → 0 ≤ d) ∧
       (∀ k, k ∈ visited st ↔
             ∃ s, s ∈ (seeds_of nodes edges).*1 ∧ rtc (edge_step edges) s k) ∧
       (∀ n, level_of (levels st) n = Member ↔
             id n ∈ Object_prototype ∧ (id n = proto ∨ id n ∉ visited st)) ∧
       (∀ n, id n ∉ visited st → id n ∉ Object_prototype →
             level_of (levels st) n = Level 0)) ∧
  dangling [node "a"; node "b"] (edge "b" "c") ∧
  assign_levels [node "a"; node "b"] [edge "a" "b"; edge "b" "c"] = TypeError.
Proof.
  split_and!; [| | vm_compute; reflexivity].
  - intros nodes edges Hsafe.
    destruct (levels_without_fatal_edge nodes edges Hsafe)
      as (t & st & H1 & H2 & H3 & H4 & H5 & H6 & _ & _ & _ & _ & H7 & H8).
    exists t, st. split_and!; done.
  - right. intros H. apply list_elem_of_In in H. simpl in H.
    destruct H as [H|[H|[]]]; discriminate H.
Qed.

Lemma a_b_closed : closed_graph [node "a"; node "b"] [edge "a" "b"].
Proof.
  intros e He. apply list_elem_of_In in He. simpl in He.
  destruct He as [<-|[]]. split; apply list_elem_of_In; simpl; tauto.
Defined.

Lemma levels_unless_dangling_witness :
  ∃ t st,
    add_links (init_tables [node "a"; node "b"]) [edge "a" "b"] = Some t ∧
    seed_queue t [node "a"; node "b"] = seeds_of [node "a"; node "b"] [edge "a" "b"] ∧
    run_levels [node "a"; node "b"] [edge "a" "b"] = Done st ∧
    assign_levels [node "a"; node "b"] [edge "a" "b"]
      = Done ((λ n, (n, level_of (levels st) n)) <$> [node "a"; node "b"]).
Proof.
  destruct (proj1 levels_unless_dangling [node "a"; node "b"] [edge "a" "b"]
              (closed_graph_not_fatal _ _ a_b_closed))
    as (t & st & H1 & H2 & H3 & H4 & _).
  exists t, st. split_and!; [exact H1 | exact H2 | exact H3 | exact H4].
Defined.

(** ** The step-correlation resolver *)

Section ResolverProofs.

Context {A : Type}.
Implicit Types (p : A → bool) (l : list A).

Lemma findIndex_from_none p l i :
  (∀ x, x ∈ l → p x = false) → findIndex_from i p l = -1.
Proof.
  revert i. induction l as [|x l IH]; intros i Hl; simpl; [done|].
  rewrite Hl by (by left). apply IH. intros y Hy. apply Hl. by right.
Qed.

Lemma findIndex_from_first p l i n :
  first_index p l n → findIndex_from i p l = i + Z.of_nat n.
Proof.
  revert i n. induction l as [|x l IH]; intros i n [(y & Hy & Hp) Hbefore].
  - by rewrite lookup_nil in Hy.
  - simpl. destruct n as [|n].
    + simpl in Hy. injection Hy as ->. rewrite Hp. lia.
    + rewrite (Hbefore O x) by (simpl; done || lia).
      rewrite (IH (i + 1) n); [lia|]. split; [by exists y|].
      intros j z Hj Hz. apply (Hbefore (S j) z); [lia | done].
Qed.

Lemma findIndex_from_range p l i :
  0 ≤ i → findIndex_from i p l = -1 ∨
          (i ≤ findIndex_from i p l < i + Z.of_nat (length l)).
Proof.
  revert i. induction l as [|x l IH]; intros i Hi; simpl; [by left|].
  destruct (p x); [right; lia|].
  destruct (IH (i + 1)) as [->|?]; [lia | by left | right; lia].
Qed.

Lemma findIndex_from_found p l i :
  0 ≤ i → findIndex_from i p l ≠ -1 →
  ∃ n, first_index p l n ∧ findIndex_from i p l = i + Z.of_nat n.
Proof.
  revert i. induction l as [|x l IH]; intros i Hi; simpl; [done|].
  destruct (p x) eqn:Hp.
  - intros _. exists O. split; [|lia]. split; [by exists x|]. intros j y Hj. lia.
  - intros Hne. destruct (IH (i + 1)) as (n & [(y & Hy & Hpy) Hb] & Hn); [lia|done|].
    exists (S n). split; [|lia]. split; [by exists y|].
    intros [|j] z Hj Hz; simpl in Hz; [by injection Hz as <-|].
    apply (Hb j z); [lia|done].
Qed.

Lemma first_index_exists p l n x :
  l !! n = Some x → p x = true → ∃ i, (i ≤ n)%nat ∧ first_index p l i.
Proof.
  revert n. induction l as [|y l IH]; intros n Hn Hp; [by rewrite lookup_nil in Hn|].
  destruct (p y) eqn:Hy.
  - exists O. split; [lia|]. split; [by exists y|]. intros j z Hj. lia.
  - destruct n as [|n]; [simpl in Hn; congruence|]. simpl in Hn.
    destruct (IH n Hn Hp) as (i & Hi & (z & Hz & Hpz) & Hb).
    exists (S i). split; [lia|]. split; [by exists z|].
    intros [|j] w Hj Hw; simpl in Hw; [congruence|]. apply (Hb j w); [lia|done].
Qed.

Lemma first_index_ext p q l i :
  (∀ x, p x = q x) → first_index p l i → first_index q l i.
Proof.
  intros Hpq [(x & Hx & Hp) Hb]. split.
  - exists x. by rewrite <- Hpq.
  - intros j y Hj Hy. rewrite <- Hpq. by apply (Hb j y).
Qed.

End ResolverProofs.

Section ResolverFacts.

Implicit Types (steps : list StudentStepAnalysis) (nid : jsstring).

Lemma digit_run_value_nonneg ds :
  Forall (λ c, is_digit c = true) ds → ∀ acc, 0 ≤ acc →
  0 ≤ foldl (λ acc c, 10 * acc + (Z.of_N c - 48)) acc ds.
Proof.
  induction 1 as [|c ds Hc _ IH]; intros acc Hacc; simpl; [done|].
  apply IH. unfold is_digit in Hc. apply andb_true_iff in Hc as [H1%N.leb_le H2]. lia.
Qed.

Lemma digit_run_digits s : Forall (λ c, is_digit c = true) (digit_run s).
Proof.
  induction s as [|c s IH]; simpl; [constructor|].
  destruct (is_digit c) eqn:Hc; constructor; auto.
Qed.

Lemma first_digits_digits s ds :
  first_digits s = Some ds → Forall (λ c, is_digit c = true) ds.
Proof.
  induction s as [|c s IH]; simpl; [done|].
  destruct (is_digit c) eqn:Hc; [|done].
  intros [= <-]. constructor; [done | apply digit_run_digits].
Qed.

Lemma to_binary64_nonneg z : 0 ≤ z → to_binary64 z ≠ Finite (-1).
Proof.
  intros Hz. unfold to_binary64.
  destruct (z <? 2 ^ 53) eqn:Hlt; [intros [= ?]; lia|].
  apply Z.ltb_ge in Hlt.
  set (e := Z.log2 z - 52). cbv zeta.
  destruct (2 ^ 1024 <=? _); [done|]. intros [= Hv].
  assert (0 ≤ z / 2 ^ e) by (apply Z.div_pos; [lia | apply Z.pow_pos_nonneg; [lia|]];
    unfold e; assert (53 ≤ Z.log2 z) by (apply Z.log2_le_pow2; lia); lia).
  assert (0 ≤ 2 ^ e) by (apply Z.pow_nonneg; lia).
  destruct (_ || _); nia.
Qed.

(** The sentinel [-1] is the number of exactly the strings without digit. *)
Lemma getNum_sentinel s : getNum s = Finite (-1) ↔ no_digits s.
Proof.
  unfold getNum, no_digits. destruct (first_digits s) as [ds|] eqn:Hds; [|done].
  split; [|done]. intros Hv. exfalso. revert Hv. apply to_binary64_nonneg.
  unfold decimal_value. apply digit_run_value_nonneg; [|done].
  by eapply first_digits_digits.
Qed.

Lemma number_eqb_eq a b : number_eqb a b = true ↔ a = b.
Proof.
  destruct a, b; simpl; split; try done.
  - by intros ->%Z.eqb_eq.
  - intros [= ->]. apply Z.eqb_refl.
Qed.

Lemma same_id_same_number nid s : same_id nid s = true → same_number nid s = true.
Proof.
  unfold same_id, same_number. intros ->%bool_decide_eq_true. by apply number_eqb_eq.
Qed.

Lemma handle_unfold steps c nid :
  handleGraphNodeClick (Some steps) (Some (c :: nid)) =
    if resolve_index steps (c :: nid) =? -1 then None
    else Some (resolve_index steps (c :: nid)).
Proof. done. Qed.

Lemma by_number_first steps nid i :
  first_index (same_number nid) steps i → by_number steps nid = Z.of_nat i.
Proof.
  intros Hi. unfold by_number, findIndex.
  rewrite (findIndex_from_first _ _ 0 i Hi). lia.
Qed.

Lemma by_number_none steps nid :
  (∀ s, s ∈ steps → same_number nid s = false) → by_number steps nid = -1.
Proof. intros Hn. by apply findIndex_from_none. Qed.

(** When some step has the id of the node, rule 1 has already matched:
    rule 2 never finds anything. *)
Lemma by_exact_id_dead steps nid :
  by_number steps nid = -1 → by_exact_id steps nid = -1.
Proof.
  intros Hn. apply findIndex_from_none. intros s Hs.
  destruct (bool_decide (step_id s = nid)) eqn:Hid; [|done]. exfalso.
  destruct (findIndex_from_found (same_number nid) steps 0) as (n & _ & Hf); [done| |].
  - intros Hnone.
    assert (Hall : ∀ l i, s ∈ l → findIndex_from i (same_number nid) l ≠ -1 ∨ i < 0).
    { induction l as [|x l IH]; intros i Hin; [by inversion Hin|]. simpl.
      destruct (same_number nid x) eqn:Hx; [destruct (decide (i < 0)); [by right | left; lia]|].
      apply elem_of_cons in Hin as [->|Hin].
      - rewrite (same_id_same_number nid x) in Hx; done.
      - destruct (IH (i + 1) Hin); [by left | right; lia]. }
    destruct (Hall steps 0 Hs); [done | lia].
  - unfold by_number, findIndex in Hn. rewrite Hn in Hf. lia.
Qed.

(** The rules of the resolver, in the order in which they are tried. *)
Lemma resolver_rules steps nid :
  nid ≠ [] →
  (∀ i, first_index (same_number nid) steps i →
        handleGraphNodeClick (Some steps) (Some nid) = Some (Z.of_nat i)) ∧
  ((∀ s, s ∈ steps → same_number nid s = false) →
   ∀ i, first_index (same_id nid) steps i →
        handleGraphNodeClick (Some steps) (Some nid) = Some (Z.of_nat i)) ∧
  ((∀ s, s ∈ steps → same_number nid s = false) →
   (∀ s, s ∈ steps → same_id nid s = false) →
   ∀ n, getNum nid = Finite n → 0 < n ≤ Z.of_nat (length steps) →
        handleGraphNodeClick (Some steps) (Some nid) = Some (n - 1)) ∧
  ((∀ s, s ∈ steps → same_number nid s = false) →
   (∀ s, s ∈ steps → same_id nid s = false) →
   (∀ n, getNum nid = Finite n → ¬ (0 < n ≤ Z.of_nat (length steps))) →
        handleGraphNodeClick (Some steps) (Some nid) = None).
Proof.
  intros Hne. destruct nid as [|c nid]; [done|]. rewrite !handle_unfold.
  unfold resolve_index. split_and!.
  - intros i Hi. rewrite (by_number_first _ _ i Hi).
    by rewrite !(proj2 (Z.eqb_neq (Z.of_nat i) (-1))) by lia.
  - intros Hnum i Hi. rewrite (by_number_none _ _ Hnum). simpl.
    unfold by_exact_id, findIndex. rewrite (findIndex_from_first _ _ 0 i Hi).
    rewrite !(proj2 (Z.eqb_neq (0 + Z.of_nat i) (-1))) by lia. f_equal.
  - intros Hnum Hid n Hn Hrange. rewrite (by_number_none _ _ Hnum). simpl.
    unfold by_exact_id, findIndex. rewrite (findIndex_from_none _ _ _ Hid). simpl.
    unfold by_position. rewrite Hn.
    rewrite (proj2 (Z.ltb_lt 0 n)), (proj2 (Z.leb_le n _)) by lia. simpl.
    by rewrite (proj2 (Z.eqb_neq (n - 1) (-1))) by lia.
  - intros Hnum Hid Hrange. rewrite (by_number_none _ _ Hnum). simpl.
    unfold by_exact_id, findIndex. rewrite (findIndex_from_none _ _ _ Hid). simpl.
    unfold by_position. destruct (getNum (c :: nid)) as [n|] eqn:Hn; [|done].
    destruct ((0 <? n) && (n <=? Z.of_nat (length steps))) eqn:Hr; [|done].
    exfalso. apply (Hrange n eq_refl). lia.
Qed.

Lemma handle_range sa node_id :
  handleGraphNodeClick sa node_id = None ∨
  ∃ i, handleGraphNodeClick sa node_id = Some i ∧
       0 ≤ i < Z.of_nat (length (default [] sa)).
Proof.
  destruct node_id as [[|c nid]|]; [by left| |by left].
  destruct sa as [steps|]; [|by left]. rewrite handle_unfold.
  destruct (resolve_index steps (c :: nid) =? -1) eqn:Hr; [by left|]. right.
  eexists. split; [done|]. simpl. apply Z.eqb_neq in Hr. revert Hr.
  unfold resolve_index, by_number, by_exact_id, findIndex.
  pose proof (findIndex_from_range (same_number (c :: nid)) steps 0 ltac:(done)) as Hn.
  pose proof (findIndex_from_range (same_id (c :: nid)) steps 0 ltac:(done)) as Hi.
  destruct (Z.eqb_spec (findIndex_from 0 (same_number (c :: nid)) steps) (-1)) as [Hn'|Hn'].
  - destruct (Z.eqb_spec (findIndex_from 0 (same_id (c :: nid)) steps) (-1)) as [Hi'|Hi'].
    + unfold by_position. destruct (getNum (c :: nid)) as [n|]; [|done].
      destruct ((0 <? n) && (n <=? Z.of_nat (length steps))) eqn:Hp; [|done].
      apply andb_true_iff in Hp as [?%Z.ltb_lt ?%Z.leb_le]. lia.
    + lia.
  - rewrite (proj2 (Z.eqb_neq _ _) Hn'). lia.
Qed.

Lemma same_number_no_digits nid s :
  no_digits nid → same_number nid s = bool_decide (no_digits (step_id s)).
Proof.
  intros Hn. unfold same_number. rewrite (proj2 (getNum_sentinel nid) Hn).
  destruct (bool_decide (no_digits (step_id s))) eqn:Hs.
  - apply bool_decide_eq_true in Hs. rewrite (proj2 (getNum_sentinel _) Hs). done.
  - apply bool_decide_eq_false in Hs.
    destruct (number_eqb _ _) eqn:He; [|done].
    apply number_eqb_eq, getNum_sentinel in He. done.
Qed.

End ResolverFacts.




(** C8: a node id that matches no step by number, equals no step id and is
    no valid position gives no match; so does node id ["5"] on any list of
    three steps none of which has number 5, and so does an id without digits
    when every step id has a digit. On every input the handler returns
    [null] or an index into the list. *)
Theorem resolver_no_match :
  (∀ steps nid,
     (∀ s, s ∈ steps → same_number nid s = false) →
     (∀ s, s ∈ steps → step_id s ≠ nid) →
     (∀ n, getNum nid = Finite n → ¬ (0 < n ≤ Z.of_nat (length steps))) →
     handleGraphNodeClick (Some steps) (Some nid) = None) ∧
  (∀ steps, length steps = 3%nat →
     (∀ s, s ∈ steps → getNum (step_id s) ≠ Finite 5) →
     handleGraphNodeClick (Some steps) (Some (js "5")) = None) ∧
  (∀ steps nid, no_digits nid →
     (∀ s, s ∈ steps → ¬ no_digits (step_id s)) →
     handleGraphNodeClick (Some steps) (Some nid) = None) ∧
  (∀ sa node_id,
     handleGraphNodeClick sa node_id = None ∨
     ∃ i, handleGraphNodeClick sa node_id = Some i ∧
          0 ≤ i < Z.of_nat (length (default [] sa))).
Proof.
  assert (Hgen : ∀ steps nid,
     (∀ s, s ∈ steps → same_number nid s = false) →
     (∀ n, getNum nid = Finite n → ¬ (0 < n ≤ Z.of_nat (length steps))) →
     handleGraphNodeClick (Some steps) (Some nid) = None).
  { intros steps nid Hnum Hpos. destruct nid as [|c nid]; [done|].
    apply (resolver_rules steps (c :: nid)); [done..| |done].
    intros s Hs. destruct (same_id (c :: nid) s) eqn:Hid; [|done].
    apply same_id_same_number in Hid. rewrite Hnum in Hid; done. }
  split_and!.
  - intros steps nid Hnum _ Hpos. by apply Hgen.
  - intros steps Hlen Hfive. apply Hgen.
    + intros s Hs. unfold same_number.
      destruct (number_eqb _ _) eqn:He; [|done].
      apply number_eqb_eq in He. by apply Hfive in He.
    + intros n Hn. vm_compute in Hn. injection Hn as <-. rewrite Hlen. lia.
  - intros steps nid Hnid Hsteps. apply Hgen.
    + intros s Hs. rewrite same_number_no_digits by done.
      apply bool_decide_eq_false. by apply Hsteps.
    + rewrite (proj2 (getNum_sentinel nid) Hnid). intros n [= <-]. lia.
  - apply handle_range.
Qed.

Lemma resolver_no_match_witness :
  handleGraphNodeClick (Some three_steps) (Some (js "5")) = None ∧
  handleGraphNodeClick (Some three_steps) (Some (js "start")) = None.
Proof.
  split.
  - apply (proj1 (proj2 resolver_no_match) three_steps); [reflexivity|].
    intros s Hs. apply list_elem_of_In in Hs. simpl in Hs.
    destruct Hs as [<-|[<-|[<-|[]]]]; vm_compute; discriminate.
  - apply (proj1 (proj2 (proj2 resolver_no_match)) three_steps); [reflexivity|].
    intros s Hs. apply list_elem_of_In in Hs. simpl in Hs.
    destruct Hs as [<-|[<-|[<-|[]]]]; vm_compute; discriminate.
Defined.

(** C9, counterexample: the empty id has no digit and the only step has
    none, yet the handler clears the highlight: its first guard, [!node.id],
    holds for the empty string. *)
Lemma resolver_empty_id_counterexample :
  no_digits [] ∧
  first_index (λ s, bool_decide (no_digits (step_id s))) [step "intro"] 0 ∧
  handleGraphNodeClick (Some [step "intro"]) (Some []) = None.
Proof.
  split_and!; [done| |done].
  split; [by eexists|]. intros j y Hj. lia.
Qed.

(** C9, as amended: for a node id that is not empty and has no digit the
    helper gives [-1]; a step has the same number exactly when its id has no
    digit either; when there is such a step, rule 1 finds the first one, the
    handler selects it, and rule 2 is not tried. *)
Theorem resolver_no_digit_id steps nid :
  nid ≠ [] → no_digits nid →
  getNum nid = Finite (-1) ∧
  (∀ s, same_number nid s = true ↔ no_digits (step_id s)) ∧
  (∀ i, first_index (λ s, bool_decide (no_digits (step_id s))) steps i →
     by_number steps nid = Z.of_nat i ∧
     resolve_index steps nid = by_number steps nid ∧
     handleGraphNodeClick (Some steps) (Some nid) = Some (Z.of_nat i)).
Proof.
  intros Hne Hnid. split_and!.
  - by apply getNum_sentinel.
  - intros s. rewrite same_number_no_digits by done. apply bool_decide_eq_true.
  - intros i Hi.
    assert (Hi' : first_index (same_number nid) steps i).
    { eapply first_index_ext; [|exact Hi]. intros s. by rewrite same_number_no_digits. }
    pose proof (by_number_first steps nid i Hi') as Hb. split_and!.
    + done.
    + unfold resolve_index. rewrite Hb.
      rewrite !(proj2 (Z.eqb_neq (Z.of_nat i) (-1))) by lia. reflexivity.
    + exact (proj1 (resolver_rules steps nid Hne) i Hi').
Qed.

Lemma resolver_no_digit_id_witness :
  getNum (js "start") = Finite (-1) ∧
  handleGraphNodeClick (Some [step "step1"; step "intro"; step "end"])
    (Some (js "start")) = Some 1.
Proof.
  destruct (resolver_no_digit_id [step "step1"; step "intro"; step "end"] (js "start"))
    as (Hg & _ & Hsel); [done | reflexivity |].
  split; [exact Hg|].
  apply (Hsel 1%nat). split; [by eexists|].
  intros [|j] y Hj Hy; [|lia]. injection Hy as <-. reflexivity.
Defined.

(** ** JSON.parse and the scanning loop *)

Section Basics.

Implicit Types (s r p : jsstring) (c : N).

Lemma after_prefix_Some p s r : after_prefix p s = Some r ↔ s = p ++ r.
Proof.
  revert s. induction p as [|a p IH]; intros s; simpl.
  - split; [by intros [= ->] | by intros ->].
  - destruct s as [|b s]; [done|].
    destruct (N.eqb_spec a b) as [->|Hne].
    + rewrite IH. split; [by intros -> | by intros [= ->]].
    + split; [done | intros [= ? ?]; done].
Qed.

Lemma after_prefix_head p a c r :
  head p = Some a → a ≠ c → after_prefix p (c :: r) = None.
Proof.
  destruct p as [|x p]; [done|]. intros [= ->] Hne. simpl.
  by rewrite (proj2 (N.eqb_neq a c)).
Qed.

Lemma after_prefix_app p s r t :
  after_prefix p s = Some r → after_prefix p (s ++ t) = Some (r ++ t).
Proof.
  rewrite !after_prefix_Some. intros ->. by rewrite app_assoc.
Qed.

Lemma skip_ws_split s :
  ∃ w, s = w ++ skip_ws s ∧ Forall (λ c, json_ws c = true) w.
Proof.
  induction s as [|c s (w & Hw & Hf)]; simpl.
  - by exists [].
  - destruct (json_ws c) eqn:Hc.
    + exists (c :: w). split; [by rewrite Hw at 1 | by constructor].
    + by exists [].
Qed.

Lemma skip_ws_head s c r : skip_ws s = c :: r → json_ws c = false.
Proof.
  induction s as [|x s IH]; simpl; [done|].
  destruct (json_ws x) eqn:Hx; [done|]. by intros [= -> ->].
Qed.

Lemma skip_ws_start c r : json_ws c = false → skip_ws (c :: r) = c :: r.
Proof. simpl. by intros ->. Qed.

Lemma skip_ws_app s t : skip_ws s ≠ [] → skip_ws (s ++ t) = skip_ws s ++ t.
Proof.
  induction s as [|x s IH]; simpl; [done|].
  destruct (json_ws x); [done|]. done.
Qed.

Lemma skip_ws_length s : (length (skip_ws s) ≤ length s)%nat.
Proof.
  induction s as [|x s IH]; simpl; [done|]. destruct (json_ws x); simpl; lia.
Qed.

(** A text with a character that is no white space is not skipped whole. *)
Lemma skip_ws_not_nil s c : c ∈ s → json_ws c = false → skip_ws s ≠ [].
Proof.
  induction s as [|x s IH]; intros Hin Hc; [by inversion Hin|]. simpl.
  destruct (json_ws x) eqn:Hx; [|done].
  apply elem_of_cons in Hin as [->|Hin]; [congruence | by apply IH].
Qed.

End Basics.

Section NumberText.

Implicit Types (s r : jsstring) (c : N).

Lemma span_digits_split s ds rest :
  span_digits s = (ds, rest) →
  s = ds ++ rest ∧ Forall (λ c, json_digit c = true) ds ∧
  match rest with [] => True | c :: _ => json_digit c = false end.
Proof.
  revert ds rest. induction s as [|c s IH]; intros ds rest; simpl.
  - by intros [= <- <-].
  - destruct (json_digit c) eqn:Hc.
    + destruct (span_digits s) as [ds' rest'] eqn:Hs. intros [= <- <-].
      destruct (IH ds' rest' eq_refl) as (-> & Hf & Hr).
      split_and!; [done | by constructor | done].
    + intros [= <- <-]. split_and!; [done | constructor | done].
Qed.

Lemma span_digits_app s ds c rest t :
  span_digits s = (ds, c :: rest) → span_digits (s ++ t) = (ds, c :: rest ++ t).
Proof.
  revert ds. induction s as [|x s IH]; intros ds; simpl; [done|].
  destruct (json_digit x) eqn:Hx.
  - destruct (span_digits s) as [ds' rest'] eqn:Hs. intros [= <- ->].
    by rewrite (IH ds' eq_refl).
  - by intros [= <- <- <-].
Qed.

Lemma digit_number_char c : json_digit c = true → number_char c = true.
Proof. unfold number_char. by intros ->. Qed.

Lemma digits_number_chars ds :
  Forall (λ c, json_digit c = true) ds → Forall (λ c, number_char c = true) ds.
Proof. induction 1; constructor; auto using digit_number_char. Qed.

Lemma parse_int_part_split s i rest :
  parse_int_part s = Some (i, rest) →
  s = i ++ rest ∧ Forall (λ c, number_char c = true) i ∧ i ≠ [].
Proof.
  unfold parse_int_part. destruct s as [|c s]; [done|].
  destruct (c =? 48)%N eqn:H0.
  - intros [= <- <-]. split_and!; [done| |done].
    constructor; [|constructor]. chars. by subst.
  - destruct (json_digit c) eqn:Hc; [|done].
    destruct (span_digits s) as [ds r] eqn:Hs. intros [= <- <-].
    destruct (span_digits_split s ds r Hs) as (-> & Hf & _).
    split_and!; [done| |done].
    constructor; [by apply digit_number_char | by apply digits_number_chars].
Qed.

Lemma parse_frac_split s f rest :
  parse_frac s = Some (f, rest) →
  s = f ++ rest ∧ Forall (λ c, number_char c = true) f.
Proof.
  unfold parse_frac. destruct s as [|c s]; [by intros [= <- <-]|].
  destruct (c =? 46)%N eqn:Hd.
  - destruct (span_digits s) as [[|d ds] r] eqn:Hs; [done|]. intros [= <- <-].
    destruct (span_digits_split s _ r Hs) as (-> & Hf & _).
    split; [done|]. constructor; [|by apply digits_number_chars].
    chars. by subst.
  - intros [= <- <-]. split; [done | constructor].
Qed.

Lemma parse_exp_split s e rest :
  parse_exp s = Some (e, rest) →
  s = e ++ rest ∧ Forall (λ c, number_char c = true) e.
Proof.
  unfold parse_exp. destruct s as [|c s]; [by intros [= <- <-]|].
  destruct ((c =? 101) || (c =? 69))%N eqn:He.
  - assert (Hc : number_char c = true).
    { unfold number_char. chars; subst; reflexivity. }
    destruct s as [|c2 s2].
    + simpl. done.
    + destruct ((c2 =? 43) || (c2 =? 45))%N eqn:Hs.
      * destruct (span_digits s2) as [[|d ds] r] eqn:Hd; [done|]. intros [= <- <-].
        destruct (span_digits_split s2 _ r Hd) as (-> & Hf & _).
        split; [done|]. constructor; [done|]. simpl. constructor.
        -- unfold number_char. chars; subst; reflexivity.
        -- by apply digits_number_chars.
      * destruct (span_digits (c2 :: s2)) as [[|d ds] r] eqn:Hd; [done|]. intros [= <- <-].
        destruct (span_digits_split (c2 :: s2) _ r Hd) as (-> & Hf & _).
        split; [done|]. constructor; [done|]. simpl. by apply digits_number_chars.
  - intros [= <- <-]. split; [done | constructor].
Qed.

(** A number literal is a non-empty prefix made of number characters. *)
Lemma parse_number_split s lit rest :
  parse_number s = Some (lit, rest) →
  s = lit ++ rest ∧ Forall (λ c, number_char c = true) lit ∧ lit ≠ [].
Proof.
  unfold parse_number.
  set (pre := match s with
              | c :: r => if (c =? 45)%N then ([c], r) else ([], s)
              | [] => ([], s) end).
  assert (Hpre : s = pre.1 ++ pre.2 ∧ Forall (λ c, number_char c = true) pre.1).
  { unfold pre. destruct s as [|c r]; [by split; [|constructor]|].
    destruct (c =? 45)%N eqn:Hm; simpl; (split; [done|]); [|constructor].
    constructor; [|constructor]. chars. by subst. }
  destruct pre as [sign s1]. simpl in Hpre. destruct Hpre as [-> Hsign].
  destruct (parse_int_part s1) as [[i s2]|] eqn:Hi; [|done]. simpl.
  destruct (parse_frac s2) as [[f s3]|] eqn:Hf; [|done]. simpl.
  destruct (parse_exp s3) as [[e s4]|] eqn:He; [|done]. simpl.
  intros [= <- <-].
  destruct (parse_int_part_split _ _ _ Hi) as (-> & Hi1 & Hi2).
  destruct (parse_frac_split _ _ _ Hf) as (-> & Hf1).
  destruct (parse_exp_split _ _ _ He) as (-> & He1).
  split_and!.
  - by rewrite <- !app_assoc.
  - by rewrite !Forall_app.
  - destruct sign, i; done.
Qed.

End NumberText.

Section Scan.

Implicit Types (s r k : jsstring) (c : N) (d : Z) (st : scan_state).

Lemma scan_over_app st a b :
  scan_over st (a ++ b) =
    match scan_over st a with Some st' => scan_over st' b | None => None end.
Proof.
  revert st. induction a as [|c a IH]; intros st; simpl; [done|].
  destruct (scan_char st c) as [st' stop]. destruct stop; [done | apply IH].
Qed.

Lemma scan_from_app st i a b st' :
  scan_over st a = Some st' →
  scan_from st i (a ++ b) = scan_from st' (i + length a) b.
Proof.
  revert st i. induction a as [|c a IH]; intros st i; simpl.
  - intros [= ->]. f_equal. lia.
  - destruct (scan_char st c) as [st1 stop]. destruct stop; [done|].
    intros H. rewrite (IH _ _ H). f_equal. lia.
Qed.

Lemma scan_char_plain d c : plain c = true → scan_char (outside d) c = (outside d, false).
Proof.
  unfold plain, scan_char. simpl. intros H.
  apply andb_true_iff in H as [H Hr]. apply andb_true_iff in H as [Hq Hl].
  apply negb_true_iff in Hq, Hl, Hr. by rewrite Hq, Hl, Hr.
Qed.

Lemma scan_over_plain d s :
  Forall (λ c, plain c = true) s → scan_over (outside d) s = Some (outside d).
Proof.
  induction 1 as [|c s Hc _ IH]; simpl; [done|].
  by rewrite (scan_char_plain d c Hc).
Qed.

Lemma ws_plain c : json_ws c = true → plain c = true.
Proof. unfold json_ws, plain. intros H. chars; subst; reflexivity. Qed.

Lemma number_char_plain c : number_char c = true → plain c = true.
Proof.
  unfold number_char, json_digit, plain, quote, lbrace, rbrace. intros H.
  chars; subst; try reflexivity.
  rewrite !(proj2 (N.eqb_neq _ _)) by lia. reflexivity.
Qed.

Lemma Forall_plain_ws w :
  Forall (λ c, json_ws c = true) w → Forall (λ c, plain c = true) w.
Proof. induction 1; constructor; auto using ws_plain. Qed.

Lemma Forall_plain_number w :
  Forall (λ c, number_char c = true) w → Forall (λ c, plain c = true) w.
Proof. induction 1; constructor; auto using number_char_plain. Qed.

(** Inside a string: a character that is neither quote nor backslash. *)
Lemma scan_char_inside d c :
  c ≠ quote → c ≠ backslash → scan_char (inside d) c = (inside d, false).
Proof.
  intros Hq Hb. unfold scan_char. simpl.
  by rewrite (proj2 (N.eqb_neq _ _) Hb), (proj2 (N.eqb_neq _ _) Hq).
Qed.

(** Inside a string: a backslash and the character behind it. *)
Lemma scan_over_escape d e r (res : option scan_state) :
  scan_over (inside d) r = res → scan_over (inside d) (backslash :: e :: r) = res.
Proof. intros <-. reflexivity. Qed.

Lemma hex_value_inside d c x :
  hex_value c = Some x → scan_char (inside d) c = (inside d, false).
Proof.
  intros Hx. apply scan_char_inside.
  - intros ->. discriminate Hx.
  - intros ->. discriminate Hx.
Qed.

(** The text of a string literal behind its opening quote is scanned in
    string mode up to its closing quote. *)
Lemma parse_string_scan s str rest :
  parse_string s = Some (str, rest) →
  ∃ k, s = k ++ rest ∧ k ≠ [] ∧ ∀ d, scan_over (inside d) k = Some (outside d).
Proof.
  remember (length s) as n eqn:Hn. revert s str rest Hn.
  induction n as [n IH] using lt_wf_ind. intros s str rest Hn H.
  destruct s as [|c r]; [done|]. simpl in H.
  destruct (c =? quote)%N eqn:Hq.
  { injection H as <- <-. chars. subst c. exists [quote]. split_and!; done. }
  destruct (c =? backslash)%N eqn:Hb.
  { chars. subst c. destruct r as [|e r1]; [done|].
    destruct (simple_escape e) as [x|] eqn:He.
    - destruct (parse_string r1) as [[str1 rest1]|] eqn:Hr; [|done].
      injection H as <- <-.
      destruct (IH (length r1) ltac:(simpl in Hn; lia) r1 str1 rest1 eq_refl Hr)
        as (k & -> & _ & Hk).
      exists (backslash :: e :: k). split_and!; [done..|].
      intros d. apply scan_over_escape, Hk.
    - destruct (e =? 117)%N eqn:Hu; [|done].
      destruct r1 as [|h1 [|h2 [|h3 [|h4 r2]]]]; try done.
      destruct (hex_value h1) as [a1|] eqn:H1; [|done].
      destruct (hex_value h2) as [a2|] eqn:H2; [|done].
      destruct (hex_value h3) as [a3|] eqn:H3; [|done].
      destruct (hex_value h4) as [a4|] eqn:H4; [|done].
      destruct (parse_string r2) as [[str1 rest1]|] eqn:Hr; [|done].
      injection H as <- <-.
      destruct (IH (length r2) ltac:(simpl in Hn; lia) r2 str1 rest1 eq_refl Hr)
        as (k & -> & _ & Hk).
      exists (backslash :: e :: h1 :: h2 :: h3 :: h4 :: k). split_and!; [done..|].
      intros d. apply scan_over_escape. simpl.
      rewrite (hex_value_inside d h1 a1 H1), (hex_value_inside d h2 a2 H2),
        (hex_value_inside d h3 a3 H3), (hex_value_inside d h4 a4 H4). apply Hk. }
  destruct (c <? 32)%N eqn:Hctl; [done|].
  destruct (parse_string r) as [[str1 rest1]|] eqn:Hr; [|done].
  injection H as <- <-.
  destruct (IH (length r) ltac:(simpl in Hn; lia) r str1 rest1 eq_refl Hr)
    as (k & -> & _ & Hk).
  exists (c :: k). split_and!; [done..|].
  intros d. simpl. chars. rewrite (scan_char_inside d c) by done. apply Hk.
Qed.

End Scan.

Section ScanValue.

Implicit Types (s r k : jsstring) (c : N) (d : Z).

Lemma scan_ok_app a b : scan_ok a → scan_ok b → scan_ok (a ++ b).
Proof. intros Ha Hb d Hd. by rewrite scan_over_app, Ha, Hb. Qed.

Lemma scan_ok_plain k : Forall (λ c, plain c = true) k → scan_ok k.
Proof. intros Hk d _. by apply scan_over_plain. Qed.

Lemma scan_ok_char c : plain c = true → scan_ok [c].
Proof. intros Hc. apply scan_ok_plain. by constructor. Qed.

Lemma scan_ok_ws w : Forall (λ c, json_ws c = true) w → scan_ok w.
Proof. intros Hw. by apply scan_ok_plain, Forall_plain_ws. Qed.

Lemma scan_ok_string k :
  (∀ d, scan_over (inside d) k = Some (outside d)) → scan_ok (quote :: k).
Proof. intros Hk d _. simpl. apply Hk. Qed.

Lemma scan_ok_braces body : scan_ok body → scan_ok (lbrace :: body ++ [rbrace]).
Proof.
  intros Hb d Hd.
  change (scan_over (outside d) (lbrace :: body ++ [rbrace]))
    with (scan_over (outside (d + 1)) (body ++ [rbrace])).
  rewrite scan_over_app, Hb by lia.
  change (scan_over (outside (d + 1)) [rbrace])
    with (if d + 1 - 1 =? 0 then None else Some (outside (d + 1 - 1))).
  replace (d + 1 - 1) with d by lia.
  by rewrite (proj2 (Z.eqb_neq d 0)) by lia.
Qed.

Lemma parse_scan f :
  (∀ s v rest, parse_value f s = Some (v, rest) →
     ∃ k, s = k ++ rest ∧ k ≠ [] ∧ scan_ok k ∧
          (∀ r0, s = lbrace :: r0 →
             ∃ body, k = lbrace :: body ++ [rbrace] ∧ scan_ok body)) ∧
  (∀ s ms rest, parse_members f s = Some (ms, rest) →
     ∃ body, s = body ++ rbrace :: rest ∧ scan_ok body) ∧
  (∀ s vs rest, parse_elements f s = Some (vs, rest) →
     ∃ k, s = k ++ rest ∧ scan_ok k).
Proof.
  induction f as [|f (IHv & IHm & IHe)]; [by split_and!|]. split_and!.
  - (* a value *)
    intros s v rest H. cbn [parse_value] in H. destruct s as [|c r]; [done|].
    destruct (c =? lbrace)%N eqn:Hlb.
    { chars. subst c. destruct (skip_ws_split r) as (w & Hr & Hw).
      destruct (skip_ws r) as [|c' r'] eqn:Hskip; [done|].
      assert (Hobj : ∃ body, r = body ++ rbrace :: rest ∧ scan_ok body).
      { destruct (c' =? rbrace)%N eqn:Hrb.
        - injection H as <- <-. chars. subst c'. exists w. split; [done|]. by apply scan_ok_ws.
        - destruct (parse_members f (c' :: r')) as [[ms rest']|] eqn:Hm; [|done].
          injection H as <- <-. destruct (IHm _ _ _ Hm) as (body & Hb & Hok).
          exists (w ++ body). split; [rewrite Hr, Hb; solve_app|].
          apply scan_ok_app; [by apply scan_ok_ws | done]. }
      destruct Hobj as (body & -> & Hok).
      exists (lbrace :: body ++ [rbrace]). split_and!.
      - solve_app.
      - done.
      - by apply scan_ok_braces.
      - intros r0 _. by exists body. }
    assert (Hno : ∀ r0 : jsstring, c :: r ≠ lbrace :: r0).
    { intros r0 [= -> _]. by rewrite N.eqb_refl in Hlb. }
    destruct (c =? lbracket)%N eqn:Hlk.
    { chars. subst c. destruct (skip_ws_split r) as (w & Hr & Hw).
      destruct (skip_ws r) as [|c' r'] eqn:Hskip; [done|].
      destruct (c' =? rbracket)%N eqn:Hrk.
      - injection H as <- <-. chars. subst c'.
        exists (lbracket :: w ++ [rbracket]). split_and!.
        + rewrite Hr; solve_app.
        + done.
        + apply (scan_ok_app [lbracket]); [by apply scan_ok_char|].
          apply scan_ok_app; [by apply scan_ok_ws | by apply scan_ok_char].
        + intros r0 Hr0. by destruct (Hno r0).
      - destruct (parse_elements f (c' :: r')) as [[vs rest']|] eqn:He; [|done].
        injection H as <- <-. destruct (IHe _ _ _ He) as (k & Hk & Hok).
        exists (lbracket :: w ++ k). split_and!.
        + rewrite Hr, Hk; solve_app.
        + done.
        + apply (scan_ok_app [lbracket]); [by apply scan_ok_char|].
          apply scan_ok_app; [by apply scan_ok_ws | done].
        + intros r0 Hr0. by destruct (Hno r0). }
    destruct (c =? quote)%N eqn:Hq.
    { chars. subst c. destruct (parse_string r) as [[str rest']|] eqn:Hs; [|done].
      injection H as <- <-. destruct (parse_string_scan _ _ _ Hs) as (k & -> & _ & Hk).
      exists (quote :: k). split_and!; [done | done | by apply scan_ok_string |].
      intros r0 Hr0. by destruct (Hno r0). }
    destruct (after_prefix (js "true") (c :: r)) as [rest'|] eqn:Ht.
    { injection H as <- <-. apply after_prefix_Some in Ht.
      exists (js "true"). split_and!; [done | done | |].
      - apply scan_ok_plain. repeat constructor.
      - intros r0 Hr0. by destruct (Hno r0). }
    destruct (after_prefix (js "false") (c :: r)) as [rest'|] eqn:Hf.
    { injection H as <- <-. apply after_prefix_Some in Hf.
      exists (js "false"). split_and!; [done | done | |].
      - apply scan_ok_plain. repeat constructor.
      - intros r0 Hr0. by destruct (Hno r0). }
    destruct (after_prefix (js "null") (c :: r)) as [rest'|] eqn:Hn.
    { injection H as <- <-. apply after_prefix_Some in Hn.
      exists (js "null"). split_and!; [done | done | |].
      - apply scan_ok_plain. repeat constructor.
      - intros r0 Hr0. by destruct (Hno r0). }
    destruct (parse_number (c :: r)) as [[lit rest']|] eqn:Hnum; [|done].
    injection H as <- <-. destruct (parse_number_split _ _ _ Hnum) as (Hs & Hlit & Hne).
    exists lit. split_and!; [done | done | |].
    + by apply scan_ok_plain, Forall_plain_number.
    + intros r0 Hr0. by destruct (Hno r0).
  - (* the members of an object *)
    intros s ms rest H. cbn [parse_members] in H. destruct s as [|c r]; [done|].
    destruct (c =? quote)%N eqn:Hq; [|done]. chars. subst c.
    destruct (parse_string r) as [[key r1]|] eqn:Hkey; [|done].
    destruct (parse_string_scan _ _ _ Hkey) as (kk & -> & _ & Hkk).
    destruct (skip_ws_split r1) as (w1 & Hr1 & Hw1).
    destruct (skip_ws r1) as [|c2 r2] eqn:Hs1; [done|].
    destruct (c2 =? colon)%N eqn:Hc; [|done]. chars. subst c2.
    destruct (skip_ws_split r2) as (w2 & Hr2 & Hw2).
    destruct (parse_value f (skip_ws r2)) as [[v r3]|] eqn:Hv; [|done].
    destruct (IHv _ _ _ Hv) as (kv & Hkv & _ & Hokv & _).
    destruct (skip_ws_split r3) as (w3 & Hr3 & Hw3).
    destruct (skip_ws r3) as [|c4 r4] eqn:Hs3; [done|].
    assert (Hhead : scan_ok (quote :: kk ++ w1 ++ [colon] ++ w2 ++ kv ++ w3)).
    { apply (scan_ok_app (quote :: kk)); [by apply scan_ok_string|].
      apply scan_ok_app; [by apply scan_ok_ws|].
      apply scan_ok_app; [by apply scan_ok_char|].
      apply scan_ok_app; [by apply scan_ok_ws|].
      apply scan_ok_app; [done | by apply scan_ok_ws]. }
    assert (Hs : quote :: kk ++ r1 =
                 (quote :: kk ++ w1 ++ [colon] ++ w2 ++ kv ++ w3) ++ c4 :: r4).
    { rewrite Hr1, Hr2, Hkv, Hr3. solve_app. }
    rewrite Hs. clear Hs.
    destruct (c4 =? comma)%N eqn:Hcm.
    + chars. subst c4. destruct (skip_ws_split r4) as (w4 & Hr4 & Hw4).
      destruct (parse_members f (skip_ws r4)) as [[ms' r5]|] eqn:Hm; [|done].
      injection H as <- <-. destruct (IHm _ _ _ Hm) as (body & Hb & Hok).
      exists ((quote :: kk ++ w1 ++ [colon] ++ w2 ++ kv ++ w3) ++ [comma] ++ w4 ++ body).
      split.
      * rewrite Hr4, Hb. solve_app.
      * apply scan_ok_app; [done|]. apply scan_ok_app; [by apply scan_ok_char|].
        apply scan_ok_app; [by apply scan_ok_ws | done].
    + destruct (c4 =? rbrace)%N eqn:Hrb; [|done]. injection H as <- <-.
      chars. subst c4. by eexists.
  - (* the elements of an array *)
    intros s vs rest H. cbn [parse_elements] in H.
    destruct (parse_value f s) as [[v r1]|] eqn:Hv; [|done].
    destruct (IHv _ _ _ Hv) as (kv & -> & _ & Hokv & _).
    destruct (skip_ws_split r1) as (w1 & Hr1 & Hw1).
    destruct (skip_ws r1) as [|c r2] eqn:Hs1; [done|].
    destruct (c =? comma)%N eqn:Hcm.
    + chars. subst c. destruct (skip_ws_split r2) as (w2 & Hr2 & Hw2).
      destruct (parse_elements f (skip_ws r2)) as [[vs' r3]|] eqn:He; [|done].
      injection H as <- <-. destruct (IHe _ _ _ He) as (k & Hk & Hok).
      exists (kv ++ w1 ++ [comma] ++ w2 ++ k). split.
      * rewrite Hr1, Hr2, Hk. solve_app.
      * apply scan_ok_app; [done|]. apply scan_ok_app; [by apply scan_ok_ws|].
        apply scan_ok_app; [by apply scan_ok_char|].
        apply scan_ok_app; [by apply scan_ok_ws | done].
    + destruct (c =? rbracket)%N eqn:Hrk; [|done]. injection H as <- <-.
      chars. subst c. exists (kv ++ w1 ++ [rbracket]). split.
      * rewrite Hr1. solve_app.
      * apply scan_ok_app; [done|]. apply scan_ok_app; [by apply scan_ok_ws|].
        by apply scan_ok_char.
Qed.

End ScanValue.

Section Fuel.

Implicit Types (s r k : jsstring) (c : N).

(** More fuel does not change a result. *)
Lemma parse_fuel_S f :
  (∀ s res, parse_value f s = Some res → parse_value (S f) s = Some res) ∧
  (∀ s res, parse_members f s = Some res → parse_members (S f) s = Some res) ∧
  (∀ s res, parse_elements f s = Some res → parse_elements (S f) s = Some res).
Proof.
  induction f as [|f (IHv & IHm & IHe)]; [by split_and!|]. split_and!.
  - intros s res H. remember (S f) as g eqn:Hg in |- *. cbn [parse_value] in H |- *. subst g. destruct s as [|c r]; [done|].
    destruct (c =? lbrace)%N.
    { destruct (skip_ws r) as [|c' r']; [done|]. destruct (c' =? rbrace)%N; [done|].
      destruct (parse_members f (c' :: r')) as [[ms rest]|] eqn:Hm; [|done].
      by rewrite (IHm _ _ Hm). }
    destruct (c =? lbracket)%N.
    { destruct (skip_ws r) as [|c' r']; [done|]. destruct (c' =? rbracket)%N; [done|].
      destruct (parse_elements f (c' :: r')) as [[vs rest]|] eqn:He; [|done].
      by rewrite (IHe _ _ He). }
    done.
  - intros s res H. remember (S f) as g eqn:Hg in |- *. cbn [parse_members] in H |- *. subst g. destruct s as [|c r]; [done|].
    destruct (c =? quote)%N; [|done].
    destruct (parse_string r) as [[key r1]|]; [|done].
    destruct (skip_ws r1) as [|c2 r2]; [done|].
    destruct (c2 =? colon)%N; [|done].
    destruct (parse_value f (skip_ws r2)) as [[v r3]|] eqn:Hv; [|done].
    rewrite (IHv _ _ Hv).
    destruct (skip_ws r3) as [|c4 r4]; [done|].
    destruct (c4 =? comma)%N; [|done].
    destruct (parse_members f (skip_ws r4)) as [[ms r5]|] eqn:Hm; [|done].
    by rewrite (IHm _ _ Hm).
  - intros s res H. remember (S f) as g eqn:Hg in |- *. cbn [parse_elements] in H |- *. subst g.
    destruct (parse_value f s) as [[v r1]|] eqn:Hv; [|done].
    rewrite (IHv _ _ Hv).
    destruct (skip_ws r1) as [|c r2]; [done|].
    destruct (c =? comma)%N; [|done].
    destruct (parse_elements f (skip_ws r2)) as [[vs r3]|] eqn:He; [|done].
    by rewrite (IHe _ _ He).
Qed.

Lemma parse_value_fuel_le f f' s res :
  (f ≤ f')%nat → parse_value f s = Some res → parse_value f' s = Some res.
Proof.
  induction 1 as [|f' _ IH]; [done|]. intros H. by apply parse_fuel_S, IH.
Qed.

End Fuel.

Section Frame.

Implicit Types (s r k t : jsstring) (c : N).

Lemma parse_string_app s str rest t :
  parse_string s = Some (str, rest) → parse_string (s ++ t) = Some (str, rest ++ t).
Proof.
  remember (length s) as n eqn:Hn. revert s str rest Hn.
  induction n as [n IH] using lt_wf_ind. intros s str rest Hn H.
  destruct s as [|c r]; [done|]. simpl in H |- *.
  destruct (c =? quote)%N; [by injection H as <- <-|].
  destruct (c =? backslash)%N.
  { destruct r as [|e r1]; [done|]. simpl.
    destruct (simple_escape e) as [x|].
    - destruct (parse_string r1) as [[str1 rest1]|] eqn:Hr; [|done].
      rewrite (IH (length r1) ltac:(simpl in Hn; lia) r1 str1 rest1 eq_refl Hr).
      by injection H as <- <-.
    - destruct (e =? 117)%N; [|done].
      destruct r1 as [|h1 [|h2 [|h3 [|h4 r2]]]]; try done. simpl.
      destruct (hex_value h1); [|done]. destruct (hex_value h2); [|done].
      destruct (hex_value h3); [|done]. destruct (hex_value h4); [|done].
      destruct (parse_string r2) as [[str1 rest1]|] eqn:Hr; [|done].
      rewrite (IH (length r2) ltac:(simpl in Hn; lia) r2 str1 rest1 eq_refl Hr).
      by injection H as <- <-. }
  destruct (c <? 32)%N; [done|].
  destruct (parse_string r) as [[str1 rest1]|] eqn:Hr; [|done].
  rewrite (IH (length r) ltac:(simpl in Hn; lia) r str1 rest1 eq_refl Hr).
  by injection H as <- <-.
Qed.

Lemma span_digits_app_ne s ds rest t :
  span_digits s = (ds, rest) → rest ≠ [] → span_digits (s ++ t) = (ds, rest ++ t).
Proof. destruct rest as [|c rest]; [done|]. intros H _. by apply span_digits_app. Qed.

Lemma parse_int_part_app s i rest t :
  parse_int_part s = Some (i, rest) → rest ≠ [] →
  parse_int_part (s ++ t) = Some (i, rest ++ t).
Proof.
  unfold parse_int_part. destruct s as [|c s]; [done|]. simpl.
  destruct (c =? 48)%N; [by intros [= <- <-]|].
  destruct (json_digit c); [|done].
  destruct (span_digits s) as [ds r] eqn:Hs. intros [= <- <-] Hne.
  by rewrite (span_digits_app_ne _ _ _ t Hs Hne).
Qed.

Lemma parse_frac_app s f rest t :
  parse_frac s = Some (f, rest) → rest ≠ [] →
  parse_frac (s ++ t) = Some (f, rest ++ t).
Proof.
  unfold parse_frac. destruct s as [|c s]; [by intros [= <- <-]|]. simpl.
  destruct (c =? 46)%N; [|by intros [= <- <-]].
  destruct (span_digits s) as [[|d ds] r] eqn:Hs; [done|]. intros [= <- <-] Hne.
  by rewrite (span_digits_app_ne _ _ _ t Hs Hne).
Qed.

Lemma parse_exp_app s e rest t :
  parse_exp s = Some (e, rest) → rest ≠ [] →
  parse_exp (s ++ t) = Some (e, rest ++ t).
Proof.
  unfold parse_exp. destruct s as [|c s]; [by intros [= <- <-]|]. simpl.
  destruct ((c =? 101) || (c =? 69))%N; [|by intros [= <- <-]].
  destruct s as [|c2 s2]; [done|]. simpl.
  destruct ((c2 =? 43) || (c2 =? 45))%N.
  - destruct (span_digits s2) as [[|d ds] r] eqn:Hs; [done|]. intros [= <- <-] Hne.
    by rewrite (span_digits_app_ne _ _ _ t Hs Hne).
  - destruct (span_digits (c2 :: s2)) as [[|d ds] r] eqn:Hs; [done|]. intros [= <- <-] Hne.
    change (c2 :: s2 ++ t) with ((c2 :: s2) ++ t).
    by rewrite (span_digits_app_ne _ _ _ t Hs Hne).
Qed.

Lemma parse_frac_rest s f rest : parse_frac s = Some (f, rest) → rest ≠ [] → s ≠ [].
Proof. destruct s; [by intros [= <- <-]|done]. Qed.

Lemma parse_exp_rest s e rest : parse_exp s = Some (e, rest) → rest ≠ [] → s ≠ [].
Proof. destruct s; [by intros [= <- <-]|done]. Qed.

Lemma parse_number_app s lit rest t :
  parse_number s = Some (lit, rest) → rest ≠ [] →
  parse_number (s ++ t) = Some (lit, rest ++ t).
Proof.
  unfold parse_number. intros H Hne.
  destruct s as [|c r]; [done|].
  assert (Hgen : ∀ sign s1,
    (parse_int_part s1 ≫= λ '(i, s2), parse_frac s2 ≫= λ '(f, s3),
       parse_exp s3 ≫= λ '(e, s4), Some (sign ++ i ++ f ++ e, s4)) = Some (lit, rest) →
    (parse_int_part (s1 ++ t) ≫= λ '(i, s2), parse_frac s2 ≫= λ '(f, s3),
       parse_exp s3 ≫= λ '(e, s4), Some (sign ++ i ++ f ++ e, s4)) = Some (lit, rest ++ t)).
  { intros sign s1 H1.
    destruct (parse_int_part s1) as [[i s2]|] eqn:Hi; [|done]. simpl in H1.
    destruct (parse_frac s2) as [[f s3]|] eqn:Hf; [|done]. simpl in H1.
    destruct (parse_exp s3) as [[e s4]|] eqn:He; [|done]. simpl in H1.
    injection H1 as <- <-.
    pose proof (parse_exp_rest _ _ _ He Hne) as Hs3.
    pose proof (parse_frac_rest _ _ _ Hf Hs3) as Hs2.
    rewrite (parse_int_part_app _ _ _ t Hi Hs2). simpl.
    rewrite (parse_frac_app _ _ _ t Hf Hs3). simpl.
    by rewrite (parse_exp_app _ _ _ t He Hne). }
  simpl in H |- *.
  destruct (c =? 45)%N; [exact (Hgen [c] r H) | exact (Hgen [] (c :: r) H)].
Qed.

Lemma parse_number_head c r lit rest :
  parse_number (c :: r) = Some (lit, rest) → c = 45%N ∨ json_digit c = true.
Proof.
  unfold parse_number. destruct (c =? 45)%N eqn:Hm; [chars; by left|].
  unfold parse_int_part. destruct (c =? 48)%N eqn:H0.
  - chars. subst. by right.
  - destruct (json_digit c); [by right | done].
Qed.

(** A value that is read from [s] is read from [s ++ t] as well, provided
    that something follows it in [s] or that it is not a number (whose
    literal could go on into [t]). *)
Lemma parse_frame f :
  (∀ s v rest t, parse_value f s = Some (v, rest) →
     rest ≠ [] ∨ (∀ lit, v ≠ JNumber lit) →
     parse_value f (s ++ t) = Some (v, rest ++ t)) ∧
  (∀ s ms rest t, parse_members f s = Some (ms, rest) →
     parse_members f (s ++ t) = Some (ms, rest ++ t)) ∧
  (∀ s vs rest t, parse_elements f s = Some (vs, rest) →
     parse_elements f (s ++ t) = Some (vs, rest ++ t)).
Proof.
  induction f as [|f (IHv & IHm & IHe)]; [by split_and!|]. split_and!.
  - intros s v rest t H Hcond. cbn [parse_value] in H.
    destruct s as [|c r]; [done|].
    change ((c :: r) ++ t) with (c :: (r ++ t)). cbn [parse_value].
    destruct (c =? lbrace)%N eqn:Hlb.
    { destruct (skip_ws r) as [|c' r'] eqn:Hskip; [done|].
      rewrite skip_ws_app, Hskip by (by rewrite Hskip). simpl.
      destruct (c' =? rbrace)%N; [by injection H as <- <-|].
      destruct (parse_members f (c' :: r')) as [[ms rest']|] eqn:Hm; [|done].
      injection H as <- <-.
      change (c' :: r' ++ t) with ((c' :: r') ++ t). by rewrite (IHm _ _ _ t Hm). }
    destruct (c =? lbracket)%N eqn:Hlk.
    { destruct (skip_ws r) as [|c' r'] eqn:Hskip; [done|].
      rewrite skip_ws_app, Hskip by (by rewrite Hskip). simpl.
      destruct (c' =? rbracket)%N; [by injection H as <- <-|].
      destruct (parse_elements f (c' :: r')) as [[vs rest']|] eqn:He; [|done].
      injection H as <- <-.
      change (c' :: r' ++ t) with ((c' :: r') ++ t). by rewrite (IHe _ _ _ t He). }
    destruct (c =? quote)%N eqn:Hq.
    { destruct (parse_string r) as [[str rest']|] eqn:Hs; [|done].
      injection H as <- <-. by rewrite (parse_string_app _ _ _ t Hs). }
    change (c :: (r ++ t)) with ((c :: r) ++ t).
    destruct (after_prefix (js "true") (c :: r)) as [rest'|] eqn:Ht.
    { injection H as <- <-. by rewrite (after_prefix_app _ _ _ t Ht). }
    destruct (after_prefix (js "false") (c :: r)) as [rest'|] eqn:Hf.
    { injection H as <- <-. apply after_prefix_Some in Hf. rewrite Hf. reflexivity. }
    destruct (after_prefix (js "null") (c :: r)) as [rest'|] eqn:Hn.
    { injection H as <- <-. apply after_prefix_Some in Hn. rewrite Hn. reflexivity. }
    destruct (parse_number (c :: r)) as [[lit rest']|] eqn:Hnum; [|done].
    injection H as <- <-.
    destruct Hcond as [Hne|Hnot]; [|by destruct (Hnot lit)].
    rewrite (parse_number_app _ _ _ t Hnum Hne).
    destruct (parse_number_head _ _ _ _ Hnum) as [->|Hd]; [reflexivity|].
    unfold json_digit in Hd. chars.
    change ((c :: r) ++ t) with (c :: (r ++ t)).
    rewrite (after_prefix_head (js "true") 116), (after_prefix_head (js "false") 102),
      (after_prefix_head (js "null") 110); [done|..]; try reflexivity; lia.
  - intros s ms rest t H. cbn [parse_members] in H.
    destruct s as [|c r]; [done|].
    change ((c :: r) ++ t) with (c :: (r ++ t)). cbn [parse_members].
    destruct (c =? quote)%N; [|done].
    destruct (parse_string r) as [[key r1]|] eqn:Hkey; [|done].
    rewrite (parse_string_app _ _ _ t Hkey).
    destruct (skip_ws r1) as [|c2 r2] eqn:Hs1; [done|].
    rewrite skip_ws_app, Hs1 by (by rewrite Hs1). simpl.
    destruct (c2 =? colon)%N; [|done].
    destruct (parse_value f (skip_ws r2)) as [[v r3]|] eqn:Hv; [|done].
    destruct (skip_ws r3) as [|c4 r4] eqn:Hs3; [done|].
    assert (Hr3 : r3 ≠ []) by (intros ->; done).
    assert (Hr2 : skip_ws r2 ≠ []).
    { intros Hnil. rewrite Hnil in Hv. by destruct f. }
    rewrite skip_ws_app by done.
    rewrite (IHv _ _ _ t Hv) by (by left).
    rewrite skip_ws_app, Hs3 by (by rewrite Hs3). simpl.
    destruct (c4 =? comma)%N; [|by destruct (c4 =? rbrace)%N; [injection H as <- <-|]].
    destruct (parse_members f (skip_ws r4)) as [[ms' r5]|] eqn:Hm; [|done].
    assert (Hr4 : skip_ws r4 ≠ []).
    { intros Hnil. rewrite Hnil in Hm. by destruct f. }
    rewrite skip_ws_app by done. rewrite (IHm _ _ _ t Hm). by injection H as <- <-.
  - intros s vs rest t H. cbn [parse_elements] in H |- *.
    destruct (parse_value f s) as [[v r1]|] eqn:Hv; [|done].
    destruct (skip_ws r1) as [|c r2] eqn:Hs1; [done|].
    assert (Hr1 : r1 ≠ []) by (intros ->; done).
    rewrite (IHv _ _ _ t Hv) by (by left).
    rewrite skip_ws_app, Hs1 by (by rewrite Hs1). simpl.
    destruct (c =? comma)%N; [|by destruct (c =? rbracket)%N; [injection H as <- <-|]].
    destruct (parse_elements f (skip_ws r2)) as [[vs' r3]|] eqn:He; [|done].
    assert (Hr2 : skip_ws r2 ≠ []).
    { intros Hnil. rewrite Hnil in He. destruct f; [done|]. by cbn in He; destruct f. }
    rewrite skip_ws_app by done. rewrite (IHe _ _ _ t He). by injection H as <- <-.
Qed.

End Frame.

Section WholeText.

Implicit Types (s r k t obj pre post : jsstring) (c : N) (v : json).

(** A value that starts with neither brace, bracket nor quote is a literal
    or a number: its text has no opening brace. *)
Lemma scalar_no_brace f c r v rest :
  parse_value f (c :: r) = Some (v, rest) →
  c ≠ lbrace → c ≠ lbracket → c ≠ quote →
  ∃ k, c :: r = k ++ rest ∧ lbrace ∉ k.
Proof.
  intros H Hlb Hlk Hq. destruct f as [|f]; [done|]. cbn [parse_value] in H.
  rewrite (proj2 (N.eqb_neq _ _) Hlb), (proj2 (N.eqb_neq _ _) Hlk),
    (proj2 (N.eqb_neq _ _) Hq) in H.
  destruct (after_prefix (js "true") (c :: r)) as [rest'|] eqn:Ht.
  { injection H as <- <-. apply after_prefix_Some in Ht. exists (js "true").
    split; [done|]. intros Hin. apply list_elem_of_In in Hin. simpl in Hin.
    unfold lbrace in Hin. intuition discriminate. }
  destruct (after_prefix (js "false") (c :: r)) as [rest'|] eqn:Hf.
  { injection H as <- <-. apply after_prefix_Some in Hf. exists (js "false").
    split; [done|]. intros Hin. apply list_elem_of_In in Hin. simpl in Hin.
    unfold lbrace in Hin. intuition discriminate. }
  destruct (after_prefix (js "null") (c :: r)) as [rest'|] eqn:Hn.
  { injection H as <- <-. apply after_prefix_Some in Hn. exists (js "null").
    split; [done|]. intros Hin. apply list_elem_of_In in Hin. simpl in Hin.
    unfold lbrace in Hin. intuition discriminate. }
  destruct (parse_number (c :: r)) as [[lit rest']|] eqn:Hnum; [|done].
  injection H as <- <-. destruct (parse_number_split _ _ _ Hnum) as (Hs & Hlit & _).
  exists lit. split; [done|]. intros Hin.
  rewrite Forall_forall in Hlit. specialize (Hlit _ Hin). discriminate Hlit.
Qed.

Lemma skip_ws_nil_Forall s : skip_ws s = [] → Forall (λ c, json_ws c = true) s.
Proof.
  induction s as [|c s IH]; simpl; [constructor|].
  destruct (json_ws c) eqn:Hc; [|done]. intros H. constructor; auto.
Qed.

Lemma skip_ws_Forall w s : Forall (λ c, json_ws c = true) w → skip_ws (w ++ s) = skip_ws s.
Proof. induction 1 as [|c w Hc _ IH]; simpl; [done|]. by rewrite Hc. Qed.

(** What is read from an opening brace on is an object. *)
Lemma parse_value_object f r v rest :
  parse_value f (lbrace :: r) = Some (v, rest) → ∃ ms, v = JObject ms.
Proof.
  destruct f as [|f]; [done|]. cbn [parse_value].
  change (lbrace =? lbrace)%N with true. cbv iota.
  destruct (skip_ws r) as [|c' r']; [done|].
  destruct (c' =? rbrace)%N; [intros [= <- <-]; by eexists|].
  destruct (parse_members f (c' :: r')) as [[ms rest']|]; [|done].
  intros [= <- <-]. by eexists.
Qed.

(** The text of an object, as the parser reads it. *)
Lemma object_text_parse obj v :
  object_text obj v →
  ∃ body, obj = lbrace :: body ++ [rbrace] ∧ scan_ok body ∧
          parse_value (S (length obj)) obj = Some (v, []).
Proof.
  intros (Hhead & Hlast & Hparse). destruct obj as [|c r]; [done|].
  injection Hhead as ->. unfold JSON_parse in Hparse.
  rewrite skip_ws_start in Hparse by done.
  destruct (parse_value _ _) as [[v' rest]|] eqn:Hv; [|done].
  destruct (skip_ws rest) eqn:Hrest; [|done]. injection Hparse as ->.
  destruct (proj1 (parse_scan _) _ _ _ Hv) as (k & Hk & _ & _ & Hobj).
  destruct (Hobj r eq_refl) as (body & -> & Hok).
  assert (rest = []) as ->.
  { destruct rest as [|x rest' _] using rev_ind; [done|]. exfalso.
    rewrite Hk in Hlast. rewrite app_assoc, last_snoc in Hlast. injection Hlast as ->.
    apply skip_ws_nil_Forall in Hrest. rewrite Forall_app, Forall_singleton in Hrest.
    destruct Hrest as [_ Hx]. discriminate Hx. }
  rewrite app_nil_r in Hk. exists body. split_and!; done.
Qed.

(** [JSON.parse] on an object text followed by [t]. *)
Lemma JSON_parse_object_then obj v t :
  object_text obj v →
  JSON_parse (obj ++ t) = match skip_ws t with [] => Some v | _ :: _ => None end.
Proof.
  intros Hobj. destruct (object_text_parse obj v Hobj) as (body & Hb & _ & Hv).
  unfold JSON_parse.
  assert (Hskip : skip_ws (obj ++ t) = obj ++ t) by (rewrite Hb; reflexivity).
  rewrite Hskip.
  assert (Hv' : parse_value (S (length (obj ++ t))) (obj ++ t) = Some (v, [] ++ t)).
  { apply (parse_value_fuel_le (S (length obj))); [rewrite length_app; lia|].
    apply (proj1 (parse_frame _)); [done|]. right. intros lit ->.
    rewrite Hb in Hv. by destruct (parse_value_object _ _ _ _ Hv). }
  by rewrite Hv'.
Qed.

(** [JSON.parse] on an object text preceded by white space. *)
Lemma JSON_parse_ws_object_then w obj v t :
  Forall (λ c, json_ws c = true) w → object_text obj v →
  JSON_parse (w ++ obj ++ t) = match skip_ws t with [] => Some v | _ :: _ => None end.
Proof.
  intros Hw Hobj. rewrite <- (JSON_parse_object_then obj v t Hobj).
  destruct (object_text_parse obj v Hobj) as (body & Hb & _ & Hv).
  unfold JSON_parse. rewrite (skip_ws_Forall w) by done.
  assert (Hskip : skip_ws (obj ++ t) = obj ++ t) by (rewrite Hb; reflexivity).
  rewrite !Hskip.
  assert (Hv' : ∀ n, (length obj ≤ n)%nat →
                parse_value (S n) (obj ++ t) = Some (v, [] ++ t)).
  { intros n Hn. apply (parse_value_fuel_le (S (length obj))); [lia|].
    apply (proj1 (parse_frame _)); [done|]. right. intros lit ->.
    rewrite Hb in Hv. by destruct (parse_value_object _ _ _ _ Hv). }
  rewrite !Hv'; [done|..]; rewrite ?length_app; lia.
Qed.

End WholeText.

(** ** Cleaning the text *)

Section Spaces.

Implicit Types (s r t : jsstring) (c : N).

Lemma drop_spaces_split s :
  ∃ w, s = w ++ drop_spaces s ∧ Forall (λ c, is_space c = true) w.
Proof.
  induction s as [|c s (w & Hw & Hf)]; simpl.
  - by exists [].
  - destruct (is_space c) eqn:Hc.
    + exists (c :: w). split; [by rewrite Hw at 1 | by constructor].
    + by exists [].
Qed.

Lemma drop_spaces_head s c r : drop_spaces s = c :: r → is_space c = false.
Proof.
  induction s as [|x s IH]; simpl; [done|].
  destruct (is_space x) eqn:Hx; [done|]. by intros [= -> ->].
Qed.

Lemma drop_spaces_length s : (length (drop_spaces s) ≤ length s)%nat.
Proof.
  induction s as [|x s IH]; simpl; [done|]. destruct (is_space x); simpl; lia.
Qed.

Lemma drop_spaces_app s c t :
  is_space c = false → drop_spaces (s ++ c :: t) = drop_spaces s ++ c :: t.
Proof.
  intros Hc. induction s as [|x s IH]; simpl; [by rewrite Hc|].
  by destruct (is_space x).
Qed.

Lemma drop_spaces_elem s c : c ∈ drop_spaces s → c ∈ s.
Proof.
  destruct (drop_spaces_split s) as (w & Hw & _). intros Hc. rewrite Hw.
  apply elem_of_app. by right.
Qed.

(** [trim] around a text that starts and ends with a character that is no
    white space. *)
Lemma trim_around a x mid y b :
  is_space x = false → is_space y = false →
  trim (a ++ x :: mid ++ y :: b) =
    drop_spaces a ++ x :: mid ++ y :: rev (drop_spaces (rev b)).
Proof.
  intros Hx Hy. unfold trim. rewrite drop_spaces_app by done.
  replace (rev (drop_spaces a ++ x :: mid ++ y :: b))
    with (rev b ++ y :: rev (drop_spaces a ++ x :: mid)).
  2:{ rewrite !rev_app_distr. simpl. rewrite !rev_app_distr. simpl.
      by rewrite <- !app_assoc. }
  rewrite drop_spaces_app by done.
  rewrite rev_app_distr. simpl. rewrite rev_involutive. by rewrite <- !app_assoc.
Qed.

(** What [trim] leaves is a part of the text. *)
Lemma trim_inside s : ∃ a b, s = a ++ trim s ++ b.
Proof.
  unfold trim. destruct (drop_spaces_split s) as (w & Hw & _).
  destruct (drop_spaces_split (rev (drop_spaces s))) as (w' & Hw' & _).
  exists w, (rev w'). rewrite Hw at 1. f_equal.
  rewrite <- (rev_involutive (drop_spaces s)) at 1. rewrite Hw' at 1.
  by rewrite rev_app_distr.
Qed.

End Spaces.

Section Deletion.

Implicit Types (s r t m a b : jsstring) (c x : N) (f : nat).

Lemma after_prefix_length m s rest :
  after_prefix m s = Some rest → length s = (length m + length rest)%nat.
Proof. intros ->%after_prefix_Some. by rewrite length_app. Qed.

(** The result does not depend on the fuel, once there is enough of it. *)
Lemma delete_all_fuel m f1 f2 s :
  m ≠ [] → (length s ≤ f1)%nat → (length s ≤ f2)%nat →
  delete_all f1 m s = delete_all f2 m s.
Proof.
  intros Hm. revert f2 s. induction f1 as [|f1 IH]; intros f2 s H1 H2.
  - destruct s; [|simpl in H1; lia]. by destruct f2.
  - destruct f2 as [|f2]; [destruct s; [done | simpl in H2; lia]|].
    simpl. destruct s as [|c r]; [done|]. simpl in H1, H2.
    destruct (after_prefix m (c :: r)) as [rest|] eqn:Hp.
    + apply after_prefix_length in Hp. simpl in Hp.
      pose proof (drop_spaces_length rest). destruct m; [done|]. simpl in Hp.
      apply IH; lia.
    + f_equal. apply IH; lia.
Qed.

Lemma delete_marker_fuel m f s :
  m ≠ [] → (length s ≤ f)%nat → delete_all f m s = delete_marker m s.
Proof. intros Hm Hf. unfold delete_marker. by apply delete_all_fuel. Qed.

(** Deleting only removes characters. *)
Lemma delete_all_elem m f s c : c ∈ delete_all f m s → c ∈ s.
Proof.
  revert s. induction f as [|f IH]; intros s; simpl; [by inversion 1|].
  destruct s as [|x r]; [done|].
  destruct (after_prefix m (x :: r)) as [rest|] eqn:Hp.
  - intros Hc%IH%drop_spaces_elem. apply after_prefix_Some in Hp. rewrite Hp.
    apply elem_of_app. by right.
  - intros [->|Hc%IH]%elem_of_cons; [by left | by right].
Qed.

Lemma after_prefix_app_None m a x b :
  after_prefix m a = None → x ∉ m → after_prefix m (a ++ x :: b) = None.
Proof.
  revert a. induction m as [|y m IH]; intros a; simpl; [done|].
  intros Ha Hx. destruct a as [|c a]; simpl.
  - rewrite (proj2 (N.eqb_neq y x)); [done|]. intros ->. apply Hx. by left.
  - destruct (y =? c)%N; [|done]. apply IH; [done|]. intros ?. apply Hx. by right.
Qed.

(** Deletion works separately before and from a character that is neither
    white space nor part of the marker. *)
Lemma delete_marker_split m a x b :
  m ≠ [] → x ∉ m → is_space x = false →
  delete_marker m (a ++ x :: b) = delete_marker m a ++ delete_marker m (x :: b).
Proof.
  intros Hm Hx Hsp. remember (length a) as n eqn:Hn. revert a Hn.
  induction n as [n IH] using lt_wf_ind. intros a Hn.
  destruct a as [|c a']; [by destruct m|].
  unfold delete_marker at 1 2. simpl length. cbn [delete_all app].
  change (c :: a' ++ x :: b) with ((c :: a') ++ x :: b).
  destruct (after_prefix m (c :: a')) as [rest|] eqn:Hp.
  - rewrite (after_prefix_app _ _ _ (x :: b) Hp).
    rewrite drop_spaces_app by done.
    pose proof (after_prefix_length _ _ _ Hp) as Hlen. simpl in Hlen.
    pose proof (drop_spaces_length rest) as Hd.
    assert (length m ≠ O) by (by destruct m).
    rewrite (delete_marker_fuel m (length (a' ++ x :: b)))
      by (done || (rewrite !length_app; simpl; lia)).
    rewrite (delete_marker_fuel m (length a')) by (done || lia).
    apply (IH (length (drop_spaces rest))); [simpl in Hn; lia | done].
  - rewrite (after_prefix_app_None _ _ _ _ Hp Hx). simpl. f_equal.
    apply (IH (length a')); [simpl in Hn; lia | done].
Qed.

(** No marker that begins with three backticks starts inside a text without
    three backticks in a row that ends with a closing brace. *)
Lemma after_prefix_fence_inside m' os t :
  os ≠ [] → last os = Some rbrace → ¬ occurs fence os →
  after_prefix (fence ++ m') (os ++ t) = None.
Proof.
  intros Hne Hlast Hno.
  destruct (after_prefix (fence ++ m') (os ++ t)) as [rest|] eqn:Hp; [|done].
  exfalso. apply after_prefix_Some in Hp.
  destruct os as [|c1 [|c2 [|c3 os']]]; [done|..].
  - injection Hlast as ->. discriminate Hp.
  - injection Hlast as ->. discriminate Hp.
  - apply Hno. exists [], os'. simpl. simpl in Hp. by injection Hp as -> -> -> _.
Qed.

Lemma occurs_tail p c s : occurs p s → occurs p (c :: s).
Proof. intros (a & b & ->). by exists (c :: a), b. Qed.

Lemma delete_marker_object m' os t :
  (os ≠ [] → last os = Some rbrace) → ¬ occurs fence os →
  delete_marker (fence ++ m') (os ++ t) = os ++ delete_marker (fence ++ m') t.
Proof.
  induction os as [|c os IH]; intros Hlast Hno; [done|].
  unfold delete_marker at 1. simpl length. cbn [delete_all app].
  change (c :: os ++ t) with ((c :: os) ++ t).
  rewrite after_prefix_fence_inside by (done || by apply Hlast).
  simpl. f_equal. apply IH.
  - intros Hos. specialize (Hlast ltac:(done)). by destruct os.
  - intros Hocc. by apply Hno, occurs_tail.
Qed.

(** *** Nothing is left of the fences *)

Lemma delete_fence_head f s x out :
  delete_all f fence s = x :: out →
  (∃ rest, s = fence ++ rest) ∨
  (∃ r f', s = x :: r ∧ out = delete_all f' fence r).
Proof.
  destruct f as [|f]; [done|]. cbn [delete_all]. destruct s as [|c r]; [done|].
  destruct (after_prefix fence (c :: r)) as [rest|] eqn:Hp.
  - intros _. left. exists rest. by apply after_prefix_Some.
  - intros [= -> <-]. right. by exists r, f.
Qed.

Lemma delete_fence_two_ticks f s out :
  delete_all f fence s = 96%N :: 96%N :: out → ∃ r, s = 96%N :: 96%N :: r.
Proof.
  intros H. destruct (delete_fence_head _ _ _ _ H) as [(rest & ->)|(r & f' & -> & Hout)].
  - by eexists.
  - symmetry in Hout.
    destruct (delete_fence_head _ _ _ _ Hout) as [(rest & ->)|(r' & f'' & -> & _)];
      by eexists.
Qed.

(** After [replace(/```\s*/g, '')] no three backticks in a row are left. *)
Lemma delete_fence_none f s : ¬ occurs fence (delete_all f fence s).
Proof.
  revert s. induction f as [|f IH]; intros s.
  - intros (a & b & H). cbn [delete_all] in H. by destruct a.
  - cbn [delete_all]. destruct s as [|c r]; [intros (a & b & H); by destruct a|].
    destruct (after_prefix fence (c :: r)) as [rest|] eqn:Hp; [apply IH|].
    intros (a & b & H). destruct a as [|c' a].
    + change ([] ++ fence ++ b) with (96%N :: 96%N :: 96%N :: b) in H.
      injection H as -> H.
      destruct (delete_fence_two_ticks _ _ _ H) as (r' & ->). discriminate Hp.
    + injection H as _ H. apply (IH r). by exists a, b.
Qed.

Lemma occurs_inside p s a b : occurs p s → occurs p (a ++ s ++ b).
Proof.
  intros (a' & b' & ->). exists (a ++ a'), (b' ++ b). by rewrite <- !app_assoc.
Qed.

Lemma drop_spaces_sublist s : drop_spaces s `sublist_of` s.
Proof.
  destruct (drop_spaces_split s) as (w & Hw & _). rewrite Hw at 2.
  by apply sublist_inserts_l.
Qed.

Lemma delete_all_sublist m f s : delete_all f m s `sublist_of` s.
Proof.
  revert s. induction f as [|f IH]; intros s; [apply sublist_nil_l|].
  cbn [delete_all]. destruct s as [|c r]; [done|].
  destruct (after_prefix m (c :: r)) as [rest|] eqn:Hp.
  - apply after_prefix_Some in Hp. rewrite Hp. apply sublist_inserts_l.
    etrans; [apply IH | apply drop_spaces_sublist].
  - apply sublist_skip, IH.
Qed.

(** Cleaning only deletes characters. *)
Lemma clean_sublist text : clean text `sublist_of` text.
Proof.
  unfold clean.
  destruct (trim_inside (delete_marker fence (delete_marker fence_json text)))
    as (a & b & Heq).
  etrans; [|apply (delete_all_sublist fence_json (length text))].
  etrans; [|apply (delete_all_sublist fence (length (delete_marker fence_json text)))].
  fold (delete_marker fence_json text).
  fold (delete_marker fence (delete_marker fence_json text)).
  rewrite Heq at 2. by apply sublist_inserts_l, sublist_inserts_r.
Qed.

(** The cleaned text has no fence, with or without [json]. *)
Lemma clean_no_fence text :
  ¬ occurs fence (clean text) ∧ ¬ occurs fence_json (clean text).
Proof.
  assert (H : ¬ occurs fence (clean text)).
  { unfold clean. intros Hocc.
    destruct (trim_inside (delete_marker fence (delete_marker fence_json text)))
      as (a & b & Heq).
    apply (delete_fence_none (length (delete_marker fence_json text))
             (delete_marker fence_json text)).
    fold (delete_marker fence (delete_marker fence_json text)).
    rewrite Heq. by apply occurs_inside. }
  split; [done|]. intros (a & b & Heq). apply H.
  exists a, (js "json" ++ b). rewrite Heq. reflexivity.
Qed.

End Deletion.

(** ** The attempts of extractJson *)

Section Attempts.

Implicit Types (s r t obj pre post text : jsstring) (c : N) (v : json).

Lemma indexOf_first c pre s : c ∉ pre → indexOf c (pre ++ c :: s) = Some (length pre).
Proof.
  induction pre as [|x pre IH]; intros Hc; simpl.
  - by rewrite N.eqb_refl.
  - rewrite (proj2 (N.eqb_neq x c)) by (intros ->; apply Hc; by left).
    rewrite IH; [done|]. intros ?. apply Hc. by right.
Qed.

Lemma indexOf_Some c s i : indexOf c s = Some i → ∃ r, drop i s = c :: r.
Proof.
  revert i. induction s as [|x s IH]; intros i; simpl; [done|].
  destruct (N.eqb_spec x c) as [->|Hne].
  - intros [= <-]. by eexists.
  - destruct (indexOf c s) as [j|]; [|done]. intros [= <-]. by apply IH.
Qed.

(** The scan over an object text that something follows. *)
Lemma find_end_object pre obj post v :
  object_text obj v →
  find_end (pre ++ obj ++ post) (length pre) = Some (length pre + length obj - 1)%nat ∧
  substring (length pre) (length pre + length obj - 1 + 1) (pre ++ obj ++ post) = obj.
Proof.
  intros Hobj. destruct (object_text_parse obj v Hobj) as (body & -> & Hok & _).
  unfold find_end, substring. rewrite drop_app_length. split.
  - change ((lbrace :: body ++ [rbrace]) ++ post)
      with (lbrace :: (body ++ [rbrace]) ++ post).
    rewrite <- app_assoc. cbn [scan_from].
    change (scan_char scan_start lbrace) with (outside 1, false). cbv iota beta.
    rewrite (scan_from_app _ _ body _ (outside 1)) by (by apply Hok).
    simpl. f_equal. rewrite length_app. simpl. lia.
  - replace (length pre + length (lbrace :: body ++ [rbrace]) - 1 + 1 - length pre)%nat
      with (length (lbrace :: body ++ [rbrace])) by (simpl; lia).
    by rewrite take_app_length.
Qed.

(** [JSON.parse] on text that starts, behind white space, with a character
    that is neither brace, bracket nor quote and that has an opening brace
    further on. *)
Lemma JSON_parse_junk_ws w c pre s :
  Forall (λ c, json_ws c = true) w →
  json_ws c = false → c ≠ lbrace → c ≠ lbracket → c ≠ quote →
  lbrace ∉ pre → JSON_parse (w ++ c :: pre ++ lbrace :: s) = None.
Proof.
  intros Hw Hws Hlb Hlk Hq Hpre. unfold JSON_parse.
  rewrite skip_ws_Forall, skip_ws_start by done.
  destruct (parse_value _ _) as [[v rest]|] eqn:Hv; [|done].
  destruct (scalar_no_brace _ _ _ _ _ Hv Hlb Hlk Hq) as (k & Hk & Hno).
  assert (Hin : lbrace ∈ rest).
  { assert (Hall : lbrace ∈ k ++ rest).
    { rewrite <- Hk. right. apply elem_of_app. right. by left. }
    apply elem_of_app in Hall as [?|?]; done. }
  destruct (skip_ws rest) eqn:Hrest; [|done].
  by destruct (skip_ws_not_nil rest lbrace Hin).
Qed.

(** The strict parse of a text around an object gives the object or fails,
    when no brace, bracket or quote comes before the object. *)
Lemma JSON_parse_around pre obj post v :
  object_text obj v → lbrace ∉ pre → lbracket ∉ pre → quote ∉ pre →
  JSON_parse (pre ++ obj ++ post) = Some v ∨ JSON_parse (pre ++ obj ++ post) = None.
Proof.
  intros Hobj Hlb Hlk Hq. destruct (skip_ws_split pre) as (w & Hpre & Hw).
  destruct (skip_ws pre) as [|c r] eqn:Hskip.
  - rewrite app_nil_r in Hpre. subst w.
    rewrite (JSON_parse_ws_object_then pre obj v post Hw Hobj).
    destruct (skip_ws post); [by left | by right].
  - right. destruct (object_text_parse obj v Hobj) as (body & Hb & _ & _).
    assert (Hc : c ∈ pre) by (rewrite Hpre; apply elem_of_app; right; by left).
    assert (Hr : ∀ x, x ∈ r → x ∈ pre).
    { intros x Hx. rewrite Hpre. apply elem_of_app. right. by right. }
    rewrite Hpre, Hb, <- !app_assoc. simpl.
    rewrite <- app_assoc.
    apply JSON_parse_junk_ws; [done | by eapply skip_ws_head | ..].
    + by intros ->. + by intros ->. + by intros ->.
    + intros ?. by apply Hlb, Hr.
Qed.

(** The cleaned text around an object without three backticks in a row. *)
Lemma clean_around pre obj post v :
  object_text obj v → ¬ occurs fence obj →
  ∃ pre' post',
    clean (pre ++ obj ++ post) = pre' ++ obj ++ post' ∧
    (∀ c, c ∈ pre' → c ∈ pre).
Proof.
  intros Hobj Hno. destruct (object_text_parse obj v Hobj) as (body & Hb & _ & _).
  assert (Hlast : obj ≠ [] → last obj = Some rbrace) by (intros _; apply Hobj).
  assert (Hstep : ∀ m' a b, lbrace ∉ fence ++ m' →
    delete_marker (fence ++ m') (a ++ obj ++ b) =
    delete_marker (fence ++ m') a ++ obj ++ delete_marker (fence ++ m') b).
  { intros m' a b Hm. rewrite Hb at 1.
    change ((lbrace :: body ++ [rbrace]) ++ b) with (lbrace :: ((body ++ [rbrace]) ++ b)).
    rewrite delete_marker_split by done. f_equal.
    change (lbrace :: ((body ++ [rbrace]) ++ b)) with ((lbrace :: body ++ [rbrace]) ++ b).
    rewrite <- Hb. by apply delete_marker_object. }
  unfold clean.
  change fence_json with (fence ++ js "json").
  rewrite Hstep by (intros Hin; apply list_elem_of_In in Hin; simpl in Hin;
                    unfold lbrace in Hin; intuition discriminate).
  change (delete_marker fence) with (delete_marker (fence ++ [])).
  rewrite Hstep by (intros Hin; apply list_elem_of_In in Hin; simpl in Hin;
                    unfold lbrace in Hin; intuition discriminate).
  set (p2 := delete_marker (fence ++ []) (delete_marker (fence ++ js "json") pre)).
  set (q2 := delete_marker (fence ++ []) (delete_marker (fence ++ js "json") post)).
  exists (drop_spaces p2), (rev (drop_spaces (rev q2))). split_and!.
  - rewrite Hb. change ((lbrace :: body ++ [rbrace]) ++ q2) with (lbrace :: (body ++ [rbrace]) ++ q2).
    rewrite <- !app_assoc. simpl. rewrite trim_around by done.
    simpl. by rewrite <- !app_assoc.
  - intros c Hc%drop_spaces_elem. unfold p2 in Hc.
    by apply delete_all_elem, delete_all_elem in Hc.
Qed.

(** The third attempt: when neither the text nor the cleaned text is JSON,
    the scan finds the object, provided that the text before it has no
    opening brace and the object has no three backticks in a row. *)
Lemma extractJson_scan_object pre obj post v :
  object_text obj v →
  lbrace ∉ pre →
  ¬ occurs fence obj →
  JSON_parse (pre ++ obj ++ post) = None →
  JSON_parse (clean (pre ++ obj ++ post)) = None →
  extractJson (pre ++ obj ++ post) = v.
Proof.
  intros Hobj Hlb Hno Hstrict Hcleaned. unfold extractJson.
  rewrite Hstrict, Hcleaned.
  destruct (clean_around pre obj post v Hobj Hno) as (pre' & post' & -> & Hsub).
  assert (Hlb' : lbrace ∉ pre') by (intros ?; by apply Hlb, Hsub).
  destruct (object_text_parse obj v Hobj) as (body & Hb & _ & _).
  assert (Hidx : indexOf lbrace (pre' ++ obj ++ post') = Some (length pre')).
  { rewrite Hb. simpl. by apply indexOf_first. }
  rewrite Hidx.
  destruct (find_end_object pre' obj post' v Hobj) as [-> ->].
  destruct Hobj as (_ & _ & ->). done.
Qed.

(** So the object is extracted when the text before it has no opening brace,
    no opening bracket and no double quote. *)
Lemma extractJson_after_plain_prose pre obj post v :
  object_text obj v →
  lbrace ∉ pre → lbracket ∉ pre → quote ∉ pre →
  ¬ occurs fence obj →
  extractJson (pre ++ obj ++ post) = v.
Proof.
  intros Hobj Hlb Hlk Hq Hno.
  destruct (JSON_parse_around pre obj post v Hobj Hlb Hlk Hq) as [H|H];
    [unfold extractJson; by rewrite H|].
  destruct (clean_around pre obj post v Hobj Hno) as (pre' & post' & Hc & Hsub).
  assert (Hlb' : lbrace ∉ pre') by (intros ?; by apply Hlb, Hsub).
  assert (Hlk' : lbracket ∉ pre') by (intros ?; by apply Hlk, Hsub).
  assert (Hq' : quote ∉ pre') by (intros ?; by apply Hq, Hsub).
  destruct (JSON_parse_around pre' obj post' v Hobj Hlb' Hlk' Hq') as [H'|H'];
    [unfold extractJson; by rewrite H, Hc, H'|].
  apply extractJson_scan_object; try done. by rewrite Hc.
Qed.


End Attempts.

Section Claims.

Implicit Types (s r t obj pre post text : jsstring) (c : N) (v : json).

Lemma occurs_fence_tick s : occurs fence s → 96%N ∈ s.
Proof. intros (a & b & ->). apply elem_of_app. right. by left. Qed.

(** What [JSON.parse] reads from an opening brace on is not [null]. *)
Lemma JSON_parse_brace_not_null r : JSON_parse (lbrace :: r) ≠ Some JNull.
Proof.
  unfold JSON_parse. rewrite skip_ws_start by done.
  destruct (parse_value _ _) as [[v rest]|] eqn:Hv; [|done].
  destruct (parse_value_object _ _ _ _ Hv) as (ms & ->).
  by destruct (skip_ws rest).
Qed.

Lemma attempt_scan_not_null text : attempt_scan text ≠ Some JNull.
Proof.
  unfold attempt_scan.
  destruct (indexOf lbrace (clean text)) as [i|] eqn:Hi; [|done].
  destruct (find_end (clean text) i) as [e|]; [|done].
  destruct (indexOf_Some _ _ _ Hi) as (r & Hr). unfold substring. rewrite Hr.
  destruct (e + 1 - i)%nat; [done|]. apply JSON_parse_brace_not_null.
Qed.

Lemma attempt_regex_not_null text : attempt_regex text ≠ Some JNull.
Proof.
  unfold attempt_regex, match_braces.
  destruct (indexOf lbrace (clean text)) as [i|] eqn:Hi; [|done].
  destruct (lastIndexOf rbrace (drop (S i) (clean text))) as [j|]; [|done].
  destruct (indexOf_Some _ _ _ Hi) as (r & Hr). unfold substring. rewrite Hr.
  destruct (i + j + 2 - i)%nat; [done|]. apply JSON_parse_brace_not_null.
Qed.

(** [extractJson] returns what the first attempt that succeeds has parsed,
    and [null] when there is none. *)
Lemma extractJson_first_success text :
  extractJson text =
    default JNull (first_success [attempt_strict text; attempt_cleaned text;
                                  attempt_scan text; attempt_regex text]).
Proof.
  unfold extractJson, attempt_strict, attempt_cleaned, attempt_scan, attempt_regex,
    match_braces. simpl.
  destruct (JSON_parse text) as [v1|]; [done|].
  destruct (JSON_parse (clean text)) as [v2|]; [done|].
  destruct (indexOf lbrace (clean text)) as [i|]; [|done].
  destruct (find_end (clean text) i) as [e|].
  - destruct (JSON_parse (substring i (e + 1) (clean text))) as [v3|]; [done|].
    destruct (lastIndexOf rbrace (drop (S i) (clean text))) as [j|]; [|done].
    by destruct (JSON_parse _).
  - destruct (lastIndexOf rbrace (drop (S i) (clean text))) as [j|]; [|done].
    by destruct (JSON_parse _).
Qed.

(** C5, counterexample: on the text [null] the strict parse succeeds, yet
    the result is [null]. *)
Lemma extractJson_null_counterexample :
  attempt_strict (js "null") = Some JNull ∧
  extractJson (js "null") = JNull ∧
  ¬ (extractJson (js "null") = JNull →
     attempt_strict (js "null") = None ∧ attempt_cleaned (js "null") = None ∧
     attempt_scan (js "null") = None ∧ attempt_regex (js "null") = None).
Proof.
  split_and!; [reflexivity..|]. intros H. by destruct (H eq_refl) as [? _].
Qed.

(** C5, as amended: [extractJson] is total; it returns the value of the first
    attempt that succeeds, and [null] when all of them fail; and when it
    returns [null], then all attempts have failed or the text, as it is or
    cleaned, is the JSON literal [null]. *)
Theorem extractJson_total text :
  extractJson text =
    default JNull (first_success [attempt_strict text; attempt_cleaned text;
                                  attempt_scan text; attempt_regex text]) ∧
  (attempt_strict text = None ∧ attempt_cleaned text = None ∧
   attempt_scan text = None ∧ attempt_regex text = None →
   extractJson text = JNull) ∧
  (extractJson text = JNull →
   (attempt_strict text = None ∧ attempt_cleaned text = None ∧
    attempt_scan text = None ∧ attempt_regex text = None) ∨
   attempt_strict text = Some JNull ∨
   (attempt_strict text = None ∧ attempt_cleaned text = Some JNull)).
Proof.
  split; [apply extractJson_first_success|]. rewrite extractJson_first_success.
  pose proof (attempt_scan_not_null text) as Hs.
  pose proof (attempt_regex_not_null text) as Hr.
  split.
  - intros (-> & -> & -> & ->). done.
  - simpl. destruct (attempt_strict text) as [v1|]; [simpl; intros ->; auto|].
    destruct (attempt_cleaned text) as [v2|]; [simpl; intros ->; auto|].
    destruct (attempt_scan text) as [v3|]; [simpl; intros ->; done|].
    destruct (attempt_regex text) as [v4|]; [simpl; intros ->; done|]. auto.
Qed.

(** C10: cleaning only deletes characters, and no fence is left in the
    cleaned text, wherever it stood in the input; the later attempts see
    the input through the cleaned text only; and an object with a fence
    inside a string value is changed by it. *)
Theorem fences_deleted_everywhere :
  (∀ text, clean text `sublist_of` text ∧
           ¬ occurs fence (clean text) ∧ ¬ occurs fence_json (clean text)) ∧
  (∀ text text', JSON_parse text = None → JSON_parse text' = None →
     clean text = clean text' → extractJson text = extractJson text') ∧
  (clean (jq "{'cmd': 'use ```json here'}") = jq "{'cmd': 'use here'}") ∧
  (let obj := jq "{'note': '```'}" in
   object_text obj (JObject [(js "note", JString fence)]) ∧
   occurs (quote :: fence ++ [quote]) obj ∧
   extractJson (js "Answer: " ++ obj) = JObject [(js "note", JString [])] ∧
   extractJson (js "Answer: " ++ obj) ≠ JObject [(js "note", JString fence)]).
Proof.
  split_and!.
  - intros text. split; [apply clean_sublist | apply clean_no_fence].
  - intros text text' H1 H2 Hc. unfold extractJson. by rewrite H1, H2, Hc.
  - vm_compute. reflexivity.
  - split_and!.
    + split_and!; vm_compute; reflexivity.
    + exists (jq "{'note': "), (js "}"). vm_compute. reflexivity.
    + vm_compute. reflexivity.
    + vm_compute. discriminate.
Qed.

(** C4, as amended: the loop body treats strings and escapes as described,
    and over a text with an object at its first opening brace, that is,
    without opening brace in the noise before the object, the scan ends at
    the closing brace of the object. *)
Theorem brace_scan_string_aware :
  (∀ d c, scan_char {| braceCount := d; inString := true; escaped := true |} c
          = (inside d, false)) ∧
  (∀ d, scan_char (inside d) backslash
        = ({| braceCount := d; inString := true; escaped := true |}, false)) ∧
  (∀ d, scan_char (inside d) quote = (outside d, false)) ∧
  (∀ d c, c ≠ backslash → c ≠ quote → scan_char (inside d) c = (inside d, false)) ∧
  (∀ d, scan_char (outside d) quote = (inside d, false)) ∧
  (∀ d, scan_char (outside d) lbrace = (outside (d + 1), false)) ∧
  (∀ d, scan_char (outside d) rbrace = (outside (d - 1), d - 1 =? 0)) ∧
  (∀ d c, c ≠ quote → c ≠ lbrace → c ≠ rbrace →
          scan_char (outside d) c = (outside d, false)) ∧
  (∀ pre obj post v, object_text obj v → lbrace ∉ pre →
     indexOf lbrace (pre ++ obj ++ post) = Some (length pre) ∧
     find_end (pre ++ obj ++ post) (length pre)
       = Some (length pre + length obj - 1)%nat ∧
     substring (length pre) (length pre + length obj - 1 + 1) (pre ++ obj ++ post)
       = obj).
Proof.
  split_and!; try done.
  - intros d c Hb Hq. by apply scan_char_inside.
  - intros d c Hq Hl Hr. apply scan_char_plain. unfold plain.
    by rewrite !(proj2 (N.eqb_neq _ _)).
  - intros pre obj post v Hobj Hpre.
    destruct (object_text_parse obj v Hobj) as (body & Hb & _ & _).
    split; [|by eapply find_end_object].
    rewrite Hb. simpl. by apply indexOf_first.
Qed.

End Claims.

Lemma braces_in_string_text :
  object_text braces_in_string (JObject [(js "a", JString (js "x{y}z"))]).
Proof. split_and!; vm_compute; reflexivity. Defined.

Lemma brace_scan_string_aware_witness :
  let text := js "noise " ++ braces_in_string ++ js " more } noise" in
  find_end text (length (js "noise "))
    = Some (length (js "noise ") + length braces_in_string - 1)%nat ∧
  substring (length (js "noise "))
    (length (js "noise ") + length braces_in_string - 1 + 1) text
    = braces_in_string.
Proof.
  destruct brace_scan_string_aware as (_ & _ & _ & _ & _ & _ & _ & _ & H).
  destruct (H (js "noise ") braces_in_string (js " more } noise") _
              braces_in_string_text) as (_ & H1 & H2).
  - apply (bool_decide_unpack _). vm_compute. exact I.
  - split; [exact H1 | exact H2].
Defined.


(** A text that is JSON as a whole is returned as parsed, also when it has
    the text of an object inside: in brackets, or in a string. *)
Example extractJson_whole_text :
  extractJson (js "[" ++ jq "{'a':1}" ++ js "]")
    = JArray [JObject [(js "a", JNumber (js "1"))]] ∧
  extractJson (jq "'see " ++ js "{}" ++ jq " ok'") = JString (js "see {} ok").
Proof. split; vm_compute; reflexivity. Qed.

(** Quotes and brackets in the prose before the object do no harm. *)
Example extractJson_quoted_prose :
  extractJson (jq "He said 'hi' [sic]: " ++ jq "{'a':1}" ++ js " ok")
    = JObject [(js "a", JNumber (js "1"))].
Proof.
  apply extractJson_scan_object.
  - split_and!; vm_compute; reflexivity.
  - apply (bool_decide_unpack _). vm_compute. exact I.
  - intros Hocc%occurs_fence_tick. revert Hocc.
    apply (bool_decide_unpack _). vm_compute. exact I.
  - vm_compute. reflexivity.
  - vm_compute. reflexivity.
Qed.

(** C4, counterexample: with an opening brace in the noise before the object
    the scan starts there and ends at the first closing brace; the candidate
    is not the object, and the result is [null]. *)
Lemma brace_scan_noise_counterexample :
  let text := js "see {x}: " ++ braces_in_string ++ js " end" in
  object_text braces_in_string (JObject [(js "a", JString (js "x{y}z"))]) ∧
  indexOf lbrace text = Some 4%nat ∧
  find_end text 4 = Some 6%nat ∧
  substring 4 (6 + 1) text = js "{x}" ∧
  extractJson text = JNull ∧
  ¬ (∀ pre obj post v, object_text obj v →
       ∃ i, indexOf lbrace (pre ++ obj ++ post) = Some i ∧
            find_end (pre ++ obj ++ post) i
              = Some (length pre + length obj - 1)%nat).
Proof.
  intros text.
  assert (Hobj : object_text braces_in_string (JObject [(js "a", JString (js "x{y}z"))]))
    by (split_and!; vm_compute; reflexivity).
  split_and!; try (vm_compute; reflexivity); try done.
  intros Hall.
  destruct (Hall (js "see {x}: ") braces_in_string (js " end") _ Hobj) as (i & Hi & He).
  vm_compute in Hi. injection Hi as <-. vm_compute in He. discriminate He.
Qed.


Lemma extractJson_total_witness :
  extractJson (js "no object here") = JNull ∧
  (extractJson (js "```json null ```") = JNull ∧
   attempt_cleaned (js "```json null ```") = Some JNull).
Proof.
  split.
  - apply (proj1 (proj2 (extractJson_total (js "no object here")))).
    split_and!; vm_compute; reflexivity.
  - split; [reflexivity|].
    destruct (proj2 (proj2 (extractJson_total (js "```json null ```"))) eq_refl)
      as [(_ & H & _)|[H|[_ H]]]; [discriminate H | discriminate H | exact H].
Defined.

(** ** The fuel of the parser *)

Section FuelEnough.

Implicit Types (s r k t : jsstring) (c : N) (v : json).

Lemma parse_members_fuel_le f f' s res :
  (f ≤ f')%nat → parse_members f s = Some res → parse_members f' s = Some res.
Proof.
  induction 1 as [|f' _ IH]; [done|]. intros H. by apply parse_fuel_S, IH.
Qed.

Lemma parse_elements_fuel_le f f' s res :
  (f ≤ f')%nat → parse_elements f s = Some res → parse_elements f' s = Some res.
Proof.
  induction 1 as [|f' _ IH]; [done|]. intros H. by apply parse_fuel_S, IH.
Qed.

Lemma parse_value_shorter f s v rest :
  parse_value f s = Some (v, rest) → (length rest < length s)%nat.
Proof.
  intros H. destruct (proj1 (parse_scan f) _ _ _ H) as (k & -> & Hk & _).
  rewrite length_app. destruct k; [done|]. simpl. lia.
Qed.

Lemma parse_members_shorter f s ms rest :
  parse_members f s = Some (ms, rest) → (length rest < length s)%nat.
Proof.
  intros H. destruct (proj1 (proj2 (parse_scan f)) _ _ _ H) as (k & -> & _).
  rewrite length_app. simpl. lia.
Qed.

Lemma parse_elements_shorter f s vs rest :
  parse_elements f s = Some (vs, rest) → (length rest < length s)%nat.
Proof.
  destruct f as [|f]; [done|]. cbn [parse_elements].
  destruct (parse_value f s) as [[v r1]|] eqn:Hv; [|done].
  pose proof (parse_value_shorter _ _ _ _ Hv).
  pose proof (skip_ws_length r1).
  destruct (skip_ws r1) as [|c r2] eqn:Hs; [done|]. simpl in *.
  destruct (c =? comma)%N.
  - destruct (parse_elements f (skip_ws r2)) as [[vs' r3]|] eqn:He; [|done].
    intros [= <- <-].
    destruct (proj2 (proj2 (parse_scan f)) _ _ _ He) as (k & Hk & _).
    pose proof (skip_ws_length r2). apply (f_equal length) in Hk.
    rewrite length_app in Hk. lia.
  - destruct (c =? rbracket)%N; [|done]. intros [= <- <-]. lia.
Qed.

(** As many units of fuel as characters are read are enough. *)
Lemma parse_fuel_consumed f :
  (∀ s v rest, parse_value f s = Some (v, rest) →
     parse_value (length s - length rest) s = Some (v, rest)) ∧
  (∀ s ms rest, parse_members f s = Some (ms, rest) →
     parse_members (length s - length rest) s = Some (ms, rest)) ∧
  (∀ s vs rest, parse_elements f s = Some (vs, rest) →
     parse_elements (length s - length rest) s = Some (vs, rest)).
Proof.
  induction f as [|f (IHv & IHm & IHe)]; [by split_and!|]. split_and!.
  - intros s v rest H. pose proof (parse_value_shorter _ _ _ _ H) as Hlen.
    destruct (length s - length rest)%nat as [|n] eqn:Hn; [lia|].
    cbn [parse_value] in H |- *. destruct s as [|c r]; [done|].
    destruct (c =? lbrace)%N.
    { pose proof (skip_ws_length r).
      destruct (skip_ws r) as [|c' r'] eqn:Hs; [done|].
      destruct (c' =? rbrace)%N; [done|].
      destruct (parse_members f (c' :: r')) as [[ms rest']|] eqn:Hm; [|done].
      injection H as <- <-. pose proof (parse_members_shorter _ _ _ _ Hm).
      pose proof (IHm _ _ _ Hm) as Hm'; apply (parse_members_fuel_le _ n) in Hm'; [|simpl in *; lia]; rewrite Hm'.
      done. }
    destruct (c =? lbracket)%N.
    { pose proof (skip_ws_length r).
      destruct (skip_ws r) as [|c' r'] eqn:Hs; [done|].
      destruct (c' =? rbracket)%N; [done|].
      destruct (parse_elements f (c' :: r')) as [[vs rest']|] eqn:He; [|done].
      injection H as <- <-. pose proof (parse_elements_shorter _ _ _ _ He).
      pose proof (IHe _ _ _ He) as He'; apply (parse_elements_fuel_le _ n) in He'; [|simpl in *; lia]; rewrite He'.
      done. }
    done.
  - intros s ms rest H. pose proof (parse_members_shorter _ _ _ _ H) as Hlen.
    destruct (length s - length rest)%nat as [|n] eqn:Hn; [lia|].
    cbn [parse_members] in H |- *. destruct s as [|c r]; [done|].
    destruct (c =? quote)%N; [|done].
    destruct (parse_string r) as [[key r1]|] eqn:Hkey; [|done].
    destruct (parse_string_scan _ _ _ Hkey) as (kk & Hkk & _ & _).
    apply (f_equal length) in Hkk. rewrite length_app in Hkk.
    pose proof (skip_ws_length r1).
    destruct (skip_ws r1) as [|c2 r2] eqn:Hs1; [done|].
    destruct (c2 =? colon)%N; [|done].
    pose proof (skip_ws_length r2).
    destruct (parse_value f (skip_ws r2)) as [[v r3]|] eqn:Hv; [|done].
    pose proof (parse_value_shorter _ _ _ _ Hv).
    pose proof (skip_ws_length r3).
    destruct (skip_ws r3) as [|c4 r4] eqn:Hs3; [done|].
    simpl in *.
    destruct (c4 =? comma)%N eqn:Hc4.
    + pose proof (skip_ws_length r4).
      destruct (parse_members f (skip_ws r4)) as [[ms' r5]|] eqn:Hm; [|done].
      injection H as <- <-. pose proof (parse_members_shorter _ _ _ _ Hm).
      pose proof (IHv _ _ _ Hv) as Hv'; apply (parse_value_fuel_le _ n) in Hv'; [|simpl in *; lia]; rewrite Hv'.
      rewrite Hs3, Hc4.
      by pose proof (IHm _ _ _ Hm) as Hm'; apply (parse_members_fuel_le _ n) in Hm'; [|simpl in *; lia]; rewrite Hm'.
    + destruct (c4 =? rbrace)%N eqn:Hrb; [|done]. injection H as <- <-.
      pose proof (IHv _ _ _ Hv) as Hv'; apply (parse_value_fuel_le _ n) in Hv'; [|simpl in *; lia]; rewrite Hv'.
      by rewrite Hs3, Hc4, Hrb.
  - intros s vs rest H. pose proof (parse_elements_shorter _ _ _ _ H) as Hlen.
    destruct (length s - length rest)%nat as [|n] eqn:Hn; [lia|].
    cbn [parse_elements] in H |- *.
    destruct (parse_value f s) as [[v r1]|] eqn:Hv; [|done].
    pose proof (parse_value_shorter _ _ _ _ Hv).
    pose proof (skip_ws_length r1).
    destruct (skip_ws r1) as [|c r2] eqn:Hs1; [done|]. simpl in *.
    destruct (c =? comma)%N eqn:Hc.
    + pose proof (skip_ws_length r2).
      destruct (parse_elements f (skip_ws r2)) as [[vs' r3]|] eqn:He; [|done].
      injection H as <- <-. pose proof (parse_elements_shorter _ _ _ _ He).
      pose proof (IHv _ _ _ Hv) as Hv'; apply (parse_value_fuel_le _ n) in Hv'; [|simpl in *; lia]; rewrite Hv'.
      rewrite Hs1, Hc.
      by pose proof (IHe _ _ _ He) as He'; apply (parse_elements_fuel_le _ n) in He'; [|simpl in *; lia]; rewrite He'.
    + destruct (c =? rbracket)%N eqn:Hrk; [|done]. injection H as <- <-.
      pose proof (IHv _ _ _ Hv) as Hv'; apply (parse_value_fuel_le _ n) in Hv'; [|simpl in *; lia]; rewrite Hv'.
      by rewrite Hs1, Hc, Hrk.
Qed.

(** The fuel that [JSON_parse] gives to [parse_value] is enough: whatever
    is parsed with some fuel is parsed by [JSON_parse]. *)
Lemma parse_fuel_enough f text v rest :
  parse_value f (skip_ws text) = Some (v, rest) → skip_ws rest = [] →
  JSON_parse text = Some v.
Proof.
  intros H Hrest. unfold JSON_parse.
  pose proof (proj1 (parse_fuel_consumed f) _ _ _ H) as H'.
  apply (parse_value_fuel_le _ (S (length text))) in H';
    [|pose proof (skip_ws_length text); lia].
  by rewrite H', Hrest.
Qed.

End FuelEnough.

(** * Part III: more on the three pieces, and the code around them *)

Import Depths.

(** ** The levels as distances *)

Section DepthProofs.

Implicit Types (adjacency : gmap jsstring (list jsstring)) (seeds : list jsstring).
Implicit Types (nodes : list ReasoningNode) (edges : list ReasoningEdge).
Implicit Types (depths lv : gmap jsstring Z).

Lemma bfs_dist_initial adjacency (q : list (jsstring * Z)) :
  (∀ k d, (k, d) ∈ q → d = 0) →
  bfs_dist adjacency q.*1 ∅ (initial_state q).
Proof.
  intros Hq. split; simpl.
  - intros k. rewrite !lookup_empty. by case_decide.
  - intros k. rewrite lookup_empty. split; [by intros [? ?] | by intros ?%not_elem_of_empty].
  - exists 0, q, []. split_and!; [done|by rewrite app_nil_r| |done|by intros ? ?; rewrite lookup_empty].
    apply Forall_forall. intros [k d] Hk. simpl. by apply (Hq k).
  - intros k d Hk. rewrite (Hq k d Hk). split; [done|]. exists k. split.
    + apply list_elem_of_fmap. by exists (k, d).
    + constructor.
  - intros k d. by rewrite lookup_empty.
  - intros s ([k d] & -> & Hk)%list_elem_of_fmap. right. simpl. by rewrite <- (Hq k d Hk).
  - intros v dv children c. by rewrite lookup_empty.
Qed.

(** The front of the queue once its head is taken off. *)
Lemma front_tail (lv : gmap jsstring Z) (i : jsstring) (d : Z) (q : list (jsstring * Z)) :
  (∃ front q1 q2,
    0 ≤ front ∧ (i, d) :: q = q1 ++ q2 ∧
    Forall (λ e : jsstring * Z, e.2 = front) q1 ∧
    Forall (λ e : jsstring * Z, e.2 = front + 1) q2 ∧
    ∀ k d', lv !! k = Some d' → d' ≤ front) →
  ∃ front q1 q2,
    0 ≤ front ∧ q = q1 ++ q2 ∧ d ≤ front ∧ front ≤ d + 1 ∧
    Forall (λ e : jsstring * Z, e.2 = front) q1 ∧
    Forall (λ e : jsstring * Z, e.2 = front + 1) q2 ∧
    (q2 ≠ [] → front = d) ∧
    (∀ k d', lv !! k = Some d' → d' ≤ d).
Proof.
  intros (front & q1 & q2 & Hf & Hq & H1 & H2 & Hlv).
  destruct q1 as [|e q1].
  - simpl in Hq. subst q2. apply Forall_cons in H2 as [Hd H2]. simpl in Hd.
    exists (front + 1), q, []. split_and!; try done; try lia.
    + by rewrite app_nil_r.
    + intros k d' Hk. specialize (Hlv k d' Hk). lia.
  - injection Hq as <- ->. apply Forall_cons in H1 as [Hd H1]. simpl in Hd.
    exists front, q1, q2. split_and!; try done; try lia.
    intros k d' Hk. specialize (Hlv k d' Hk). lia.
Qed.

Lemma bfs_dist_skip adjacency seeds depths i d q vis lv asg :
  i ∈ vis →
  bfs_dist adjacency seeds depths
    {| queue := (i, d) :: q; visited := vis; levels := lv; assigned := asg |} →
  bfs_dist adjacency seeds depths
    {| queue := q; visited := vis; levels := lv; assigned := asg |}.
Proof.
  intros Hi [H0 H1 H2 H3 H4 H5 H6]. simpl in *.
  destruct (front_tail depths i d q H2) as (front & q1 & q2 & Hf & Hq & Hd1 & Hd2 & Hq1 & Hq2 & _ & Hlv).
  apply H1 in Hi as [di Hdi]. pose proof (Hlv i di Hdi) as Hle.
  split; simpl.
  - done.
  - done.
  - exists front, q1, q2. split_and!; try done.
    intros k d' Hk. specialize (Hlv k d' Hk). lia.
  - intros k d' Hk. apply H3. by right.
  - done.
  - intros s Hs. destruct (H5 s Hs) as [?|Hin]; [by left|].
    apply elem_of_cons in Hin as [[= -> <-]|?]; [|by right].
    left. exists di. split; [done|lia].
  - intros v dv children c Hv Hch Hc.
    destruct (H6 v dv children c Hv Hch Hc) as [?|(d' & Hin & Hd')]; [by left|].
    apply elem_of_cons in Hin as [[= -> ->]|?]; [|right; by exists d'].
    left. exists di. split; [done|lia].
Qed.

Lemma bfs_dist_visit adjacency seeds depths i d q vis lv asg children :
  i ∉ vis → adjacency !! i = Some children →
  bfs_dist adjacency seeds depths
    {| queue := (i, d) :: q; visited := vis; levels := lv; assigned := asg |} →
  bfs_dist adjacency seeds (<[i := d]> depths)
    {| queue := q ++ ((λ child, (child, d + 1)) <$> children);
       visited := {[i]} ∪ vis; levels := store i d lv; assigned := asg ++ [i] |}.
Proof.
  intros Hi Hch [H0 H1 H2 H3 H4 H5 H6]. simpl in *.
  destruct (front_tail depths i d q H2) as (front & q1 & q2 & Hf & Hq & Hd1 & Hd2 & Hq1 & Hq2 & Hne & Hlv).
  assert (Hnone : depths !! i = None).
  { destruct (depths !! i) eqn:E; [|done]. destruct Hi. apply H1. by eauto. }
  destruct (H3 i d) as (Hd0 & s0 & Hs0 & Hpath); [by left|].
  split; simpl.
  - intros k. rewrite lookup_store, H0.
    destruct (decide (k = proto)) as [->|Hp].
    + rewrite decide_False; [done|]. intros [<- ?]. done.
    + destruct (decide (k = i)) as [->|Hki].
      * by rewrite decide_True, lookup_insert_eq.
      * rewrite decide_False by (by intros [? _]). by rewrite lookup_insert_ne.
  - intros k. rewrite elem_of_union, elem_of_singleton.
    destruct (decide (k = i)) as [->|Hk].
    + rewrite lookup_insert_eq. split; [by left | by eauto].
    + rewrite lookup_insert_ne by done. rewrite H1. tauto.
  - destruct (decide (q2 = [])) as [->|Hq2ne].
    + (* the entries of the front, then the children one deeper *)
      destruct (decide (front = d)) as [->|Hfd].
      * set (new := (λ child : jsstring, (child, d + 1)) <$> children).
        exists d, q1, new.
        rewrite app_nil_r in Hq. subst q. split_and!; try done.
        -- apply Forall_forall. by intros e (c & -> & _)%list_elem_of_fmap.
        -- intros k d'. destruct (decide (k = i)) as [->|Hk].
           ++ rewrite lookup_insert_eq. intros [= <-]. lia.
           ++ rewrite lookup_insert_ne by done. apply Hlv.
      * assert (front = d + 1) as -> by lia.
        (* the children join the entries of their own depth *)
        set (new := (λ child : jsstring, (child, d + 1)) <$> children).
        exists (d + 1), (q1 ++ new), [].
        rewrite !app_nil_r in *. subst q. split_and!; try done.
        -- apply Forall_app. split; [done|].
           apply Forall_forall. by intros e (c' & -> & _)%list_elem_of_fmap.
        -- intros k d'. destruct (decide (k = i)) as [->|Hk].
           ++ rewrite lookup_insert_eq. intros [= <-]. lia.
           ++ rewrite lookup_insert_ne by done. intros Hk'. specialize (Hlv k d' Hk'). lia.
    + specialize (Hne Hq2ne). subst front.
      set (new := (λ child : jsstring, (child, d + 1)) <$> children).
      exists d, q1, (q2 ++ new).
      split_and!; try done.
      * by rewrite Hq, app_assoc.
      * apply Forall_app. split; [done|].
        apply Forall_forall. by intros e (c' & -> & _)%list_elem_of_fmap.
      * intros k d'. destruct (decide (k = i)) as [->|Hk].
        -- rewrite lookup_insert_eq. intros [= <-]. lia.
        -- rewrite lookup_insert_ne by done. apply Hlv.
  - intros k d' [Hk|Hk]%elem_of_app.
    + apply H3. by right.
    + apply list_elem_of_fmap in Hk as (c & [= -> ->] & Hc).
      split; [lia|]. exists s0. split; [done|].
      replace (Z.to_nat (d + 1)) with (S (Z.to_nat d)) by lia.
      eapply nsteps_r; [exact Hpath|]. by exists children.
  - intros k d'. destruct (decide (k = i)) as [->|Hk].
    + rewrite lookup_insert_eq. intros [= <-]. split; [done|]. by exists s0.
    + rewrite lookup_insert_ne by done. apply H4.
  - intros s Hs. destruct (H5 s Hs) as [(ds & Hds & Hle)|Hin].
    + left. exists ds. split; [|done]. rewrite lookup_insert_ne; [done|]. congruence.
    + apply elem_of_cons in Hin as [[= -> <-]|?].
      * left. exists 0. by rewrite lookup_insert_eq.
      * right. apply elem_of_app. by left.
  - intros v dv ch c. destruct (decide (v = i)) as [->|Hv].
    + rewrite lookup_insert_eq, Hch. intros [= <-] [= <-] Hc.
      right. exists (d + 1). split; [|lia]. apply elem_of_app. right.
      apply list_elem_of_fmap. by exists c.
    + rewrite lookup_insert_ne by done. intros Hlvv Hvc Hc.
      destruct (H6 v dv ch c Hlvv Hvc Hc) as [(dc & Hdc & Hle)|(d' & Hin & Hd')].
      * left. exists dc. split; [|done]. rewrite lookup_insert_ne; [done|]. congruence.
      * apply elem_of_cons in Hin as [[= -> ->]|?].
        -- left. exists d. by rewrite lookup_insert_eq.
        -- right. exists d'. split; [|done]. apply elem_of_app. by left.
Qed.

Lemma bfs_Done_dist adjacency seeds depths fuel st st' :
  bfs_dist adjacency seeds depths st → bfs fuel adjacency st = Done st' →
  queue st' = [] ∧ ∃ depths', bfs_dist adjacency seeds depths' st'.
Proof.
  revert st depths. induction fuel as [|fuel IH]; intros st depths Hinv.
  - destruct st as [[|[i d] q] vis lv asg]; simpl; [|done]. intros [= <-]. eauto.
  - destruct st as [[|[i d] q] vis lv asg]; simpl; [intros [= <-]; by eauto|].
    destruct (decide (i ∈ vis)) as [Hi|Hi].
    + apply (IH _ depths). by eapply bfs_dist_skip.
    + destruct (adjacency !! i) as [children|] eqn:Hch; [|done].
      apply (IH _ (<[i := d]> depths)). by eapply bfs_dist_visit.
Qed.

(** Once the queue is empty, what is [n] steps from a seed has a depth of at
    most [n]. *)
Lemma bfs_dist_reach adjacency seeds depths st :
  bfs_dist adjacency seeds depths st → queue st = [] →
  ∀ n s k, s ∈ seeds → nsteps (adj_step adjacency) n s k →
    ∃ d, depths !! k = Some d ∧ d ≤ Z.of_nat n.
Proof.
  intros Hinv Hq n. induction n as [|n IH]; intros s k Hs Hsk.
  - assert (s = k) as -> by (by inversion Hsk).
    destruct (dist_seed _ _ _ _ Hinv k Hs) as [(d & Hd & Hle)|Hin].
    + exists d. split; [done|lia].
    + rewrite Hq in Hin. by inversion Hin.
  - apply nsteps_inv_r in Hsk as (v & Hsv & (ch & Hch & Hk)).
    destruct (IH s v Hs Hsv) as (dv & Hdv & Hle).
    destruct (dist_child _ _ _ _ Hinv v dv ch k Hdv Hch Hk) as [(dc & Hdc & Hle')|(d' & Hin & _)].
    + exists dc. split; [done|lia].
    + rewrite Hq in Hin. by inversion Hin.
Qed.

Lemma bfs_dist_final adjacency seeds depths st k d :
  bfs_dist adjacency seeds depths st → queue st = [] →
  depths !! k = Some d ↔ distance (adj_step adjacency) seeds k d.
Proof.
  intros Hinv Hq. split.
  - intros Hk. destruct (dist_level _ _ _ _ Hinv k d Hk) as (Hd & s & Hs & Hpath).
    split; [done|]. split; [by exists s|].
    intros s' n Hs' Hn.
    destruct (bfs_dist_reach adjacency seeds depths st Hinv Hq n s' k Hs' Hn) as (d' & Hd' & Hle).
    congruence.
  - intros (Hd & (s & Hs & Hpath) & Hmin).
    destruct (bfs_dist_reach adjacency seeds depths st Hinv Hq _ s k Hs Hpath) as (d' & Hd' & Hle).
    destruct (dist_level _ _ _ _ Hinv k d' Hd') as (Hd0 & s' & Hs' & Hpath').
    specialize (Hmin s' _ Hs' Hpath'). rewrite Hd'. f_equal. lia.
Qed.

(** The levels are the depths of the ids other than [__proto__]. *)
Lemma bfs_dist_levels adjacency seeds depths st k d :
  bfs_dist adjacency seeds depths st →
  levels st !! k = Some d ↔ k ≠ proto ∧ depths !! k = Some d.
Proof.
  intros Hinv. rewrite (dist_own _ _ _ _ Hinv k). case_decide; [|tauto].
  split; [done | by intros [? _]].
Qed.

Lemma nsteps_iff (R1 R2 : relation jsstring) n a b :
  (∀ a b, R1 a b ↔ R2 a b) → nsteps R1 n a b → nsteps R2 n a b.
Proof.
  intros HR. induction 1 as [|n x y z Hxy _ IH]; [constructor|].
  econstructor; [|exact IH]. by apply HR.
Qed.

Lemma distance_subrel (R1 R2 : relation jsstring) seeds k d :
  (∀ a b, R1 a b ↔ R2 a b) → distance R1 seeds k d → distance R2 seeds k d.
Proof.
  intros HR (Hd & (s & Hs & Hp) & Hmin). split; [done|]. split.
  - exists s. split; [done|]. by apply (nsteps_iff R1 R2).
  - intros s' n Hs' Hn. apply (Hmin s' n Hs').
    apply (nsteps_iff R2 R1); [|done]. intros a b. by rewrite HR.
Qed.

(** A run that ends: the dictionaries, and both invariants at the end. *)
Lemma run_levels_Done_inv nodes edges st :
  run_levels nodes edges = Done st →
  ∃ t depths, queue st = [] ∧
    (∀ k, is_Some (adj t !! k) ↔ k ∈ id <$> nodes) ∧
    (∀ a b, adj_step (adj t) a b ↔ edge_step edges a b) ∧
    bfs_inv (adj t) (seeds_of nodes edges).*1 st ∧
    bfs_dist (adj t) (seeds_of nodes edges).*1 depths st.
Proof.
  intros Hrun.
  assert (Hsrc : ∀ e, e ∈ edges → from e ∈ id <$> nodes).
  { intros e He. destruct (decide (from e ∈ id <$> nodes)) as [|Hn]; [done|].
    assert (run_levels nodes edges = TypeError); [|congruence].
    apply run_levels_TypeError_iff. left. by exists e. }
  destruct (run_levels_known_sources nodes edges Hsrc)
    as (t & Ht & Hseed & Hkeys & Hrtc & Hstep & Hinv & Heq).
  rewrite Heq in Hrun.
  destruct (bfs_Done_inv _ _ _ _ _ Hinv Hrun) as [Hq Hinv'].
  assert (Hd0 : bfs_dist (adj t) (seeds_of nodes edges).*1 ∅
                  (initial_state (seeds_of nodes edges))).
  { apply bfs_dist_initial. intros k d Hk. by apply (seeds_of_spec nodes edges k d). }
  destruct (bfs_Done_dist _ _ _ _ _ _ Hd0 Hrun) as [_ [depths Hdist]].
  by exists t, depths.
Qed.

(** The levels of a run that has ended, as distances along the edges. *)
Lemma levels_distance nodes edges st k d :
  run_levels nodes edges = Done st →
  levels st !! k = Some d ↔
  k ≠ proto ∧ distance (edge_step edges) (seeds_of nodes edges).*1 k d.
Proof.
  intros Hrun.
  destruct (run_levels_Done_inv nodes edges st Hrun) as (t & depths & Hq & _ & Hstep & _ & Hdist).
  rewrite (bfs_dist_levels _ _ _ _ k d Hdist).
  rewrite (bfs_dist_final (adj t) _ depths st k d Hdist Hq).
  apply and_iff_compat_l.
  split; apply distance_subrel; [done|]. intros a b. by rewrite Hstep.
Qed.

(** Once the queue is empty, a depth [n] is witnessed by [n + 1] distinct ids
    with depths up to [n]. *)
Lemma level_chain adjacency seeds depths st :
  bfs_dist adjacency seeds depths st → queue st = [] →
  ∀ (n : nat) k, depths !! k = Some (Z.of_nat n) →
    ∃ l : list jsstring, NoDup l ∧ length l = S n ∧
      ∀ x, x ∈ l → ∃ j, depths !! x = Some j ∧ j ≤ Z.of_nat n.
Proof.
  intros Hinv Hq n. induction n as [|n IH]; intros k Hk.
  - exists [k]. split; [apply NoDup_singleton|]. split; [done|].
    intros x ->%list_elem_of_singleton. by exists 0.
  - destruct (dist_level _ _ _ _ Hinv k _ Hk) as (_ & s & Hs & Hpath).
    rewrite Nat2Z.id in Hpath.
    apply nsteps_inv_r in Hpath as (v & Hsv & (ch & Hch & Hc)).
    destruct (bfs_dist_reach adjacency seeds depths st Hinv Hq n s v Hs Hsv) as (dv & Hdv & Hle).
    destruct (dist_child _ _ _ _ Hinv v dv ch k Hdv Hch Hc) as [(dc & Hdc & Hle')|(d' & Hin & _)];
      [|rewrite Hq in Hin; by inversion Hin].
    assert (dv = Z.of_nat n) as -> by (rewrite Hk in Hdc; injection Hdc as <-; lia).
    destruct (IH v Hdv) as (l & Hnd & Hlen & Hl).
    exists (k :: l). split_and!.
    + apply NoDup_cons. split; [|done]. intros Hkl.
      destruct (Hl k Hkl) as (j & Hj & Hjn). rewrite Hk in Hj. injection Hj as <-. lia.
    + simpl. by rewrite Hlen.
    + intros x [->|Hx]%elem_of_cons; [by exists (Z.of_nat (S n))|].
      destruct (Hl x Hx) as (j & Hj & Hjn). exists j. split; [done|lia].
Qed.

Lemma maxLevel_spec (lv : gmap jsstring Z) :
  1 ≤ maxLevel lv ∧
  (∀ k d, lv !! k = Some d → d ≤ maxLevel lv) ∧
  (∀ b, 1 ≤ b → (∀ k d, lv !! k = Some d → d ≤ b) → maxLevel lv ≤ b).
Proof.
  unfold maxLevel.
  assert (H : ∀ l : list Z, 1 ≤ foldr Z.max 1 l ∧ (∀ d, d ∈ l → d ≤ foldr Z.max 1 l) ∧
                ∀ b, 1 ≤ b → (∀ d, d ∈ l → d ≤ b) → foldr Z.max 1 l ≤ b).
  { induction l as [|x l (IH1 & IH2 & IH3)]; simpl.
    - split; [done|]. split; [by intros d ?%elem_of_nil | by intros].
    - split; [lia|]. split.
      + intros d [->|Hd]%elem_of_cons; [lia|]. specialize (IH2 d Hd). lia.
      + intros b Hb Hall. apply Z.max_lub.
        * apply Hall. by left.
        * apply IH3; [done|]. intros d Hd. apply Hall. by right. }
  destruct (H (map_to_list lv).*2) as (H1 & H2 & H3).
  split; [done|]. split.
  - intros k d Hk. apply H2. apply list_elem_of_fmap. exists (k, d).
    split; [done|]. by apply elem_of_map_to_list.
  - intros b Hb Hall. apply H3; [done|].
    intros d ([k d'] & -> & Hk%elem_of_map_to_list)%list_elem_of_fmap. by apply (Hall k).
Qed.

End DepthProofs.

(** X1: when the pass ends, the level stored for an id is the length of a
    shortest walk along the edges from a seed of the queue to it; an id
    without such a walk has no entry in [levels], and neither has
    [__proto__], whatever leads to it. *)
Theorem levels_are_distances nodes edges st :
  run_levels nodes edges = Done st →
  ∀ k d, levels st !! k = Some d ↔
         k ≠ proto ∧ distance (edge_step edges) (seeds_of nodes edges).*1 k d.
Proof. intros Hrun k d. by apply levels_distance. Qed.

Lemma levels_are_distances_witness :
  ∃ st, run_levels shortcut_nodes shortcut_edges = Done st ∧
        levels st !! js "d" = Some 2 ∧
        distance (edge_step shortcut_edges)
          (seeds_of shortcut_nodes shortcut_edges).*1 (js "d") 2.
Proof.
  eexists. split; [vm_compute; reflexivity|]. split; [vm_compute; reflexivity|].
  apply (levels_are_distances shortcut_nodes shortcut_edges _ ltac:(vm_compute; reflexivity)).
  vm_compute. reflexivity.
Defined.

(** A walk through [__proto__]: the node has no level, what lies behind it
    has. *)
Example levels_through_proto :
  ∃ st, run_levels [node "a"; node "__proto__"; node "b"]
                   [edge "a" "__proto__"; edge "__proto__" "b"] = Done st ∧
        levels st !! js "a" = Some 0 ∧ levels st !! proto = None ∧
        levels st !! js "b" = Some 2.
Proof. eexists. split_and!; vm_compute; reflexivity. Qed.

(** X2: when the pass ends, [maxLevel] is at least 1, every number written
    into a node as its level lies between 0 and [maxLevel], and both stay
    below the number of nodes (1 for [maxLevel] when there are fewer than
    two); and what is written into a node is a number when the id of the
    node names no member of [Object.prototype]. *)
Theorem levels_below_node_count nodes edges st :
  run_levels nodes edges = Done st →
  1 ≤ maxLevel (levels st) ∧
  maxLevel (levels st) ≤ Z.max 1 (Z.of_nat (length nodes) - 1) ∧
  (∀ n d, level_of (levels st) n = Level d → 0 ≤ d ≤ maxLevel (levels st)) ∧
  (∀ n d, n ∈ nodes → level_of (levels st) n = Level d →
          d < Z.of_nat (length nodes)) ∧
  (∀ n, id n ∉ Object_prototype → ∃ d, level_of (levels st) n = Level d).
Proof.
  intros Hrun.
  destruct (run_levels_Done_inv nodes edges st Hrun)
    as (t & depths & Hq & Hkeys & _ & Hinv & Hdist).
  destruct (maxLevel_spec (levels st)) as (Hm1 & Hm2 & Hm3).
  assert (Hlt : ∀ k d, levels st !! k = Some d → 0 ≤ d < Z.of_nat (length nodes)).
  { intros k d Hk. pose proof (inv_level_nonneg _ _ _ Hinv k d Hk) as Hd. split; [done|].
    apply (bfs_dist_levels _ _ _ _ k d Hdist) in Hk as [_ Hk].
    rewrite <- (Z2Nat.id d) in Hk by done.
    destruct (level_chain _ _ _ _ Hdist Hq _ k Hk) as (l & Hnd & Hlen & Hl).
    assert (Hsub : l ⊆+ id <$> nodes).
    { apply NoDup_submseteq; [done|]. intros x Hx.
      destruct (Hl x Hx) as (j & Hj & _). apply Hkeys.
      apply (inv_visited_nodes _ _ _ Hinv). apply (dist_levels _ _ _ _ Hdist). by eauto. }
    apply submseteq_length in Hsub. rewrite length_fmap in Hsub. lia. }
  split_and!.
  - done.
  - apply Hm3; [lia|]. intros k d Hk. specialize (Hlt k d Hk). lia.
  - intros n d [Hd|(_ & _ & ->)]%level_of_Level; [|lia].
    split; [by apply (Hlt (id n))|by apply (Hm2 (id n))].
  - intros n d Hn [Hd|(_ & _ & ->)]%level_of_Level.
    + by apply (Hlt (id n)).
    + destruct nodes; [by inversion Hn|]. simpl. lia.
  - intros n Hn. unfold level_of. destruct (levels st !! id n) as [d|]; [by eauto|].
    rewrite bool_decide_false by done. by eauto.
Qed.

Lemma levels_below_node_count_witness :
  ∃ st, run_levels shortcut_nodes shortcut_edges = Done st ∧
        maxLevel (levels st) = 2 ∧
        maxLevel (levels st) ≤ Z.max 1 (Z.of_nat (length shortcut_nodes) - 1).
Proof.
  eexists. split; [vm_compute; reflexivity|]. split; [vm_compute; reflexivity|].
  apply (levels_below_node_count shortcut_nodes shortcut_edges _ ltac:(vm_compute; reflexivity)).
Defined.

(** X3: when the pass ends, an edge whose source has a level leads to an id
    that has a level too, at most one more than that of the source, unless
    it leads to [__proto__]. *)
Theorem edge_at_most_one_level_down nodes edges st e d :
  run_levels nodes edges = Done st → e ∈ edges →
  levels st !! from e = Some d → to e ≠ proto →
  ∃ d', levels st !! to e = Some d' ∧ 0 ≤ d' ≤ d + 1.
Proof.
  intros Hrun He Hd Hp.
  destruct (run_levels_Done_inv nodes edges st Hrun)
    as (t & depths & Hq & _ & Hstep & Hinv & Hdist).
  assert (Hs : adj_step (adj t) (from e) (to e)) by (apply Hstep; by exists e).
  destruct Hs as (ch & Hch & Hc).
  apply (bfs_dist_levels _ _ _ _ _ _ Hdist) in Hd as [_ Hd].
  destruct (dist_child _ _ _ _ Hdist (from e) d ch (to e) Hd Hch Hc) as [(dc & Hdc & Hle)|(d' & Hin & _)].
  - assert (Hlv : levels st !! to e = Some dc)
      by (by apply (bfs_dist_levels _ _ _ _ _ _ Hdist)).
    exists dc. split; [done|]. split; [|done]. by apply (inv_level_nonneg _ _ _ Hinv (to e)).
  - rewrite Hq in Hin. by inversion Hin.
Qed.

Lemma edge_at_most_one_level_down_witness :
  ∃ st, run_levels shortcut_nodes shortcut_edges = Done st ∧
        ∃ d', levels st !! js "c" = Some d' ∧ 0 ≤ d' ≤ 1 + 1.
Proof.
  eexists. split; [vm_compute; reflexivity|].
  apply (edge_at_most_one_level_down shortcut_nodes shortcut_edges _ (edge "b" "c") 1
           ltac:(vm_compute; reflexivity)).
  - apply list_elem_of_In. simpl. tauto.
  - vm_compute. reflexivity.
  - discriminate.
Defined.

(** ** The number of turns of the loop *)

Section LoopBound.

Implicit Types (adjacency m : gmap jsstring (list jsstring)) (seeds : list jsstring).
Implicit Types (nodes : list ReasoningNode) (edges : list ReasoningEdge) (t : tables).

(** More fuel does not change a run that has ended. *)
Lemma bfs_fuel_mono adjacency (f f' : nat) st :
  bfs f adjacency st ≠ OutOfFuel → (f ≤ f')%nat → bfs f' adjacency st = bfs f adjacency st.
Proof.
  revert f' st. induction f as [|f IH]; intros f' st Hrun Hle.
  - destruct st as [[|[i d] q] vis lv asg]; simpl in *; [by destruct f'|done].
  - destruct f' as [|f']; [lia|].
    destruct st as [[|[i d] q] vis lv asg]; simpl in *; [done|].
    destruct (decide (i ∈ vis)); [apply IH; [done|lia]|].
    destruct (adjacency !! i); [apply IH; [done|lia]|done].
Qed.

Lemma entries_insert m k out :
  (entries (<[k := out]> m) + length (default [] (m !! k)) = entries m + length out)%nat.
Proof.
  unfold entries. rewrite <- (insert_delete_eq m k out).
  rewrite (sum_list_perm _ _ (fmap_Permutation _ _ _
             (map_to_list_insert (delete k m) k out (lookup_delete_eq m k)))).
  destruct (m !! k) as [old|] eqn:Hk.
  - rewrite <- (sum_list_perm _ _ (fmap_Permutation _ _ _ (map_to_list_delete m k old Hk))).
    simpl. change (list_fmap _ _ ?f ?l) with (f <$> l). lia.
  - rewrite (delete_id m k Hk). simpl. change (list_fmap _ _ ?f ?l) with (f <$> l). lia.
Qed.

Lemma entries_init_from t nodes :
  entries (adj t) = O → entries (adj (foldl init_node t nodes)) = O.
Proof.
  revert t. induction nodes as [|n nodes IH]; intros t Ht; [done|].
  cbn [foldl]. apply IH. simpl.
  pose proof (entries_insert (adj t) (id n) []) as H. simpl in H. lia.
Qed.

Lemma entries_add_links edges t t' :
  add_links t edges = Some t' → entries (adj t') = (entries (adj t) + length edges)%nat.
Proof.
  revert t. induction edges as [|e edges IH]; intros t; simpl.
  - intros [= <-]. lia.
  - unfold add_link. destruct (adj t !! from e) as [out|] eqn:Hout; [|done].
    intros Hrest. rewrite (IH _ Hrest). simpl.
    pose proof (entries_insert (adj t) (from e) (out ++ [to e])) as H.
    rewrite Hout, length_app in H. simpl in H. lia.
Qed.

Lemma pending_empty m : pending m ∅ = entries m.
Proof.
  unfold pending, entries. f_equal. f_equal. f_equal.
  apply map_filter_id. intros k v _. simpl. apply not_elem_of_empty.
Qed.

Lemma seed_queue_length t nodes : (length (seed_queue t nodes) ≤ length nodes)%nat.
Proof.
  unfold seed_queue.
  pose proof (length_filter (λ n, incomingCount t !! id n = Some (Count 0)) nodes) as H.
  assert (Hr : length (roots t nodes)
               = length (filter (λ n, incomingCount t !! id n = Some (Count 0)) nodes)).
  { unfold roots. by rewrite length_fmap. }
  destruct (roots t nodes) as [|x l]; [|lia].
  destruct nodes; simpl; lia.
Qed.

End LoopBound.

(** X4: the loop ends, with the levels or in the TypeError, after at most
    as many turns as there are nodes and edges together: unrolled that many
    times or more, it gives what the pass gives. *)
Theorem loop_turns_bounded nodes edges t (turns : nat) :
  add_links (init_tables nodes) edges = Some t →
  (length nodes + length edges ≤ turns)%nat →
  bfs turns (adj t) (initial_state (seed_queue t nodes)) = run_levels nodes edges ∧
  run_levels nodes edges ≠ OutOfFuel.
Proof.
  intros Ht Hturns. unfold run_levels, traverse. rewrite Ht.
  set (st := initial_state (seed_queue t nodes)).
  assert (Hb : (loop_bound (adj t) st ≤ length nodes + length edges)%nat).
  { unfold loop_bound, st. simpl. rewrite pending_empty.
    rewrite (entries_add_links edges _ t Ht).
    unfold init_tables. rewrite entries_init_from by done.
    pose proof (seed_queue_length t nodes). lia. }
  pose proof (bfs_enough_fuel (adj t) (loop_bound (adj t) st) st (Nat.le_refl _)) as Hend.
  split; [|done]. apply bfs_fuel_mono; [done|lia].
Qed.

Lemma loop_turns_bounded_witness :
  ∃ t, add_links (init_tables shortcut_nodes) shortcut_edges = Some t ∧
       bfs 10 (adj t) (initial_state (seed_queue t shortcut_nodes))
         = run_levels shortcut_nodes shortcut_edges.
Proof.
  eexists. split; [vm_compute; reflexivity|].
  apply (loop_turns_bounded shortcut_nodes shortcut_edges _ 10).
  - vm_compute. reflexivity.
  - simpl. lia.
Defined.

(** ** Acyclic graphs *)

Section Acyclic.

Implicit Types (nodes : list ReasoningNode) (edges : list ReasoningEdge).

Lemma tc_flip (R : relation jsstring) x y : tc (flip R) x y → tc R y x.
Proof.
  induction 1 as [x y H|x y z H _ IH]; [by apply tc_once|].
  eapply tc_r; [exact IH|exact H].
Qed.

Lemma rtc_flip (R : relation jsstring) x y : rtc (flip R) x y → rtc R y x.
Proof.
  induction 1 as [|x y z H _ IH]; [done|]. eapply rtc_r; [exact IH|exact H].
Qed.

Lemma red_flip_dec edges k : Decision (red (flip (edge_step edges)) k).
Proof.
  destruct (decide (Exists (λ e, to e = k) edges)) as [Hex|Hno].
  - left. apply Exists_exists in Hex as (e & He & Hto). exists (from e). by exists e.
  - right. intros (y & e & He & Hfrom & Hto). apply Hno, Exists_exists. by exists e.
Defined.

(** In an acyclic graph every id is reached from an id without incoming
    edge. *)
Lemma acyclic_root edges k :
  acyclic edges →
  ∃ s, rtc (edge_step edges) s k ∧ in_degree edges s = O ∧
       (s = k ∨ ∃ e, e ∈ edges ∧ from e = s).
Proof.
  intros Hac.
  assert (Hsn : sn (flip (edge_step edges)) k).
  { apply tc_finite_sn.
    - intros x Hx. by apply (Hac x), tc_flip.
    - exists (from <$> edges). intros x Hx. apply tc_flip in Hx.
      apply tc_rtc_l with (x:=x) (y:=x) in Hx; [|done].
      inversion Hx as [? ? (e & He & <- & _)|? ? ? (e & He & <- & _) _]; subst;
        apply list_elem_of_fmap; by exists e. }
  apply (@sn_wn _ _ (red_flip_dec edges)) in Hsn as (s & Hks & Hnf).
  exists s. split_and!.
  - by apply rtc_flip.
  - unfold in_degree. rewrite filter_none; [done|].
    intros e He Hto. apply Hnf. exists (from e). by exists e.
  - apply rtc_flip in Hks. apply rtc_inv in Hks as [->|(y & (e & He & <- & _) & _)];
      [by left|right; by exists e].
Qed.

(** The seeds when some node is a root. *)
Lemma seeds_of_roots nodes edges r :
  r ∈ nodes → root edges r →
  ∀ s, s ∈ (seeds_of nodes edges).*1 ↔
       s ∈ id <$> nodes ∧ in_degree edges s = O ∧ s ≠ proto.
Proof.
  intros Hr Hin s. unfold seeds_of.
  assert (Hrf : r ∈ filter (root edges) nodes)
    by (by apply list_elem_of_filter).
  destruct (filter (root edges) nodes) as [|x l] eqn:Hf;
    [by inversion Hrf|].
  cbv iota. rewrite <- Hf, <- list_fmap_compose. split.
  - intros (n & -> & [Hn Hnn]%list_elem_of_filter)%list_elem_of_fmap.
    split; [|done]. apply list_elem_of_fmap. by exists n.
  - intros [(n & -> & Hn)%list_elem_of_fmap Hs]. apply list_elem_of_fmap. exists n.
    split; [done|]. by apply list_elem_of_filter.
Qed.

End Acyclic.

(** X5: in a graph without cycle and without dangling edge, none of whose
    nodes is named [__proto__], the pass ends and every node has an entry in
    [levels], none is left to the default; the level is 0 exactly for the
    nodes without incoming edge. *)
Theorem acyclic_graph_all_levelled nodes edges :
  closed_graph nodes edges → acyclic edges → proto ∉ id <$> nodes →
  ∃ st, run_levels nodes edges = Done st ∧
    ∀ n, n ∈ nodes →
      ∃ d, levels st !! id n = Some d ∧ (d = 0 ↔ in_degree edges (id n) = O).
Proof.
  intros Hcl Hac Hproto.
  destruct (levels_without_fatal_edge nodes edges (closed_graph_not_fatal _ _ Hcl))
    as (t & st & _ & _ & Hrun & _ & _ & Hreach & _ & _ & _ & Hlv & _).
  exists st. split; [done|]. intros n Hn.
  assert (Hk : id n ∈ id <$> nodes) by (apply list_elem_of_fmap; by exists n).
  destruct (acyclic_root edges (id n) Hac) as (s & Hsk & Hs0 & Hs).
  assert (Hsn : s ∈ id <$> nodes).
  { destruct Hs as [->|(e & He & <-)]; [done|]. by apply (Hcl e He). }
  assert (Hnp : ∀ k, k ∈ id <$> nodes → k ≠ proto) by (by intros k Hkn ->).
  pose proof Hsn as Hrn. apply list_elem_of_fmap in Hsn as (r & -> & Hr).
  assert (Hroot : root edges r) by (split; [done | by apply Hnp]).
  pose proof (seeds_of_roots nodes edges r Hr Hroot) as Hseeds.
  assert (Hvis : id n ∈ visited st).
  { apply Hreach. exists (id r). split; [|done]. apply Hseeds. destruct Hroot. done. }
  assert (Hsome : is_Some (levels st !! id n)) by (apply Hlv; split; [done | by apply Hnp]).
  destruct Hsome as [d Hd]. exists d. split; [done|].
  destruct (proj1 (levels_distance nodes edges st (id n) d Hrun) Hd)
    as (_ & Hd0 & (s' & Hs' & Hpath) & Hmin).
  split.
  - intros ->. simpl in Hpath. assert (s' = id n) as -> by (by inversion Hpath).
    by apply Hseeds in Hs' as (_ & ? & _).
  - intros Hin. assert (Hseed : id n ∈ (seeds_of nodes edges).*1).
    { apply Hseeds. split_and!; [done..|]. by apply Hnp. }
    specialize (Hmin (id n) O Hseed (nsteps_O _ _)). lia.
Qed.

Lemma forest_acyclic : acyclic forest_edges.
Proof.
  assert (Hstep : ∀ a b, edge_step forest_edges a b → (forest_rank a < forest_rank b)%nat).
  { intros a b (e & He & <- & <-). apply list_elem_of_In in He. simpl in He.
    destruct He as [<-|[<-|[<-|[<-|[]]]]]; vm_compute; lia. }
  assert (Htc : ∀ a b, tc (edge_step forest_edges) a b → (forest_rank a < forest_rank b)%nat).
  { induction 1 as [a b H|a b c H _ IH]; [by apply Hstep|].
    apply Hstep in H. lia. }
  intros k Hk. apply Htc in Hk. lia.
Defined.

Lemma forest_closed : closed_graph forest_nodes forest_edges.
Proof.
  intros e He. apply list_elem_of_In in He. simpl in He.
  destruct He as [<-|[<-|[<-|[<-|[]]]]]; split; apply list_elem_of_In; simpl; tauto.
Defined.

Lemma acyclic_graph_all_levelled_witness :
  ∃ st, run_levels forest_nodes forest_edges = Done st ∧
    ∀ n, n ∈ forest_nodes →
      ∃ d, levels st !! id n = Some d ∧ (d = 0 ↔ in_degree forest_edges (id n) = O).
Proof.
  apply (acyclic_graph_all_levelled _ _ forest_closed forest_acyclic).
  apply (bool_decide_unpack _). vm_compute. exact I.
Defined.

(** A node named [__proto__] alone: a graph without cycle and without
    dangling edge in which a node ends without level. *)
Example levels_proto_alone :
  closed_graph [node "__proto__"] [] ∧ acyclic [] ∧
  assign_levels [node "__proto__"] [] = Done [(node "__proto__", Member)].
Proof.
  split_and!.
  - by intros e He%elem_of_nil.
  - intros k Hk.
    destruct Hk as [x y (e & He & _)|x y z (e & He & _) _]; by apply elem_of_nil in He.
  - vm_compute. reflexivity.
Qed.

(** ** The order of the edges *)

Section EdgeOrder.

Implicit Types (nodes : list ReasoningNode) (edges : list ReasoningEdge).

Lemma in_degree_perm edges edges' k :
  edges ≡ₚ edges' → in_degree edges k = in_degree edges' k.
Proof. intros Hp. unfold in_degree. by rewrite Hp. Qed.

Lemma edge_step_perm edges edges' a b :
  edges ≡ₚ edges' → edge_step edges a b ↔ edge_step edges' a b.
Proof.
  intros Hp. unfold edge_step. split; intros (e & He & H); exists e; split; try done.
  - by rewrite <- Hp.
  - by rewrite Hp.
Qed.

Lemma seeds_of_perm nodes edges edges' :
  edges ≡ₚ edges' → seeds_of nodes edges = seeds_of nodes edges'.
Proof.
  intros Hp. unfold seeds_of.
  assert (filter (root edges) nodes = filter (root edges') nodes) as ->; [|done].
  apply list_filter_iff. intros n. unfold root.
  by rewrite (in_degree_perm edges edges' _ Hp).
Qed.

Lemma fatal_dangling_perm nodes edges edges' :
  edges ≡ₚ edges' → fatal_dangling nodes edges → fatal_dangling nodes edges'.
Proof.
  intros Hp [(e & He & Hfrom)|(e & s & He & Hto & Hs & Hreach)].
  - left. exists e. split; [by rewrite <- Hp|done].
  - right. exists e, s. split_and!; try done.
    + by rewrite <- Hp.
    + by rewrite <- (seeds_of_perm nodes edges edges' Hp).
    + eapply rtc_subrel; [|exact Hreach]. intros a b. by apply edge_step_perm.
Qed.

End EdgeOrder.

(** X6: the levels do not depend on the order in which the edges are
    listed: if the pass ends for a list of edges, it ends for every
    rearrangement of the list, with the same levels. *)
Theorem levels_edge_order nodes edges edges' st :
  edges ≡ₚ edges' → run_levels nodes edges = Done st →
  ∃ st', run_levels nodes edges' = Done st' ∧ levels st' = levels st.
Proof.
  intros Hp Hrun.
  assert (Hsafe : ¬ fatal_dangling nodes edges').
  { intros Hf. apply (fatal_dangling_perm nodes edges' edges) in Hf; [|done].
    apply run_levels_TypeError_iff in Hf. congruence. }
  destruct (levels_without_fatal_edge nodes edges' Hsafe) as (t' & st' & _ & _ & Hrun' & _).
  exists st'. split; [done|]. apply map_eq. intros k. apply option_eq. intros d.
  rewrite (levels_distance nodes edges' st' k d Hrun').
  rewrite (levels_distance nodes edges st k d Hrun).
  rewrite <- (seeds_of_perm nodes edges edges' Hp).
  apply and_iff_compat_l.
  split; apply distance_subrel; intros a b; [symmetry|]; by apply edge_step_perm.
Qed.

Lemma levels_edge_order_witness :
  ∃ st st', run_levels shortcut_nodes shortcut_edges = Done st ∧
            run_levels shortcut_nodes (rev shortcut_edges) = Done st' ∧
            levels st' = levels st.
Proof.
  eexists.
  destruct (levels_edge_order shortcut_nodes shortcut_edges (rev shortcut_edges) _
              (Permutation_rev _) ltac:(vm_compute; reflexivity)) as (st' & Hrun' & Heq).
  exists st'. split; [vm_compute; reflexivity|]. by split.
Defined.

(** ** More on the attempts of extractJson *)

Section MoreAttempts.

Implicit Types (s r t m text : jsstring) (c : N) (v : json).

Lemma lastIndexOf_Some c s j :
  lastIndexOf c s = Some j → ∃ a b, s = a ++ c :: b ∧ length a = j.
Proof.
  revert j. induction s as [|x s IH]; intros j; simpl; [done|].
  destruct (lastIndexOf c s) as [k|].
  - intros [= <-]. destruct (IH k eq_refl) as (a & b & -> & <-). by exists (x :: a), b.
  - destruct (N.eqb_spec x c) as [->|]; [|done]. intros [= <-]. by exists [], s.
Qed.

(** What the regular expression matches runs from a brace to a brace. *)
Lemma match_braces_Some s m :
  match_braces s = Some m →
  ∃ pre body post, s = pre ++ m ++ post ∧ m = lbrace :: body ++ [rbrace] ∧
    indexOf lbrace s = Some (length pre).
Proof.
  unfold match_braces. destruct (indexOf lbrace s) as [i|] eqn:Hi; [|done].
  destruct (lastIndexOf rbrace (drop (S i) s)) as [j|] eqn:Hj; [|done]. intros [= <-].
  destruct (indexOf_Some _ _ _ Hi) as (r & Hr).
  assert (Hr' : drop (S i) s = r).
  { replace (S i) with (i + 1)%nat by lia. by rewrite <- drop_drop, Hr. }
  rewrite Hr' in Hj. destruct (lastIndexOf_Some _ _ _ Hj) as (a & b & -> & <-).
  assert (Hlen : (i ≤ length s)%nat).
  { destruct (decide (i ≤ length s)%nat); [done|]. rewrite drop_ge in Hr by lia. done. }
  assert (Hm : substring i (i + length a + 2) s = lbrace :: a ++ [rbrace]).
  { unfold substring. rewrite Hr.
    replace (i + length a + 2 - i)%nat with (S (length (a ++ [rbrace])))
      by (rewrite length_app; simpl; lia).
    cbn [take]. f_equal. rewrite (cons_middle rbrace a b), app_assoc.
    by rewrite take_app_length. }
  exists (take i s), a, b. rewrite Hm. split_and!.
  - rewrite <- (take_drop i s) at 1. rewrite Hr. f_equal. simpl. by rewrite <- app_assoc.
  - done.
  - rewrite length_take. f_equal. lia.
Qed.

(** Whatever the regular expression finds and [JSON.parse] accepts, the
    scanning loop has found before. *)
Lemma attempt_regex_scan text v :
  attempt_regex text = Some v → attempt_scan text = Some v.
Proof.
  unfold attempt_regex, attempt_scan.
  destruct (match_braces (clean text)) as [m|] eqn:Hm; [|done]. intros Hv.
  destruct (match_braces_Some _ _ Hm) as (pre & body & post & Hs & Hmb & Hi).
  assert (Hobj : object_text m v).
  { split_and!; [by rewrite Hmb | | done].
    rewrite Hmb, app_comm_cons. apply last_snoc. }
  rewrite Hi, Hs. by destruct (find_end_object pre m post v Hobj) as [-> ->].
Qed.

Lemma JSON_parse_brace_object r v :
  JSON_parse (lbrace :: r) = Some v → ∃ members, v = JObject members.
Proof.
  unfold JSON_parse. rewrite skip_ws_start by done.
  destruct (parse_value _ _) as [[v' rest]|] eqn:Hv; [|done].
  destruct (parse_value_object _ _ _ _ Hv) as (ms & ->).
  destruct (skip_ws rest); [|done]. intros [= <-]. by exists ms.
Qed.

Lemma attempt_scan_object text v :
  attempt_scan text = Some v → ∃ members, v = JObject members.
Proof.
  unfold attempt_scan.
  destruct (indexOf lbrace (clean text)) as [i|] eqn:Hi; [|done].
  destruct (find_end (clean text) i) as [e|]; [|done].
  destruct (indexOf_Some _ _ _ Hi) as (r & Hr). unfold substring. rewrite Hr.
  destruct (e + 1 - i)%nat; [done|]. apply JSON_parse_brace_object.
Qed.

(** The first three attempts decide. *)
Lemma extractJson_three_attempts text :
  extractJson text =
    default JNull (first_success [attempt_strict text; attempt_cleaned text;
                                  attempt_scan text]).
Proof.
  rewrite extractJson_first_success. simpl.
  destruct (attempt_strict text); [done|]. destruct (attempt_cleaned text); [done|].
  destruct (attempt_regex text) as [v|] eqn:Hr.
  - by rewrite (attempt_regex_scan text v Hr).
  - by destruct (attempt_scan text).
Qed.

(** *** Cleaning twice *)

Lemma delete_all_absent m f s :
  ¬ occurs m s → (length s ≤ f)%nat → delete_all f m s = s.
Proof.
  revert s. induction f as [|f IH]; intros s Hm Hf.
  - destruct s; [done|simpl in Hf; lia].
  - destruct s as [|c r]; [done|]. cbn [delete_all].
    destruct (after_prefix m (c :: r)) as [rest|] eqn:Hp.
    + apply after_prefix_Some in Hp. destruct Hm. exists [], rest. by rewrite Hp.
    + f_equal. apply IH; [|simpl in Hf; lia].
      intros Ho. apply Hm. by apply occurs_tail.
Qed.

Lemma drop_spaces_id s :
  (∀ c r, s = c :: r → is_space c = false) → drop_spaces s = s.
Proof. destruct s as [|c r]; [done|]. intros H. simpl. by rewrite (H c r). Qed.

Lemma trim_trim s : trim (trim s) = trim s.
Proof.
  unfold trim.
  set (u := drop_spaces s).
  assert (Hu : ∀ c r, u = c :: r → is_space c = false) by (intros c r; apply drop_spaces_head).
  set (w := drop_spaces (rev u)).
  assert (Hw : ∀ c r, w = c :: r → is_space c = false) by (intros c r; apply drop_spaces_head).
  assert (Hrw : ∀ c r, rev w = c :: r → is_space c = false).
  { destruct u as [|c0 r0]; [by subst w|]. intros c r Hc.
    pose proof (Hu c0 r0 eq_refl) as Hc0.
    assert (Hw' : w = drop_spaces (rev r0) ++ [c0]).
    { subst w. simpl. rewrite (drop_spaces_app (rev r0) c0 []); done. }
    rewrite Hw', rev_app_distr in Hc. simpl in Hc. by injection Hc as <- _. }
  rewrite (drop_spaces_id (rev w)) by done.
  rewrite rev_involutive. rewrite (drop_spaces_id w) by done. done.
Qed.

Lemma clean_clean text : clean (clean text) = clean text.
Proof.
  destruct (clean_no_fence text) as [H1 H2].
  unfold clean at 1. unfold delete_marker.
  rewrite (delete_all_absent fence_json) by done.
  rewrite (delete_all_absent fence) by done.
  unfold clean. apply trim_trim.
Qed.

End MoreAttempts.

(** X7: the last resort never decides. Whenever the regular expression of
    step 5 finds a text that [JSON.parse] accepts, the scanning loop of step
    4 has found the same text; so [extractJson] returns what the first of
    the three earlier attempts to succeed has parsed, and [null] when none
    does. *)
Theorem regex_attempt_redundant text :
  (attempt_regex text = None ∨ attempt_regex text = attempt_scan text) ∧
  extractJson text =
    default JNull (first_success [attempt_strict text; attempt_cleaned text;
                                  attempt_scan text]).
Proof.
  split; [|apply extractJson_three_attempts].
  destruct (attempt_regex text) as [v|] eqn:Hr; [right|by left].
  by rewrite (attempt_regex_scan text v Hr).
Qed.

(** X8: a text that [JSON.parse] rejects, as it is and cleaned, yields an
    object or [null], never an array or a scalar: the result is what the
    scanning loop extracts, and that is an object. *)
Theorem fallback_yields_object text :
  JSON_parse text = None → JSON_parse (clean text) = None →
  (attempt_scan text = None ∧ extractJson text = JNull) ∨
  (∃ members, attempt_scan text = Some (JObject members) ∧
              extractJson text = JObject members).
Proof.
  intros H1 H2. rewrite extractJson_three_attempts.
  unfold attempt_strict, attempt_cleaned. rewrite H1, H2. simpl.
  destruct (attempt_scan text) as [v|] eqn:Hs; [|by left].
  destruct (attempt_scan_object text v Hs) as (ms & ->). right. by exists ms.
Qed.

Lemma fallback_yields_object_witness :
  let text := js "Steps [1, 2] give " ++ jq "{'n': [1, 2]}" ++ js " as asked." in
  (attempt_scan text = None ∧ extractJson text = JNull) ∨
  (∃ members, attempt_scan text = Some (JObject members) ∧
              extractJson text = JObject members).
Proof.
  apply fallback_yields_object; vm_compute; reflexivity.
Defined.

(** X9: cleaning is idempotent, and once the strict parse of a text has
    failed, extracting from the cleaned text gives what extracting from the
    text gives. *)
Theorem clean_idempotent text :
  clean (clean text) = clean text ∧
  (JSON_parse text = None → extractJson (clean text) = extractJson text).
Proof.
  split; [apply clean_clean|]. intros H.
  unfold extractJson. rewrite H, clean_clean.
  by destruct (JSON_parse (clean text)).
Qed.

Lemma clean_idempotent_witness :
  let text := js "```json" ++ [10%N] ++ jq "{'a': 1}" ++ [10%N] ++ js "```" in
  extractJson (clean text) = extractJson text.
Proof.
  apply clean_idempotent. vm_compute. reflexivity.
Defined.

(** ** More on the resolver *)

Section MoreResolver.

Implicit Types (steps : list StudentStepAnalysis) (nid pre ds suf : jsstring).

Lemma resolve_index_two_rules steps nid :
  resolve_index steps nid =
    if by_number steps nid =? -1 then by_position steps nid else by_number steps nid.
Proof.
  unfold resolve_index. destruct (Z.eqb_spec (by_number steps nid) (-1)) as [Hn|Hn].
  - by rewrite (by_exact_id_dead steps nid Hn).
  - by rewrite (proj2 (Z.eqb_neq _ _) Hn).
Qed.

Lemma by_number_found steps nid :
  by_number steps nid ≠ -1 →
  ∃ i s, by_number steps nid = Z.of_nat i ∧ steps !! i = Some s ∧
         same_number nid s = true ∧ first_index (same_number nid) steps i.
Proof.
  intros Hn. destruct (findIndex_from_found (same_number nid) steps 0) as (i & Hi & Heq); [done..|].
  destruct Hi as [(s & Hs & Hp) Hbefore]. exists i, s. split_and!; try done.
  split; [by exists s|done].
Qed.

Lemma by_number_none_inv steps nid :
  by_number steps nid = -1 → ∀ s, s ∈ steps → same_number nid s = false.
Proof.
  intros Hn s Hs. destruct (same_number nid s) eqn:Hp; [|done].
  apply list_elem_of_lookup in Hs as (n & Hn').
  destruct (first_index_exists _ _ _ _ Hn' Hp) as (i & _ & Hi).
  rewrite (by_number_first steps nid i Hi) in Hn. lia.
Qed.

Lemma first_digits_app pre s : no_digits pre → first_digits (pre ++ s) = first_digits s.
Proof.
  unfold no_digits. induction pre as [|c pre IH]; [done|]. simpl.
  destruct (is_digit c); [done|]. exact IH.
Qed.

Lemma digit_run_app ds suf :
  Forall (λ c, is_digit c = true) ds →
  (∀ c r, suf = c :: r → is_digit c = false) →
  digit_run (ds ++ suf) = ds.
Proof.
  intros Hds Hsuf. induction Hds as [|c ds Hc _ IH]; simpl.
  - destruct suf as [|c r]; [done|]. simpl. by rewrite (Hsuf c r).
  - by rewrite Hc, IH.
Qed.

Lemma decimal_value_zeros k ds :
  decimal_value (repeat 48%N k ++ ds) = decimal_value ds.
Proof. induction k as [|k IH]; [done|]. exact IH. Qed.

End MoreResolver.

(** X10: the direct comparison of ids (rule 2) never decides: whenever no
    step has the number of the node id, no step has the id itself either,
    so that the index is the one of rule 1 or else the one of rule 3. *)
Theorem exact_id_rule_never_decides steps nid :
  (by_number steps nid ≠ -1 ∨ by_exact_id steps nid = -1) ∧
  resolve_index steps nid =
    (if by_number steps nid =? -1 then by_position steps nid
     else by_number steps nid).
Proof.
  split; [|apply resolve_index_two_rules].
  destruct (Z.eq_dec (by_number steps nid) (-1)) as [Hn|Hn]; [right|by left].
  by apply by_exact_id_dead.
Qed.

(** X11: what the handler focuses is a step of the list, and it is either the
    first step whose number is the number of the node id, or, when no step
    has that number, the step at the position the number gives, counted
    from 1. *)
Theorem focused_step_sound sa node_id i :
  handleGraphNodeClick sa node_id = Some i →
  ∃ steps nid s,
    sa = Some steps ∧ node_id = Some nid ∧ nid ≠ [] ∧
    0 ≤ i ∧ steps !! Z.to_nat i = Some s ∧
    (first_index (same_number nid) steps (Z.to_nat i) ∨
     ((∀ s', s' ∈ steps → same_number nid s' = false) ∧
      getNum nid = Finite (i + 1))).
Proof.
  destruct node_id as [[|c nid]|]; [done| |done].
  destruct sa as [steps|]; [|done]. rewrite handle_unfold.
  rewrite resolve_index_two_rules.
  destruct (Z.eqb_spec (by_number steps (c :: nid)) (-1)) as [Hn|Hn].
  - unfold by_position. destruct (getNum (c :: nid)) as [n|] eqn:Hg; [|done].
    destruct (0 <? n) eqn:H0; [|done]. destruct (n <=? Z.of_nat (length steps)) eqn:Hl; [|done].
    simpl. apply Z.ltb_lt in H0. apply Z.leb_le in Hl.
    rewrite (proj2 (Z.eqb_neq _ _)) by lia. intros [= <-].
    destruct (lookup_lt_is_Some_2 steps (Z.to_nat (n - 1))) as [s Hs]; [lia|].
    exists steps, (c :: nid), s. split_and!; try done; [lia|].
    right. split; [by apply by_number_none_inv|]. rewrite Hg. f_equal. lia.
  - rewrite (proj2 (Z.eqb_neq _ _) Hn). intros [= <-].
    destruct (by_number_found steps (c :: nid) Hn) as (n & s & Heq & Hs & _ & Hfirst).
    rewrite Heq, Nat2Z.id. exists steps, (c :: nid), s. split_and!; try done; [lia|by left].
Qed.

Lemma focused_step_sound_witness :
  ∃ steps nid s,
    Some [step "intro"; step "setup"; step "solve"] = Some steps ∧
    Some (js "process-2") = Some nid ∧ nid ≠ [] ∧
    0 ≤ 1 ∧ steps !! Z.to_nat 1 = Some s ∧
    (first_index (same_number nid) steps (Z.to_nat 1) ∨
     ((∀ s', s' ∈ steps → same_number nid s' = false) ∧
      getNum nid = Finite (1 + 1))).
Proof.
  apply (focused_step_sound (Some [step "intro"; step "setup"; step "solve"])
           (Some (js "process-2")) 1).
  vm_compute. reflexivity.
Defined.

(** X12: the number of an id is read from its first run of digits: the text
    before the run and whatever follows it are ignored, and so are leading
    zeros. *)
Theorem id_number_first_run pre ds suf k :
  no_digits pre → ds ≠ [] → Forall (λ c, is_digit c = true) ds →
  (∀ c r, suf = c :: r → is_digit c = false) →
  getNum (pre ++ repeat 48%N k ++ ds ++ suf) = parseInt10 ds.
Proof.
  intros Hpre Hne Hds Hsuf. unfold getNum. rewrite first_digits_app by done.
  assert (Hall : Forall (λ c, is_digit c = true) (repeat 48%N k ++ ds)).
  { apply Forall_app. split; [|done]. apply Forall_forall.
    by intros c ->%list_elem_of_In%repeat_spec. }
  rewrite app_assoc.
  destruct (repeat 48%N k ++ ds) as [|c r] eqn:Hr.
  { apply app_eq_nil in Hr as [_ ->]. done. }
  apply Forall_cons in Hall as [Hc Hall]. simpl. rewrite Hc.
  rewrite digit_run_app by done. unfold parseInt10. f_equal.
  rewrite <- Hr. apply decimal_value_zeros.
Qed.

Lemma id_number_first_run_witness :
  getNum (js "step-" ++ repeat 48%N 2 ++ js "7" ++ js "b12") = parseInt10 (js "7").
Proof.
  apply (id_number_first_run (js "step-") (js "7") (js "b12") 2).
  - reflexivity.
  - discriminate.
  - repeat constructor.
  - intros c r [= <- _]. reflexivity.
Defined.

(** X13: when the steps are numbered 1, 2, 3, ... in their order, a node
    whose id has the number [k] focuses the [k]-th step if there is one, and
    nothing otherwise. *)
Theorem numbered_steps_focus (steps : list StudentStepAnalysis) (nid : jsstring) k :
  (∀ i s, steps !! i = Some s → getNum (step_id s) = Finite (Z.of_nat i + 1)) →
  nid ≠ [] → getNum nid = Finite k →
  handleGraphNodeClick (Some steps) (Some nid) =
    if (1 <=? k) && (k <=? Z.of_nat (length steps)) then Some (k - 1) else None.
Proof.
  intros Hnum Hne Hk.
  destruct (resolver_rules steps nid Hne) as (R1 & _ & _ & R4).
  assert (Hsame : ∀ i s, steps !! i = Some s →
            same_number nid s = true ↔ Z.of_nat i + 1 = k).
  { intros i s Hs. unfold same_number. rewrite (Hnum i s Hs), Hk. simpl.
    apply Z.eqb_eq. }
  destruct ((1 <=? k) && (k <=? Z.of_nat (length steps))) eqn:Hrange.
  - apply andb_true_iff in Hrange as [H1%Z.leb_le H2%Z.leb_le].
    destruct (lookup_lt_is_Some_2 steps (Z.to_nat (k - 1))) as [s Hs]; [lia|].
    rewrite (R1 (Z.to_nat (k - 1))); [f_equal; lia|]. split.
    + exists s. split; [done|]. apply (Hsame _ _ Hs). lia.
    + intros j y Hj Hy. destruct (same_number nid y) eqn:Hp; [|done].
      apply (Hsame _ _ Hy) in Hp. lia.
  - assert (Hout : ¬ (1 ≤ k ≤ Z.of_nat (length steps))).
    { intros [? ?]. apply andb_false_iff in Hrange as [Hr%Z.leb_gt|Hr%Z.leb_gt]; lia. }
    assert (Hnone : ∀ s, s ∈ steps → same_number nid s = false).
    { intros s (i & Hs)%list_elem_of_lookup. destruct (same_number nid s) eqn:Hp; [|done].
      apply (Hsame _ _ Hs) in Hp. apply lookup_lt_Some in Hs. lia. }
    apply R4; [done| |].
    + intros s Hs. destruct (same_id nid s) eqn:Hp; [|done].
      apply same_id_same_number in Hp. by rewrite Hnone in Hp.
    + intros n Hn. rewrite Hk in Hn. injection Hn as <-. lia.
Qed.

Lemma numbered_steps_focus_witness :
  handleGraphNodeClick (Some three_steps) (Some (js "node-2")) = Some (2 - 1) ∧
  handleGraphNodeClick (Some three_steps) (Some (js "n7")) = None.
Proof.
  assert (Hnum : ∀ i s, three_steps !! i = Some s →
            getNum (step_id s) = Finite (Z.of_nat i + 1)).
  { intros [|[|[|i]]] s; simpl; intros [= <-]; reflexivity. }
  split.
  - exact (numbered_steps_focus three_steps (js "node-2") 2 Hnum ltac:(discriminate) eq_refl).
  - exact (numbered_steps_focus three_steps (js "n7") 7 Hnum ltac:(discriminate) eq_refl).
Defined.

(** ** The callers of extractJson *)

Section ServiceProofs.

Import Service.

Implicit Types (s r t text : jsstring) (c : N) (v : json).

Lemma indexOf_None c s : c ∉ s → indexOf c s = None.
Proof.
  induction s as [|x s IH]; intros Hc; [done|]. simpl.
  rewrite (proj2 (N.eqb_neq x c)) by (intros ->; apply Hc; by left).
  rewrite IH; [done|]. intros ?. apply Hc. by right.
Qed.

Lemma attempt_scan_no_brace text : lbrace ∉ text → attempt_scan text = None.
Proof.
  intros Hb. unfold attempt_scan. rewrite indexOf_None; [done|].
  intros Hc. apply Hb. eapply elem_of_sublist; [exact Hc|]. apply clean_sublist.
Qed.

Lemma split_pieces sep s : ∃ p ps, split sep s = p :: ps.
Proof.
  induction s as [|c r (p & ps & IH)]; simpl; [by eauto|].
  destruct (c =? sep)%N; [by eauto|]. rewrite IH. by eauto.
Qed.

Lemma split_no_sep sep s : sep ∉ s → split sep s = [s].
Proof.
  induction s as [|c r IH]; intros Hs; [done|]. simpl.
  rewrite (proj2 (N.eqb_neq c sep)) by (intros ->; apply Hs; by left).
  rewrite IH; [done|]. intros ?. apply Hs. by right.
Qed.

Lemma split_app sep a b :
  sep ∉ a → split sep (a ++ sep :: b) = a :: split sep b.
Proof.
  induction a as [|c a IH]; intros Ha; simpl.
  - by rewrite N.eqb_refl.
  - rewrite (proj2 (N.eqb_neq c sep)) by (intros ->; apply Ha; by left).
    rewrite IH; [done|]. intros ?. apply Ha. by right.
Qed.

(** X14: when the text of the response is not JSON, as it is and cleaned,
    [analyzeProblem] throws its parse error or returns an object as
    [parsedData], the one the scanning loop of [extractJson] has found,
    together with the text. *)
Theorem analysis_of_unparsed_text response_text :
  JSON_parse (default [] response_text) = None →
  JSON_parse (clean (default [] response_text)) = None →
  (attempt_scan (default [] response_text) = None ∧
   analyzeProblem_result response_text =
     AnalysisError (js "Failed to parse analysis response.")) ∨
  (∃ members,
     attempt_scan (default [] response_text) = Some (JObject members) ∧
     analyzeProblem_result response_text =
       Analysis (JObject members) (default [] response_text)).
Proof.
  intros H1 H2. unfold analyzeProblem_result.
  rewrite extractJson_three_attempts. unfold attempt_strict, attempt_cleaned.
  rewrite H1, H2. simpl.
  destruct (attempt_scan _) as [v|] eqn:Hs; [|by left].
  destruct (attempt_scan_object _ v Hs) as (ms & ->). right. by exists ms.
Qed.

Lemma analysis_of_unparsed_text_witness :
  analyzeProblem_result (Some (js "Here you are: " ++ jq "{'domain': 'MATH'}")) =
    Analysis (JObject [(js "domain", JString (js "MATH"))])
             (js "Here you are: " ++ jq "{'domain': 'MATH'}") ∧
  analyzeProblem_result None = AnalysisError (js "Failed to parse analysis response.").
Proof.
  split.
  - destruct (analysis_of_unparsed_text
                (Some (js "Here you are: " ++ jq "{'domain': 'MATH'}"))
                ltac:(vm_compute; reflexivity) ltac:(vm_compute; reflexivity))
      as [[Hs _]|(ms & Hs & H)].
    + vm_compute in Hs. discriminate Hs.
    + vm_compute in Hs. injection Hs as <-. exact H.
  - destruct (analysis_of_unparsed_text None
                ltac:(vm_compute; reflexivity) ltac:(vm_compute; reflexivity))
      as [[_ H]|(ms & Hs & _)]; [exact H|].
    vm_compute in Hs. discriminate Hs.
Defined.

(** X15: an answer to a follow-up question that is not JSON, as it is and
    cleaned, and has no opening brace, is shown as [JSON.stringify(null)]:
    the reply has type text and the string of [null] as content. *)
Theorem follow_up_prose_shows_null response_text :
  JSON_parse (default [] response_text) = None →
  JSON_parse (clean (default [] response_text)) = None →
  lbrace ∉ default [] response_text →
  askFollowUpQuestion_reply (Some response_text) =
    {| type := TypeText; content := Stringified JNull |}.
Proof.
  intros H1 H2 Hb. unfold askFollowUpQuestion_reply.
  rewrite extractJson_three_attempts. unfold attempt_strict, attempt_cleaned.
  rewrite H1, H2, attempt_scan_no_brace by done. done.
Qed.

Lemma follow_up_prose_shows_null_witness :
  askFollowUpQuestion_reply (Some (Some (js "The derivative of x^2 is 2x."))) =
    {| type := TypeText; content := Stringified JNull |}.
Proof.
  apply follow_up_prose_shows_null.
  - vm_compute. reflexivity.
  - vm_compute. reflexivity.
  - simpl. intros H. apply list_elem_of_In in H. vm_compute in H. intuition discriminate.
Defined.

(** X16: what [fileToGenerativePart] sends has one of the supported types,
    a file whose type starts with [image/] is never refused, and from a
    data URL with one comma, [split(',')[1]] takes all that follows the
    comma. *)
Theorem generative_part_types :
  (∀ file_type mimeType,
     fileToGenerativePart_route file_type = Inline mimeType ∨
     fileToGenerativePart_route file_type = Redrawn mimeType →
     mimeType ∈ SUPPORTED_MIME_TYPES) ∧
  (∀ rest, fileToGenerativePart_route (js "image/" ++ rest) ≠ Unsupported) ∧
  (∀ header payload, comma ∉ header → comma ∉ payload →
     base64_of_data_url (header ++ comma :: payload) = Some payload) ∧
  (∀ dataUrl, comma ∉ dataUrl → base64_of_data_url dataUrl = None).
Proof.
  split_and!.
  - intros ft m. unfold fileToGenerativePart_route.
    case_bool_decide as Hin.
    + by intros [[= <-]|[=]].
    + destruct (startsWith _ ft); [|by intros [|]].
      intros [[=]|[= <-]]. apply list_elem_of_In. vm_compute. tauto.
  - intros rest. unfold fileToGenerativePart_route.
    case_bool_decide; [done|].
    assert (startsWith (js "image/") (js "image/" ++ rest) = true) as ->; [|done].
    unfold startsWith.
    by rewrite (proj2 (after_prefix_Some (js "image/") (js "image/" ++ rest) rest) eq_refl).
  - intros header payload Hh Hp. unfold base64_of_data_url.
    by rewrite split_app, split_no_sep.
  - intros dataUrl Hd. unfold base64_of_data_url. by rewrite split_no_sep.
Qed.

Lemma generative_part_types_witness :
  base64_of_data_url (js "data:image/png;base64,iVBORw0KGgo=") = Some (js "iVBORw0KGgo=").
Proof.
  destruct generative_part_types as (_ & _ & H & _).
  apply (H (js "data:image/png;base64") (js "iVBORw0KGgo=")).
  - intros Hc. apply list_elem_of_In in Hc. vm_compute in Hc. intuition discriminate.
  - intros Hc. apply list_elem_of_In in Hc. vm_compute in Hc. intuition discriminate.
Defined.

End ServiceProofs.

(** ** cleanMarkdownForSpeech *)

Section SpeechProofs.

Import Speech.

Implicit Types (s r t p rep : jsstring) (c : N).

Lemma replace_all_fuel p rep f1 f2 s :
  p ≠ [] → (length s ≤ f1)%nat → (length s ≤ f2)%nat →
  replace_all f1 p rep s = replace_all f2 p rep s.
Proof.
  intros Hp. revert f2 s. induction f1 as [|f1 IH]; intros f2 s H1 H2.
  - destruct s; [|simpl in H1; lia]. by destruct f2.
  - destruct f2 as [|f2]; [destruct s; [done|simpl in H2; lia]|].
    destruct s as [|c r]; [done|]. cbn [replace_all].
    destruct (after_prefix p (c :: r)) as [rest|] eqn:Hr.
    + f_equal. pose proof (after_prefix_length _ _ _ Hr) as Hl.
      destruct p; [done|]. simpl in *. apply IH; lia.
    + f_equal. simpl in *. apply IH; lia.
Qed.

(** A character that is neither in the text nor in the replacement is not
    in the result. *)
Lemma replace_all_absent_char c p rep f s :
  c ∉ s → c ∉ rep → c ∉ replace_all f p rep s.
Proof.
  intros Hs Hrep. revert s Hs. induction f as [|f IH]; intros s Hs; [by intros ?%elem_of_nil|].
  destruct s as [|x r]; [by intros ?%elem_of_nil|]. cbn [replace_all].
  destruct (after_prefix p (x :: r)) as [rest|] eqn:Hr.
  - apply after_prefix_Some in Hr.
    intros [?|Hc]%elem_of_app; [done|]. revert Hc. apply IH.
    intros Hc. apply Hs. rewrite Hr. apply elem_of_app. by right.
  - intros [->|Hc]%elem_of_cons; [apply Hs; by left|]. revert Hc. apply IH.
    intros Hc. apply Hs. by right.
Qed.

(** Replacing a character removes it. *)
Lemma replace_all_char_gone c rep f s :
  c ∉ rep → c ∉ replace_all f [c] rep s.
Proof.
  intros Hrep. revert s. induction f as [|f IH]; intros s; [by intros ?%elem_of_nil|].
  destruct s as [|x r]; [by intros ?%elem_of_nil|]. cbn [replace_all after_prefix].
  destruct (N.eqb_spec c x) as [->|Hne].
  - intros [?|Hc]%elem_of_app; [done|]. by apply (IH r).
  - intros [->|Hc]%elem_of_cons; [done|]. by apply (IH r).
Qed.

(** A pattern that does not occur leaves the text as it is. *)
Lemma replace_all_no_match p rep f s :
  ¬ occurs p s → (length s ≤ f)%nat → replace_all f p rep s = s.
Proof.
  revert s. induction f as [|f IH]; intros s Hp Hf.
  - destruct s; [done|simpl in Hf; lia].
  - destruct s as [|c r]; [done|]. cbn [replace_all].
    destruct (after_prefix p (c :: r)) as [rest|] eqn:Hr.
    + apply after_prefix_Some in Hr. destruct Hp. exists [], rest. by rewrite Hr.
    + f_equal. apply IH; [|simpl in Hf; lia].
      intros Ho. apply Hp. by apply occurs_tail.
Qed.

Lemma replace_no_match p rep s : ¬ occurs p s → replace p rep s = s.
Proof. intros Hp. by apply replace_all_no_match. Qed.

Lemma not_elem_js_dollar :
  (dollar ∉ js " ") ∧ (dollar ∉ js "fraction") ∧ (dollar ∉ js "square root").
Proof. split_and!; intros H; apply list_elem_of_In in H; vm_compute in H; intuition discriminate. Qed.

Lemma not_elem_js_backslash :
  (backslash ∉ js " ") ∧ (backslash ∉ js "fraction") ∧ (backslash ∉ js "square root").
Proof. split_and!; intros H; apply list_elem_of_In in H; vm_compute in H; intuition discriminate. Qed.

Lemma not_elem_js_underscore :
  (underscore ∉ js " ") ∧ (underscore ∉ js "fraction") ∧ (underscore ∉ js "square root").
Proof. split_and!; intros H; apply list_elem_of_In in H; vm_compute in H; intuition discriminate. Qed.

(** X17: what is read aloud has no dollar sign, no backslash and no
    underscore, whatever the text. *)
Theorem speech_without_markup text :
  (dollar ∉ cleanMarkdownForSpeech text) ∧
  (backslash ∉ cleanMarkdownForSpeech text) ∧
  (underscore ∉ cleanMarkdownForSpeech text).
Proof.
  destruct text as [[|c t]|]; try (split_and!; by intros ?%elem_of_nil).
  unfold cleanMarkdownForSpeech, replace.
  destruct not_elem_js_dollar as (D1 & D2 & D3).
  destruct not_elem_js_backslash as (B1 & B2 & B3).
  destruct not_elem_js_underscore as (U1 & U2 & U3).
  split_and!.
  - do 4 (apply replace_all_absent_char; [|done]).
    apply replace_all_char_gone. by intros ?%elem_of_nil.
  - do 3 (apply replace_all_absent_char; [|done]).
    by apply replace_all_char_gone.
  - do 2 (apply replace_all_absent_char; [|done]).
    by apply replace_all_char_gone.
Qed.

Lemma occurs_elem c s : occurs [c] s → c ∈ s.
Proof. intros (a & b & ->). apply elem_of_app. right. by left. Qed.

Lemma occurs_head c p s : occurs (c :: p) s → c ∈ s.
Proof. intros (a & b & ->). apply elem_of_app. right. by left. Qed.

(** X18: a text without the marks that are replaced (two asterisks in a row,
    a dollar sign, a backslash, an underscore, [frac], [sqrt]) is read as it
    is. *)
Theorem speech_plain_text t :
  ¬ occurs (js "**") t → dollar ∉ t → backslash ∉ t → underscore ∉ t →
  ¬ occurs (js "frac") t → ¬ occurs (js "sqrt") t →
  cleanMarkdownForSpeech (Some t) = t.
Proof.
  intros H1 H2 H3 H4 H5 H6. destruct t as [|c t]; [done|].
  unfold cleanMarkdownForSpeech.
  rewrite (replace_no_match (js "**")) by done.
  rewrite (replace_no_match [dollar; dollar]) by (by intros ?%occurs_head).
  rewrite (replace_no_match [dollar]) by (by intros ?%occurs_elem).
  rewrite (replace_no_match [backslash]) by (by intros ?%occurs_elem).
  rewrite (replace_no_match [underscore]) by (by intros ?%occurs_elem).
  rewrite (replace_no_match (js "frac")) by done.
  by rewrite (replace_no_match (js "sqrt")) by done.
Qed.

Lemma speech_plain_text_witness :
  cleanMarkdownForSpeech (Some (js "Add 2 and 3.")) = js "Add 2 and 3.".
Proof.
  assert (Hno : ∀ c, In c (js "*$\_fs") → c ∉ js "Add 2 and 3.").
  { intros c Hc Hin. apply list_elem_of_In in Hin. vm_compute in Hc, Hin.
    intuition congruence. }
  apply speech_plain_text.
  - intros H%occurs_head. revert H. apply Hno. vm_compute. tauto.
  - apply Hno. vm_compute. tauto.
  - apply Hno. vm_compute. tauto.
  - apply Hno. vm_compute. tauto.
  - intros H%occurs_head. revert H. apply Hno. vm_compute. tauto.
  - intros H%occurs_head. revert H. apply Hno. vm_compute. tauto.
Defined.

End SpeechProofs.

(** ** The state of the application *)

Section SessionProofs.

Import Session.

Implicit Types (u : User) (r h : AnalysisResult) (history : list AnalysisResult).

Lemma marked_iff u r :
  existsb (λ item, bool_decide (id item = id r)) (revisionList u) = true ↔
  id r ∈ id <$> revisionList u.
Proof.
  rewrite existsb_exists. split.
  - intros (x & Hx & Heq). apply bool_decide_eq_true in Heq. rewrite <- Heq.
    apply list_elem_of_fmap. exists x. split; [done|]. by apply list_elem_of_In.
  - intros (x & Heq & Hx)%list_elem_of_fmap. exists x. split; [by apply list_elem_of_In|].
    by apply bool_decide_eq_true.
Qed.

(** X19: marking a result for revision keeps the ids of the revision list
    distinct, puts the id of the result on the list, changes nothing else of
    the user, and changes nothing at all when done a second time. *)
Theorem revision_list_distinct u r u' :
  handleMarkRevision (Some u) (Some r) = Some u' →
  (NoDup (id <$> revisionList u) → NoDup (id <$> revisionList u')) ∧
  (id r ∈ id <$> revisionList u') ∧
  (id r ∈ id <$> revisionList u → u' = u) ∧
  (id r ∉ id <$> revisionList u → revisionList u' = r :: revisionList u) ∧
  (xp u' = xp u ∧ level u' = level u ∧ history u' = history u) ∧
  handleMarkRevision (Some u') (Some r) = Some u'.
Proof.
  unfold handleMarkRevision.
  destruct (existsb _ (revisionList u)) eqn:Hex.
  - intros [= <-]. apply marked_iff in Hex as Hin. rewrite Hex. by split_and!.
  - intros [= <-]. simpl.
    assert (Hnin : id r ∉ id <$> revisionList u).
    { intros Hin%marked_iff. congruence. }
    rewrite bool_decide_true by done. simpl. split_and!; try done.
    + intros Hnd. by apply NoDup_cons.
    + by left.
Qed.

Lemma revision_list_distinct_witness :
  let r := {| id := js "1700000000000"; parsedData := None |} in
  let u := {| name := js "Student"; avatar := js "S"; xp := Finite 350;
              level := Finite 3;
              unlockedNodes := []; history := []; revisionList := [] |} in
  ∃ u', handleMarkRevision (Some u) (Some r) = Some u' ∧
        revisionList u' = [r] ∧
        handleMarkRevision (Some u') (Some r) = Some u'.
Proof.
  intros r u. eexists. split; [reflexivity|].
  destruct (revision_list_distinct u r _ eq_refl) as (_ & _ & _ & H & _ & H').
  split; [apply H; by intros ?%elem_of_nil | exact H'].
Defined.

Lemma to_binary64_exact z : z < 2 ^ 53 → to_binary64 z = Finite z.
Proof. intros Hz. unfold to_binary64. by rewrite (proj2 (Z.ltb_lt _ _) Hz). Qed.

Lemma binary64_exact z : 0 ≤ z < 2 ^ 53 → binary64 z = Finite z.
Proof.
  intros [H0 Hz]. unfold binary64. rewrite (proj2 (Z.leb_le _ _) H0).
  by apply to_binary64_exact.
Qed.

(** Below [2^53] the rounded quotient by 100 has at least six binary places:
    too fine for the rounding to reach the next whole number. *)
Lemma floor_hundredth_exact a : 0 ≤ a < 2 ^ 53 → floor_hundredth a = a / 100.
Proof.
  intros [H0 Ha]. unfold floor_hundredth.
  destruct (Z.eqb_spec a 0) as [->|Hne]; [done|].
  rewrite (proj2 (Z.ltb_lt 0 a)) by lia.
  unfold nearest. change (Z.log2 100) with 6.
  assert (Hl : 0 ≤ Z.log2 a < 53).
  { split; [apply Z.log2_nonneg|]. apply Z.log2_lt_pow2; lia. }
  set (c := if a * 2 ^ 6 <? 100 * 2 ^ Z.log2 a then 1 else 0).
  assert (Hc : 0 ≤ c ≤ 1) by (unfold c; case_match; lia).
  set (e := Z.log2 a - 6 - c - 52).
  assert (He : e ≤ -6) by (unfold e; lia).
  rewrite (proj2 (Z.leb_gt 0 e)) by lia.
  unfold floor_scaled. rewrite (proj2 (Z.leb_gt 0 e)) by lia.
  set (P := 2 ^ (- e)).
  assert (HP : 64 ≤ P).
  { unfold P. change 64 with (2 ^ 6). apply Z.pow_le_mono_r; lia. }
  pose proof (Z.div_mod a 100 ltac:(done)) as Ha100.
  pose proof (Z.mod_pos_bound a 100 ltac:(done)) as HR.
  pose proof (Z.div_mod (a * P) 100 ltac:(done)) as HaP.
  pose proof (Z.mod_pos_bound (a * P) 100 ltac:(done)) as Hr.
  set (Q := a / 100) in *. set (R := a mod 100) in *.
  set (q := a * P / 100) in *. set (r := a * P mod 100) in *.
  assert (HRP : 0 ≤ R * P ≤ 99 * P) by nia.
  assert (Hprod : a * P = 100 * (Q * P) + R * P) by (rewrite Ha100 at 1; ring).
  set (m := if (100 <? 2 * r) || (2 * r =? 100) && Z.odd q then q + 1 else q).
  assert (Hm : m = q ∨ (m = q + 1 ∧ 50 ≤ r)).
  { unfold m. destruct (100 <? 2 * r) eqn:E1; simpl.
    - right. apply Z.ltb_lt in E1. lia.
    - destruct (2 * r =? 100) eqn:E2; simpl; [|by left].
      apply Z.eqb_eq in E2. destruct (Z.odd q); [right; lia | by left]. }
  symmetry. apply (Z.div_unique m P Q (m - P * Q)); [|lia].
  left. destruct Hm as [->|[-> Hr50]]; lia.
Qed.

(** One analysis, while the experience is below [2^53]. *)
Lemma award_exact u d x :
  xp u = Finite x → 0 ≤ x → x + 50 < 2 ^ 53 →
  award u d =
    {| name := name u; avatar := avatar u;
       xp := Finite (x + 50); level := Finite ((x + 50) / 100 + 1);
       unlockedNodes := unlockedNodes u; history := d :: history u;
       revisionList := revisionList u |}.
Proof.
  intros Hx H0 Hb. unfold award. rewrite Hx.
  assert (Hz : (if number_eqb (Finite x) (Finite 0) then Finite 0 else Finite x)
               = Finite x).
  { simpl. by destruct (Z.eqb_spec x 0) as [->|]. }
  rewrite Hz, binary64_exact by lia.
  rewrite floor_hundredth_exact by lia.
  rewrite binary64_exact; [done|].
  pose proof (Z.div_pos (x + 50) 100 ltac:(lia) ltac:(done)).
  pose proof (Z.div_lt (x + 50) 100 ltac:(lia) ltac:(done)). lia.
Qed.

Lemma award_all_spec u (results : list AnalysisResult) x :
  results ≠ [] → xp u = Finite x → 0 ≤ x →
  x + 50 * Z.of_nat (length results) < 2 ^ 53 →
  xp (foldl award u results) = Finite (x + 50 * Z.of_nat (length results)) ∧
  level (foldl award u results)
    = Finite ((x + 50 * Z.of_nat (length results)) / 100 + 1) ∧
  history (foldl award u results) = rev results ++ history u ∧
  revisionList (foldl award u results) = revisionList u.
Proof.
  intros Hne Hx H0. induction results as [|d results IH] using rev_ind; [done|].
  clear Hne. rewrite foldl_snoc, length_app, rev_app_distr. cbn [length]. intros Hb.
  destruct results as [|d' results'].
  - cbn [foldl]. rewrite (award_exact u d x Hx H0) by (simpl in Hb; lia).
    cbn [xp level history revisionList]. simpl. split_and!; done.
  - destruct IH as (H1 & _ & H3 & H4); [done | lia |].
    set (rs := d' :: results') in *.
    rewrite (award_exact _ d _ H1) by lia.
    cbn [xp level history revisionList]. rewrite H3, H4.
    replace (x + 50 * Z.of_nat (length rs) + 50)
      with (x + 50 * Z.of_nat (length rs + 1)) by lia.
    split_and!; done.
Qed.

(** X20: while the experience stays below [2^53], where binary64 is exact on
    whole numbers: after one or more analyses the experience has grown by 50
    for each, the level is the experience divided by 100, rounded down,
    plus 1 (it does not depend on the level before), the new results stand
    at the head of the history, newest first, and each further pair of
    analyses raises the level by exactly 1. *)
Theorem experience_and_level u (results : list AnalysisResult) d1 d2 x :
  results ≠ [] → xp u = Finite x → 0 ≤ x →
  x + 50 * Z.of_nat (length results) + 100 < 2 ^ 53 →
  let u' := foldl award u results in
  let x' := x + 50 * Z.of_nat (length results) in
  xp u' = Finite x' ∧
  level u' = Finite (x' / 100 + 1) ∧
  100 * (x' / 100) ≤ x' < 100 * (x' / 100 + 1) ∧
  history u' = rev results ++ history u ∧
  level (award (award u' d1) d2) = Finite (x' / 100 + 2).
Proof.
  intros Hne Hx H0 Hb u' x'.
  destruct (award_all_spec u results x Hne Hx H0 ltac:(lia)) as (H1 & H2 & H3 & _).
  fold u' x' in H1, H2, H3. split_and!; try done.
  - pose proof (Z.div_mod x' 100 ltac:(done)).
    pose proof (Z.mod_pos_bound x' 100 ltac:(done)). lia.
  - pose proof (Z.div_mod x' 100 ltac:(done)).
    pose proof (Z.mod_pos_bound x' 100 ltac:(done)). lia.
  - assert (Hx1 : xp (award u' d1) = Finite (x' + 50)).
    { rewrite (award_exact u' d1 x' H1); [done | unfold x'; lia..]. }
    rewrite (award_exact _ d2 _ Hx1) by (unfold x'; lia). cbn [level].
    replace (x' + 50 + 50) with (x' + 1 * 100) by lia.
    rewrite Z.div_add by done. f_equal. lia.
Qed.

Lemma experience_and_level_witness :
  let u := {| name := js "Student"; avatar := js "S"; xp := Finite 350;
              level := Finite 3;
              unlockedNodes := []; history := []; revisionList := [] |} in
  let d := {| id := js "1700000000000"; parsedData := None |} in
  xp (foldl award u [d]) = Finite (350 + 50 * 1) ∧
  level (foldl award u [d]) = Finite 5.
Proof.
  intros u d.
  destruct (experience_and_level u [d] d d 350 ltac:(discriminate) eq_refl
              ltac:(lia) ltac:(simpl; lia)) as (H1 & H2 & _).
  split; [exact H1 | exact H2].
Defined.

(** Beyond [2^53] the sums are rounded: from [2^55] the experience grows by
    48, not by 50. *)
Example award_rounded :
  let u := {| name := js "Student"; avatar := js "S"; xp := Finite (2 ^ 55);
              level := Finite 1;
              unlockedNodes := []; history := []; revisionList := [] |} in
  let d := {| id := js "1700000000000"; parsedData := None |} in
  xp (award u d) = Finite (2 ^ 55 + 48) ∧
  level (award u d) = Finite 360287970189641.
Proof. split; vm_compute; reflexivity. Qed.

Lemma filter_In_elem {A} (p : A → bool) (l : list A) x :
  x ∈ List.filter p l ↔ x ∈ l ∧ p x = true.
Proof. by rewrite !list_elem_of_In, filter_In. Qed.

Lemma shown_bound {A} (l stock : list A) :
  (1 ≤ length stock ≤ 3)%nat →
  (1 ≤ length (match take 3 l with [] => stock | _ :: _ => take 3 l end) ≤ 3)%nat.
Proof.
  intros Hs. destruct (take 3 l) as [|x xs] eqn:Ht; [done|].
  rewrite <- Ht, length_take. destruct l; [done|]. cbn [length]. lia.
Qed.

(** X21: when [UserInsights] shows anything, each of its two lists has one
    to three entries; the places to improve are the stock pair or labels of
    nodes of type misconception from the history; the strengths are the
    stock pair or labels of reasoning nodes of results without such a node;
    and if every result has a misconception, the strengths are the stock
    pair. *)
Theorem insights_bounded history shown_strengths shown_weaknesses :
  UserInsights history = Some (shown_strengths, shown_weaknesses) →
  (1 ≤ length shown_strengths ≤ 3)%nat ∧
  (1 ≤ length shown_weaknesses ≤ 3)%nat ∧
  (shown_weaknesses = [js "Chain Rule"; js "Edge Cases"] ∨
   ∀ w, w ∈ shown_weaknesses →
     ∃ h n, h ∈ history ∧ n ∈ misconception_nodes h ∧
            type n = js "misconception" ∧ label n = w) ∧
  (shown_strengths = [js "Logic Setup"; js "Basic Arithmetic"] ∨
   ∀ s, s ∈ shown_strengths →
     ∃ h n, h ∈ history ∧ without_misconception h = true ∧
            n ∈ reasoning_nodes h ∧ label n = s) ∧
  ((∀ h, h ∈ history → without_misconception h = false) →
   shown_strengths = [js "Logic Setup"; js "Basic Arithmetic"]).
Proof.
  unfold UserInsights. destruct history as [|h0 hs] eqn:Hh; [done|]. rewrite <- Hh. clear Hh.
  intros [= <- <-].
  split; [|split; [|split; [|split]]].
  - pose proof (shown_bound (label <$> (List.filter without_misconception history ≫= reasoning_nodes))
                  [js "Logic Setup"; js "Basic Arithmetic"]) as Hb.
    unfold strengths. destruct (take 3 _); apply Hb; cbn [length]; lia.
  - pose proof (shown_bound (label <$> List.filter is_misconception (history ≫= misconception_nodes))
                  [js "Chain Rule"; js "Edge Cases"]) as Hb.
    unfold misconceptions. destruct (take 3 _); apply Hb; cbn [length]; lia.
  - destruct (misconceptions history) as [|m ms] eqn:Hm; [by left|]. right.
    rewrite <- Hm. unfold misconceptions. intros w Hw%elem_of_take.
    destruct Hw as (i & Hw & _). apply list_elem_of_lookup_2 in Hw.
    apply list_elem_of_fmap in Hw as (n & -> & Hn). apply filter_In_elem in Hn as [Hn Ht].
    apply list_elem_of_bind in Hn as (h & Hn & Hh). exists h, n. split_and!; try done.
    by apply bool_decide_eq_true in Ht.
  - destruct (strengths history) as [|m ms] eqn:Hm; [by left|]. right.
    rewrite <- Hm. unfold strengths. intros s Hs%elem_of_take.
    destruct Hs as (i & Hs & _). apply list_elem_of_lookup_2 in Hs.
    apply list_elem_of_fmap in Hs as (n & -> & Hn).
    apply list_elem_of_bind in Hn as (h & Hn & Hh). apply filter_In_elem in Hh as [Hh Hw].
    by exists h, n.
  - intros Hall. assert (Hf : List.filter without_misconception history = []).
    { clear -Hall. induction history as [|h hs IH]; [done|]. simpl.
      rewrite (Hall h) by (by left). apply IH. intros h' Hh'. apply Hall. by right. }
    unfold strengths. by rewrite Hf.
Qed.

Lemma insights_bounded_witness :
  let h := {| id := js "1700000000000";
              parsedData := Some
                {| reasoning_graph := Some [{| label := js "Setup"; type := js "default" |}];
                   misconception_graph :=
                     Some [{| label := js "Sign error"; type := js "misconception" |}] |} |} in
  UserInsights [h] =
    Some ([js "Logic Setup"; js "Basic Arithmetic"], [js "Sign error"]) ∧
  (1 ≤ length [js "Logic Setup"; js "Basic Arithmetic"] ≤ 3)%nat ∧
  (1 ≤ length [js "Sign error"] ≤ 3)%nat.
Proof.
  intros h. split; [reflexivity|].
  destruct (insights_bounded [h] _ _ eq_refl) as (H1 & H2 & _).
  split; [exact H1 | exact H2].
Defined.

End SessionProofs.

(** ** FlashcardDeck *)

Section DeckProofs.

Import Deck.

Implicit Types (cards : list Flashcard).

Lemma handleNext_mod cards i :
  cards ≠ [] → 0 ≤ i → handleNext cards i = (i + 1) mod Z.of_nat (length cards).
Proof.
  intros Hc Hi. unfold handleNext. destruct cards; [done|].
  apply Z.rem_mod_nonneg; simpl length; lia.
Qed.

Lemma handlePrev_mod cards i :
  cards ≠ [] → 0 ≤ i →
  handlePrev cards i = (i - 1) mod Z.of_nat (length cards).
Proof.
  intros Hc Hi. unfold handlePrev. destruct cards as [|c cards]; [done|].
  rewrite Z.rem_mod_nonneg by (simpl length; lia).
  rewrite <- (Z.mod_add (i - 1) 1) by (simpl length; lia). f_equal; lia.
Qed.

Lemma iter_handleNext cards (n : nat) i :
  cards ≠ [] → 0 ≤ i →
  Nat.iter (S n) (handleNext cards) i = (i + Z.of_nat (S n)) mod Z.of_nat (length cards).
Proof.
  intros Hc Hi.
  assert (Hl : 0 < Z.of_nat (length cards)) by (destruct cards; [done|simpl length; lia]).
  induction n as [|n IH].
  - simpl. by rewrite handleNext_mod by done.
  - rewrite Nat.iter_succ, IH. rewrite handleNext_mod; [|done|by apply Z.mod_pos_bound].
    rewrite Zplus_mod_idemp_l. f_equal. lia.
Qed.

(** X22: as long as the deck is not empty and the index is one of its
    positions, the next and the previous index are positions of the deck
    too, so that there is a current card; going on and back, or back and on,
    returns to the index; and going on as often as there are cards does. *)
Theorem deck_navigation cards i :
  cards ≠ [] → 0 ≤ i < Z.of_nat (length cards) →
  is_Some (currentCard cards (handleNext cards i)) ∧
  is_Some (currentCard cards (handlePrev cards i)) ∧
  handlePrev cards (handleNext cards i) = i ∧
  handleNext cards (handlePrev cards i) = i ∧
  Nat.iter (length cards) (handleNext cards) i = i.
Proof.
  intros Hc Hi.
  assert (Hl : 0 < Z.of_nat (length cards)) by lia.
  pose proof (Z.mod_pos_bound (i + 1) _ Hl) as Hn.
  pose proof (Z.mod_pos_bound (i - 1) _ Hl) as Hp.
  assert (Hcur : ∀ j, 0 ≤ j < Z.of_nat (length cards) → is_Some (currentCard cards j)).
  { intros j Hj. unfold currentCard. rewrite (proj2 (Z.ltb_ge j 0)) by lia.
    apply lookup_lt_is_Some_2. lia. }
  split; [|split; [|split; [|split]]].
  - apply Hcur. by rewrite handleNext_mod by (done || lia).
  - apply Hcur. by rewrite handlePrev_mod by (done || lia).
  - rewrite handleNext_mod by (done || lia). rewrite handlePrev_mod by (done || lia).
    rewrite Zminus_mod_idemp_l. replace (i + 1 - 1) with i by lia. by apply Z.mod_small.
  - rewrite handlePrev_mod by (done || lia). rewrite handleNext_mod by (done || lia).
    rewrite Zplus_mod_idemp_l. replace (i - 1 + 1) with i by lia. by apply Z.mod_small.
  - destruct cards as [|c cards]; [done|]. cbn [length].
    rewrite iter_handleNext by (done || lia). cbn [length].
    rewrite <- (Z.mul_1_l (Z.of_nat (S (length cards)))) at 1.
    rewrite Z.mod_add by lia. by apply Z.mod_small.
Qed.

Lemma deck_navigation_witness :
  let card := {| front := js "d/dx x^2"; back := js "2x"; concept := js "Power rule" |} in
  handlePrev [card; card; card] (handleNext [card; card; card] 2) = 2 ∧
  handleNext [card; card; card] 2 = 0.
Proof.
  intros card.
  destruct (deck_navigation [card; card; card] 2) as (_ & _ & H & _).
  - discriminate.
  - simpl. lia.
  - split; [exact H | reflexivity].
Defined.

End DeckProofs.

(** ** QuizMessage *)

Section QuizProofs.

Import Quiz.

Implicit Types (questions : list QuizQuestion) (st : quiz_state).

Lemma select_all_spec (choice : QuizQuestion → jsstring) questions st :
  submitted st = false →
  (∀ q, q ∈ questions → choice q ≠ []) →
  let st' := foldl (λ st q, handleSelect st (id q) (choice q)) st questions in
  submitted st' = false ∧
  (∀ k, k ∈ id <$> questions → ∃ c r, selections st' !! k = Some (c :: r)) ∧
  (∀ k, k ∉ id <$> questions → selections st' !! k = selections st !! k).
Proof.
  revert st. induction questions as [|q questions IH]; intros st Hs Hch.
  - split; [done|]. split; [by intros k ?%elem_of_nil|done].
  - cbn [foldl].
    set (st1 := handleSelect st (id q) (choice q)).
    assert (Hst1 : st1 = {| selections := <[id q := choice q]> (selections st);
                            submitted := false |}).
    { unfold st1, handleSelect. by rewrite Hs. }
    destruct (IH st1) as (H1 & H2 & H3).
    { by rewrite Hst1. }
    { intros q' Hq'. apply Hch. by right. }
    split; [done|]. split.
    + intros k Hk. destruct (decide (k ∈ id <$> questions)) as [Hin|Hnin]; [by apply H2|].
      rewrite H3 by done. rewrite fmap_cons in Hk.
      apply elem_of_cons in Hk as [->|?]; [|done].
      rewrite Hst1. simpl. rewrite lookup_insert_eq.
      destruct (choice q) as [|c r] eqn:Hc; [|by eauto].
      destruct (Hch q); [by left|done].
    + intros k Hk. rewrite fmap_cons in Hk. rewrite H3 by (intros ?; apply Hk; by right).
      rewrite Hst1. simpl. rewrite lookup_insert_ne; [done|]. intros Heq. apply Hk. rewrite <- Heq. by left.
Qed.

(** X23: once an option that is not the empty string has been selected for
    every question of a quiz that has questions, all are answered and the
    answers can be submitted; a selection of the empty string leaves its
    question unanswered; and after the answers are submitted a selection
    changes nothing. *)
Theorem quiz_all_answered (choice : QuizQuestion → jsstring) questions :
  questions ≠ [] →
  (∀ q, q ∈ questions → choice q ≠ []) →
  allAnswered questions
    (foldl (λ st q, handleSelect st (id q) (choice q)) quiz_start questions) = true ∧
  (∀ st q, submitted st = false → answered (handleSelect st (id q) []) q = false) ∧
  (∀ st qId option, submitted st = true → handleSelect st qId option = st).
Proof.
  intros Hne Hch. split; [|split].
  - destruct (select_all_spec choice questions quiz_start eq_refl Hch) as (_ & H & _).
    unfold allAnswered. apply andb_true_iff. split.
    + apply Z.ltb_lt. destruct questions; [done|]. simpl length. lia.
    + apply forallb_forall. intros q Hq%list_elem_of_In. unfold answered.
      destruct (H (id q)) as (c & r & ->); [|done].
      apply list_elem_of_fmap. by exists q.
  - intros st q Hs. unfold handleSelect, answered. rewrite Hs. simpl.
    by rewrite lookup_insert_eq.
  - intros st qId option Hs. unfold handleSelect. by rewrite Hs.
Qed.

Lemma quiz_all_answered_witness :
  let q1 := {| id := js "q1"; question := js "2 + 2"; options := [js "3"; js "4"] |} in
  let q2 := {| id := js "q2"; question := js "3 * 3"; options := [js "6"; js "9"] |} in
  allAnswered [q1; q2]
    (foldl (λ st q, handleSelect st (id q) (default [] (last (options q)))) quiz_start
       [q1; q2]) = true.
Proof.
  intros q1 q2.
  apply (quiz_all_answered (λ q, default [] (last (options q))) [q1; q2]).
  - discriminate.
  - intros q Hq. apply list_elem_of_In in Hq. simpl in Hq.
    destruct Hq as [<-|[<-|[]]]; discriminate.
Defined.

End QuizProofs.

(** ** The focused row *)

Section TableProofs.

Import Table.

Lemma imap_lookup {A B} (f : nat → A → B) (l : list A) (j : nat) :
  imap f l !! j = f j <$> l !! j.
Proof. apply list_lookup_imap. Qed.

(** X24: when a click on a node focuses a step, the table of steps is shown
    and exactly one of its rows is marked as focused: the row of that
    step. *)
Theorem one_row_focused steps node_id i :
  handleGraphNodeClick (Some steps) node_id = Some i →
  ∃ rows, focused_rows steps (Some i) = Some rows ∧
          length rows = length steps ∧
          ∀ j, rows !! j = Some true ↔ j = Z.to_nat i.
Proof.
  intros Hc.
  destruct (handle_range (Some steps) node_id) as [Hn|(i' & Hi' & Hr)]; [congruence|].
  rewrite Hc in Hi'. injection Hi' as <-. simpl in Hr.
  assert (Hne : steps ≠ []) by (intros ->; simpl in Hr; lia).
  unfold focused_rows. destruct steps as [|s0 rest] eqn:Hs; [done|]. rewrite <- Hs in *.
  eexists. split; [done|]. split; [by rewrite length_imap|].
  intros j. rewrite imap_lookup. split.
  - destruct (steps !! j) as [x|] eqn:Hj; [|done]. simpl.
    intros [= Hb%bool_decide_eq_true]. injection Hb as ->. lia.
  - intros ->. destruct (lookup_lt_is_Some_2 steps (Z.to_nat i)) as [x ->]; [lia|].
    simpl. f_equal. apply bool_decide_eq_true. f_equal. lia.
Qed.

Lemma one_row_focused_witness :
  handleGraphNodeClick (Some three_steps) (Some (js "step2")) = Some 1 ∧
  ∃ rows, focused_rows three_steps (Some 1) = Some rows ∧
          length rows = length three_steps ∧
          ∀ j, rows !! j = Some true ↔ j = Z.to_nat 1.
Proof.
  split; [reflexivity|].
  exact (one_row_focused three_steps (Some (js "step2")) 1 eq_refl).
Defined.

End TableProofs.

(** ** The widths of the three panels *)

Section PanelProofs.

Import Panels.

(** X25: dragging a divider never makes a panel ten percent wide or less:
    whatever the mouse event and the width of the window, zero included, if
    there are three widths, all above 10, then so it is after the event.
    It holds of the initial widths, and hence after every sequence of
    events. *)
Theorem panels_stay_wide :
  wide initial_widths ∧
  (∀ isResizing movementX totalWidth prev,
     wide prev → wide (handleMouseMove isResizing movementX totalWidth prev)) ∧
  (∀ (events : list (option Z * float * float)),
     wide (foldl (λ widths e, handleMouseMove e.1.1 e.1.2 e.2 widths)
             initial_widths events)).
Proof.
  assert (H0 : wide initial_widths).
  { split; [done|]. intros w Hw. apply list_elem_of_In in Hw. simpl in Hw.
    destruct Hw as [<-|[<-|[<-|[]]]]; vm_compute; reflexivity. }
  assert (Hstep : ∀ isResizing movementX totalWidth prev,
     wide prev → wide (handleMouseMove isResizing movementX totalWidth prev)).
  { intros r mx tw prev [Hlen Hall]. unfold handleMouseMove.
    destruct r as [index|]; [|by split].
    set (d := PrimFloat.mul (PrimFloat.div mx tw) 100%float).
    destruct prev as [|a [|b [|c [|? ?]]]]; try done.
    assert (Ha : gt a 10%float = true) by (apply Hall; by left).
    assert (Hb : gt b 10%float = true) by (apply Hall; right; by left).
    assert (Hc : gt c 10%float = true) by (apply Hall; right; right; by left).
    destruct (index =? 0).
    - unfold width_at, shift. simpl.
      destruct (gt (PrimFloat.add a d) 10%float) eqn:H1; [|by split].
      destruct (gt (PrimFloat.sub b d) 10%float) eqn:H2; [|by split].
      split; [done|]. intros w Hw. apply list_elem_of_In in Hw. simpl in Hw.
      destruct Hw as [<-|[<-|[<-|[]]]]; done.
    - destruct (index =? 1); [|by split].
      unfold width_at, shift. simpl.
      destruct (gt (PrimFloat.add b d) 10%float) eqn:H1; [|by split].
      destruct (gt (PrimFloat.sub c d) 10%float) eqn:H2; [|by split].
      split; [done|]. intros w Hw. apply list_elem_of_In in Hw. simpl in Hw.
      destruct Hw as [<-|[<-|[<-|[]]]]; done. }
  split; [done|]. split; [done|].
  intros events. induction events as [|e events IH] using rev_ind; [done|].
  rewrite foldl_snoc. by apply Hstep.
Qed.

Lemma panels_stay_wide_witness :
  handleMouseMove (Some 0) 96%float 1920%float initial_widths
    = [40%float; 25%float; 35%float] ∧
  wide (handleMouseMove (Some 0) 96%float 1920%float initial_widths).
Proof.
  split; [vm_compute; reflexivity|].
  destruct panels_stay_wide as (H0 & Hstep & _). by apply Hstep.
Defined.

End PanelProofs.
